(** * scedar.eda.mdl: minimum description length encoders

    A shallow embedding of [src/scedar/eda/mdl.py] and the properties of
    its three encoders ([MultinomialMdl], [GKdeMdl], [ZeroIGKdeMdl]).

    Numeric model.  A finite float64 is a dyadic rational, so the entries
    of a sample array are modelled as [Q]; comparison, [abs] and
    [np.unique] on them are exact, as they are on float64.  Where the
    float64 result of an operation decides a branch or a count, it is
    modelled as float64 computes it, by [f64]: the differences
    [uniq_vals[i] - uval] of the adjacency rule and the product
    [x * 100] of the fallback are rounded to the nearest float64 (ties to
    even, overflow to an infinity), [np.abs(qx) * 2] overflows to [inf],
    and [astype(int)] wraps to the least int64 outside the int64 range.
    Whatever goes through [np.log], a division of a count by [n] or a
    standard deviation is a real number or one of the IEEE special values,
    modelled by [fval]; the rounding of these in the last place is not
    modelled.  Arrays holding [nan] or [inf] entries are outside the
    model. *)

From Stdlib Require Import QArith Qabs Qminmax Qreals Qround.
From Stdlib Require Import Reals Psatz List ZArith Bool Sorted.
From stdpp Require Import gmap.
Import ListNotations.

(** ** Floating-point results: reals extended with the IEEE specials *)

Inductive fval : Type :=
| Fin (r : R)
| PInf
| NInf
| NaN.

Definition fneg (a : fval) : fval :=
  match a with
  | Fin r => Fin (- r)
  | PInf => NInf
  | NInf => PInf
  | NaN => NaN
  end.

Definition fadd (a b : fval) : fval :=
  match a, b with
  | NaN, _ | _, NaN => NaN
  | Fin x, Fin y => Fin (x + y)
  | PInf, NInf | NInf, PInf => NaN
  | PInf, _ | _, PInf => PInf
  | NInf, _ | _, NInf => NInf
  end.

(** Sign of a real, as IEEE multiplication by an infinity needs it. *)
Definition fsign_mul (inf : fval) (r : R) : fval :=
  if Rlt_dec 0 r then inf
  else if Rlt_dec r 0 then fneg inf
  else NaN.

Definition fmul (a b : fval) : fval :=
  match a, b with
  | NaN, _ | _, NaN => NaN
  | Fin x, Fin y => Fin (x * y)
  | Fin x, PInf => fsign_mul PInf x
  | Fin x, NInf => fsign_mul NInf x
  | PInf, Fin y => fsign_mul PInf y
  | NInf, Fin y => fsign_mul NInf y
  | PInf, PInf | NInf, NInf => PInf
  | PInf, NInf | NInf, PInf => NInf
  end.

Definition fsub (a b : fval) : fval := fadd a (fneg b).

(** [np.log]: [-inf] at zero and [nan] below it (numpy warns, it does not
    raise). *)
Definition np_log (r : R) : fval :=
  if Rlt_dec 0 r then Fin (ln r)
  else if Req_dec_T r 0 then NInf
  else NaN.

(** [arr.sum()] of an array of floats. *)
Definition np_sum (l : list fval) : fval := fold_right fadd (Fin 0) l.

Definition of_int (n : nat) : fval := Fin (INR n).

Definition is_finite (a : fval) : Prop :=
  match a with Fin _ => True | _ => False end.

Definition fnonneg (a : fval) : Prop :=
  match a with
  | Fin r => (0 <= r)%R
  | PInf => True
  | NInf | NaN => False
  end.

(** ** float64 values an array operation can produce

    A finite value or an infinity.  [nan] does not arise from the
    operations below on finite operands. *)

Inductive f64 : Type :=
| F64 (q : Q)
| F64inf (negative : bool).

(** [2 ^ e] for an integer exponent. *)
Definition Qpow2 (e : Z) : Q :=
  if (0 <=? e)%Z then inject_Z (2 ^ e) else 1 # Z.to_pos (2 ^ (- e)).

(** [floor (log2 q)] for [q > 0]. *)
Definition f64_exponent (q : Q) : Z :=
  let e0 := (Z.log2 (Qnum q) - Z.log2 (Zpos (Qden q)))%Z in
  if Qle_bool (Qpow2 e0) q then e0 else (e0 - 1)%Z.

(** The integer nearest to [q >= 0], the even one of two that are equally
    near. *)
Definition round_half_even (q : Q) : Z :=
  let n := Qnum q in
  let d := Zpos (Qden q) in
  let fl := (n / d)%Z in
  match (2 * (n mod d) ?= d)%Z with
  | Lt => fl
  | Gt => (fl + 1)%Z
  | Eq => if Z.even fl then fl else (fl + 1)%Z
  end.

(** Rounding of [q > 0] to binary64: 53 significant bits, least exponent
    [-1074] (subnormals), [inf] from [2 ^ 1024] on. *)
Definition f64_round_pos (q : Q) : f64 :=
  let t := Z.max (f64_exponent q - 52) (-1074) in
  let m := round_half_even (q / Qpow2 t) in
  let r := (inject_Z m * Qpow2 t)%Q in
  if Qle_bool (Qpow2 1024) r then F64inf false else F64 (Qred r).

Definition f64_neg (a : f64) : f64 :=
  match a with
  | F64 q => F64 (- q)
  | F64inf s => F64inf (negb s)
  end.

(** The float64 nearest to a rational, as IEEE 754 round-to-nearest-even
    gives it. *)
Definition f64_round (q : Q) : f64 :=
  let q' := Qred q in
  match Qnum q' with
  | Z0 => F64 0
  | Zpos _ => f64_round_pos q'
  | Zneg _ => f64_neg (f64_round_pos (- q'))
  end.

Definition f64_sub (a b : Q) : f64 := f64_round (a - b).
Definition f64_mul (a b : Q) : f64 := f64_round (a * b).

(** Doubling a float64 only changes its exponent: it is exact, or
    overflows from magnitude [2 ^ 1023] on. *)
Definition f64_twice (a : Q) : f64 :=
  if Qle_bool (Qpow2 1023) (Qabs a)
  then F64inf (negb (Qle_bool 0 a))
  else F64 (a * 2).

Definition f64_abs (a : f64) : f64 :=
  match a with
  | F64 q => F64 (Qabs q)
  | F64inf _ => F64inf false
  end.

Definition f64_compare (a b : f64) : comparison :=
  match a, b with
  | F64 x, F64 y => (x ?= y)%Q
  | F64inf true, F64inf true => Eq
  | F64inf false, F64inf false => Eq
  | F64inf true, _ => Lt
  | _, F64inf true => Gt
  | F64inf false, _ => Gt
  | _, F64inf false => Lt
  end.

Definition f64_max (a b : f64) : f64 :=
  match f64_compare a b with
  | Lt => b
  | _ => a
  end.

(** [np.log] of a float64. *)
Definition f64_log (a : f64) : fval :=
  match a with
  | F64 q => np_log (Q2R q)
  | F64inf false => PInf
  | F64inf true => NaN
  end.

(** ** Python exceptions *)

Inductive exn : Type :=
| ValueError
| IndexError
| LinAlgError.

Inductive py (A : Type) : Type :=
| Ok (a : A)
| Raise (e : exn).
Arguments Ok {A} a.
Arguments Raise {A} e.

Definition py_bind {A B} (c : py A) (k : A -> py B) : py B :=
  match c with
  | Ok a => k a
  | Raise e => Raise e
  end.

Notation "x <- c ;; k" := (py_bind c (fun x => k))
  (at level 100, c at next level, right associativity).

(** ** numpy arrays and the array functions the module calls *)

(** An array by its number of dimensions: [ndim] is 0, 1 or 2.  The tests
    [x.ndim != 1] of the module are matches on the constructor. *)
Inductive ndarray : Type :=
| Arr0 (v : Q)
| Arr1 (v : list Q)
| Arr2 (rows : list (list Q)).

Inductive dtype : Type :=
| f8
| i8
| bool_.

(** [np.issubdtype(dtype, np.number)] *)
Definition issubdtype_number (d : dtype) : bool :=
  match d with
  | f8 | i8 => true
  | bool_ => false
  end.

(** Truncation towards zero. *)
Definition Qtrunc (q : Q) : Z := Z.quot (Qnum q) (Zpos (Qden q)).

Definition int64_min : Z := (- 2 ^ 63)%Z.
Definition int64_max : Z := (2 ^ 63 - 1)%Z.

(** Conversion of a float64 to int64, as [astype(int)] does it on x86-64:
    truncation towards zero; when the truncated value does not fit int64,
    and for an infinity, the result is the least int64. *)
Definition astype_int (a : f64) : Z :=
  match a with
  | F64 q =>
      let k := Qtrunc q in
      if ((int64_min <=? k) && (k <=? int64_max))%Z then k else int64_min
  | F64inf _ => int64_min
  end.

Definition cast (d : dtype) (q : Q) : Q :=
  match d with
  | f8 => q
  | i8 => inject_Z (astype_int (F64 q))
  | bool_ => if Qeq_bool q 0 then 0%Q else 1%Q
  end.

(** [np.array(x, dtype=dtype)] *)
Definition np_array (x : ndarray) (d : dtype) : ndarray :=
  match x with
  | Arr0 v => Arr0 (cast d v)
  | Arr1 v => Arr1 (map (cast d) v)
  | Arr2 rows => Arr2 (map (map (cast d)) rows)
  end.

Definition npfloat_1d (x : ndarray) (d : dtype) : py (list Q) :=
  if negb (issubdtype_number d) then Raise ValueError
  else
    match np_array x d with
    | Arr1 v => Ok v
    | _ => Raise ValueError
    end.

(** [a[i]] on a 1-D array: a negative index counts from the end. *)
Definition getitem {A} (a : list A) (i : Z) : py A :=
  let len := Z.of_nat (length a) in
  let j := if (i <? 0)%Z then (i + len)%Z else i in
  if ((j <? 0) || (len <=? j))%Z then Raise IndexError
  else
    match nth_error a (Z.to_nat j) with
    | Some v => Ok v
    | None => Raise IndexError
    end.

(** One step of [np.unique(.., return_counts=True)]: the table is kept
    sorted by value, an equal value bumps its count. *)
Fixpoint uniq_insert (v : Q) (t : list (Q * nat)) : list (Q * nat) :=
  match t with
  | [] => [(v, 1%nat)]
  | (u, c) :: t' =>
      match (v ?= u)%Q with
      | Lt => (v, 1%nat) :: t
      | Eq => (u, S c) :: t'
      | Gt => (u, c) :: uniq_insert v t'
      end
  end.

Definition uniq_table (x : list Q) : list (Q * nat) :=
  fold_right uniq_insert [] x.

(** [np.unique(x, return_counts=True)]: the sorted distinct values and how
    often each occurs. *)
Definition np_unique (x : list Q) : list Q * list nat :=
  (map fst (uniq_table x), map snd (uniq_table x)).

(** [np.searchsorted(a, v)] (side [left]) on a sorted array: the first
    index whose entry is not below [v]. *)
Fixpoint np_searchsorted (a : list Q) (v : Q) : nat :=
  match a with
  | [] => 0
  | u :: a' =>
      match (u ?= v)%Q with
      | Lt => S (np_searchsorted a' v)
      | _ => 0
      end
  end.

(** [np.max] raises on an empty array. *)
Definition np_max (a : list f64) : py f64 :=
  match a with
  | [] => Raise ValueError
  | v :: a' => Ok (fold_left f64_max a' v)
  end.

(** [dict.get] on a table keyed by float value. *)
Fixpoint lut_get (lut : list (Q * Q)) (k : Q) : option Q :=
  match lut with
  | [] => None
  | (u, p) :: lut' => if Qeq_bool u k then Some p else lut_get lut' k
  end.

(** Python's builtin [max(a, b)]: [a] unless [b] is strictly larger. *)
Definition py_max (a b : Q) : Q :=
  match (a ?= b)%Q with
  | Lt => b
  | _ => a
  end.

(** [n_i / n] for an integer count and an integer size. *)
Definition ratio (c n : nat) : Q :=
  (inject_Z (Z.of_nat c) / inject_Z (Z.of_nat n))%Q.

(** ** MultinomialMdl *)

Module MultinomialMdl.

Record t : Type := Build {
  _x : list Q;
  _n : nat;
  _n_uniq : nat;
  _uniq_vals : list Q;
  _uniq_val_cnts : list nat;
  _uniq_val_ps : list Q;
  _uniq_val_p_lut : list (Q * Q);
  _mdl : fval
}.

(** [-np.log(ps) * cnts], elementwise. *)
Definition neg_log_times (ps : list Q) (cnts : list nat) : list fval :=
  map (fun pc => fmul (fneg (np_log (Q2R (fst pc)))) (of_int (snd pc)))
      (combine ps cnts).

(** The three-way branch at the end of [__init__]. *)
Definition init_mdl (uniq_vals uniq_val_ps : list Q)
    (uniq_val_cnts : list nat) (n : nat) : fval :=
  if (1 <? length uniq_vals)%nat then
    np_sum (neg_log_times uniq_val_ps uniq_val_cnts)
  else if (length uniq_vals =? 1)%nat then
    np_log (INR n)
  else Fin 0.

Definition init (x : ndarray) : py t :=
  xs <- npfloat_1d x f8 ;;
  let n := length xs in
  let '(uniq_vals, uniq_val_cnts) := np_unique xs in
  let uniq_val_ps := map (fun c => ratio c n) uniq_val_cnts in
  let lut := combine uniq_vals uniq_val_ps in
  let mdl := init_mdl uniq_vals uniq_val_ps uniq_val_cnts n in
  Ok {| _x := xs; _n := n; _n_uniq := length uniq_vals;
        _uniq_vals := uniq_vals; _uniq_val_cnts := uniq_val_cnts;
        _uniq_val_ps := uniq_val_ps; _uniq_val_p_lut := lut;
        _mdl := mdl |}.

(** The probability borrowed from a neighbouring fitted value, for a query
    value that is not in the lookup table. *)
Definition adjacent_p (m : t) (uval : Q) : py Q :=
  let uind := Z.of_nat (np_searchsorted (_uniq_vals m) uval) in
  if (uind <=? 0)%Z then getitem (_uniq_val_ps m) 0
  else if (Z.of_nat (_n_uniq m) <=? uind)%Z then getitem (_uniq_val_ps m) (-1)
  else
    l <- getitem (_uniq_vals m) (uind - 1) ;;
    r <- getitem (_uniq_vals m) uind ;;
    let l_diff := f64_abs (f64_sub l uval) in
    let r_diff := f64_abs (f64_sub r uval) in
    match f64_compare l_diff r_diff with
    | Lt => getitem (_uniq_val_ps m) (uind - 1)
    | Gt => getitem (_uniq_val_ps m) uind
    | Eq =>
        pl <- getitem (_uniq_val_ps m) (uind - 1) ;;
        pr <- getitem (_uniq_val_ps m) uind ;;
        Ok (py_max pl pr)
    end.

(** Body of the loop over the distinct query values: the cost of one
    value. *)
Definition uval_mdl (m : t) (unif_q_val_mdl : fval)
    (use_adjescent_when_absent : bool) (uval : Q) : py fval :=
  match lut_get (_uniq_val_p_lut m) uval with
  | None =>
      if use_adjescent_when_absent then
        uval_p <- adjacent_p m uval ;;
        Ok (fneg (np_log (Q2R uval_p)))
      else Ok unif_q_val_mdl
  | Some uval_p => Ok (fneg (np_log (Q2R uval_p)))
  end.

Fixpoint encode_loop (m : t) (unif : fval) (adj : bool)
    (items : list (Q * nat)) (q_mdl : fval) : py fval :=
  match items with
  | [] => Ok q_mdl
  | (uval, ucnt) :: items' =>
      c <- uval_mdl m unif adj uval ;;
      encode_loop m unif adj items' (fadd q_mdl (fmul c (of_int ucnt)))
  end.

Definition encode (m : t) (qx : ndarray)
    (use_adjescent_when_absent : bool) : py fval :=
  qx <- npfloat_1d qx f8 ;;
  if (length qx =? 0)%nat then Ok (Fin 0)
  else
    mx <- np_max (map (fun v => f64_twice (Qabs v)) qx) ;;
    let unif_q_val_mdl := f64_log mx in
    if (_n m =? 0)%nat then Ok (fmul (of_int (length qx)) unif_q_val_mdl)
    else
      let '(q_uniq_vals, q_uniq_val_cnts) := np_unique qx in
      encode_loop m unif_q_val_mdl use_adjescent_when_absent
        (combine q_uniq_vals q_uniq_val_cnts) (Fin 0).

Definition mdl (m : t) : fval := _mdl m.
Definition x (m : t) : list Q := _x m.

End MultinomialMdl.

(** ** The kernel density provider ([scipy.stats.gaussian_kde])

    The fitted object is used through two members only: the bandwidth
    factor and the density evaluated at a [(d, n)] array of points. *)

Inductive bw_method : Type :=
| silverman
| scott
| constant (c : R).

Record gaussian_kde : Type := {
  factor : R;
  evaluate : list (list Q) -> list R
}.

(** [x.T] of a 2-D array given by rows. *)
Fixpoint transpose (rows : list (list Q)) : list (list Q) :=
  match rows with
  | [] => []
  | [r] => map (fun v => [v]) r
  | r :: rows' => map (fun vc => fst vc :: snd vc) (combine r (transpose rows'))
  end.

Definition Qsum (l : list Q) : Q := fold_right Qplus 0%Q l.

(** [x.std(ddof=ddof)]: the mean of an empty array is [nan]; a zero
    divisor gives [0/0] or [s/0]. *)
Definition np_std (x : list Q) (ddof : nat) : fval :=
  let n := length x in
  let mean := (Qsum x / inject_Z (Z.of_nat n))%Q in
  let ss := Qsum (map (fun v => ((v - mean) * (v - mean))%Q) x) in
  if (n =? 0)%nat then NaN
  else if (n <=? ddof)%nat then (if Qeq_bool ss 0 then NaN else PInf)
  else Fin (sqrt (Q2R (ss / inject_Z (Z.of_nat (n - ddof))))).

(** [a.astype(int)] of a float64 array. *)
Definition np_astype_int (a : list f64) : list Q :=
  map (fun v => inject_Z (astype_int v)) a.

(** ** GKdeMdl *)

Module GKdeMdl.

Record t : Type := Build {
  _x : list Q;
  _n : nat;
  _bw_method : bw_method;
  _mdl : fval;
  _bw_factor : option R;
  _kde : option gaussian_kde;
  _logdens : option (list fval)
}.

Section Provider.

Variable spstats_gaussian_kde : list (list Q) -> bw_method -> py gaussian_kde.

(** Called with [ret_kernel=True]; with [ret_kernel=False] the caller gets
    the first component only. *)
Definition gaussian_kde_logdens (x : ndarray) (bandwidth_method : bw_method)
  : py (list fval * gaussian_kde) :=
  x2 <- match x with
        | Arr1 v => Ok [v]
        | Arr2 rows => Ok (transpose rows)
        | Arr0 _ => Raise ValueError
        end ;;
  kde <- spstats_gaussian_kde x2 bandwidth_method ;;
  let logdens := map np_log (evaluate kde x2) in
  Ok (logdens, kde).

(** [_kde_mdl] sets three attributes and returns the cost: the result is
    the cost with [(_bw_factor, _kde, _logdens)].  The [except Exception]
    clause catches whatever the fit raises. *)
Definition _kde_mdl (x : list Q) (n : nat) (bw : bw_method)
  : py (fval * (option R * option gaussian_kde * option (list fval))) :=
  if (n =? 0)%nat then Ok (Fin 0, (None, None, None))
  else
    match gaussian_kde_logdens (Arr1 x) bw with
    | Ok (logdens, kde) =>
        let kde_mdl := fadd (fneg (np_sum logdens)) (np_log 2) in
        Ok (kde_mdl, (Some (factor kde), Some kde, Some logdens))
    | Raise _ =>
        m <- MultinomialMdl.init
               (Arr1 (np_astype_int (map (fun v => f64_mul v 100) x))) ;;
        Ok (MultinomialMdl.mdl m, (None, None, None))
    end.

Definition init (x : ndarray) (kde_bw_method : bw_method) : py t :=
  match x with
  | Arr1 v =>
      let n := length v in
      r <- _kde_mdl v n kde_bw_method ;;
      let '(kde_mdl, (bw_factor, kde, logdens)) := r in
      Ok {| _x := v; _n := n; _bw_method := kde_bw_method;
            _mdl := kde_mdl; _bw_factor := bw_factor; _kde := kde;
            _logdens := logdens |}
  | _ => Raise ValueError
  end.

End Provider.

Definition bandwidth (g : t) : option fval :=
  match _bw_factor g with
  | None => None
  | Some f => Some (fmul (Fin f) (np_std (_x g) 1))
  end.

Definition mdl (g : t) : fval := _mdl g.
Definition x (g : t) : list Q := _x g.
Definition kde (g : t) : option gaussian_kde := _kde g.

End GKdeMdl.

(** ** ZeroIGKdeMdl *)

Module ZeroIGKdeMdl.

Record t : Type := Build {
  _x : list Q;
  _n : nat;
  _x_nonzero : list Q;
  _k : nat;
  _bw_method : bw_method;
  _zi_mdl : fval;
  _kde_mdl_obj : GKdeMdl.t;
  _kde_mdl : fval;
  _mdl : fval
}.

(** [x[np.nonzero(x)]] *)
Definition nonzero (x : list Q) : list Q :=
  List.filter (fun v => negb (Qeq_bool v 0)) x.

(** [n] and [k] are Python ints with [k <= n], so [n - k] is the natural
    subtraction and [k / n] the true division. *)
Definition _compute_zero_indicator_mdl (n k : nat) : fval :=
  if (n =? 0)%nat then Fin 0
  else if ((k =? n) || (k =? 0))%nat then np_log 3
  else
    let p := ratio k n in
    fsub (fsub (np_log 3) (fmul (of_int k) (np_log (Q2R p))))
         (fmul (of_int (n - k)) (np_log (Q2R (1 - p)))).

Section Provider.

Variable spstats_gaussian_kde : list (list Q) -> bw_method -> py gaussian_kde.

Definition init (x : ndarray) (kde_bw_method : bw_method) : py t :=
  match x with
  | Arr1 v =>
      let n := length v in
      let x_nonzero := nonzero v in
      let k := length x_nonzero in
      let zi_mdl := _compute_zero_indicator_mdl n k in
      kde_mdl_obj <- GKdeMdl.init spstats_gaussian_kde (Arr1 x_nonzero)
                       kde_bw_method ;;
      let kde_mdl := GKdeMdl.mdl kde_mdl_obj in
      Ok {| _x := v; _n := n; _x_nonzero := x_nonzero; _k := k;
            _bw_method := kde_bw_method; _zi_mdl := zi_mdl;
            _kde_mdl_obj := kde_mdl_obj; _kde_mdl := kde_mdl;
            _mdl := fadd zi_mdl kde_mdl |}
  | _ => Raise ValueError
  end.

End Provider.

Definition bandwidth (z : t) : option fval :=
  GKdeMdl.bandwidth (_kde_mdl_obj z).
Definition kde (z : t) : option gaussian_kde := GKdeMdl.kde (_kde_mdl_obj z).
Definition zi_mdl (z : t) : fval := _zi_mdl z.
Definition kde_mdl (z : t) : fval := _kde_mdl z.
Definition mdl (z : t) : fval := _mdl z.
Definition x (z : t) : list Q := _x z.
Definition x_nonzero (z : t) : list Q := _x_nonzero z.

End ZeroIGKdeMdl.

(** ** Arrays as shared mutable objects

    The encoders above are given the contents of their input.  In the
    interpreter an array is a mutable object reached through references:
    the caller keeps a reference to the array it passes in, and an accessor
    hands out a reference to whatever it returns.  The store maps a
    reference to the current contents of its array. *)

Module Ref.

(** [np.array(a)], [a.copy()], [a[np.nonzero(a)]]: a new array. *)
Definition new_array (h : gmap nat (list Q)) (a : list Q)
  : nat * gmap nat (list Q) :=
  let l := fresh (dom h) in (l, <[l := a]> h).

(** [arr[i] = v], by whoever holds the reference [l]. *)
Definition setitem (h : gmap nat (list Q)) (l : nat) (i : nat) (v : Q)
  : py (gmap nat (list Q)) :=
  match h !! l with
  | Some a =>
      if (i <? length a)%nat then Ok (<[l := <[i := v]> a]> h)
      else Raise IndexError
  | None => Raise ValueError
  end.

Definition read (h : gmap nat (list Q)) (l : nat) : py (list Q) :=
  match h !! l with
  | Some a => Ok a
  | None => Raise ValueError
  end.

(** A [MultinomialMdl] instance: [_x] refers to the array that
    [npfloat_1d] built; the other attributes are private values. *)
Record multinomial : Type := {
  m_x : nat;
  m_fit : MultinomialMdl.t
}.

(** [MultinomialMdl(x)]: [self._x = npfloat_1d(x)] is a new array. *)
Definition multinomial_init (h : gmap nat (list Q)) (x : nat)
  : py (multinomial * gmap nat (list Q)) :=
  a <- read h x ;;
  m <- MultinomialMdl.init (Arr1 a) ;;
  let '(l, h') := new_array h (MultinomialMdl._x m) in
  Ok ({| m_x := l; m_fit := m |}, h').

(** [Mdl.x]: [self._x.copy()]. *)
Definition multinomial_x (h : gmap nat (list Q)) (o : multinomial)
  : py (nat * gmap nat (list Q)) :=
  a <- read h (m_x o) ;;
  Ok (new_array h a).

(** [encode(qx)]: [npfloat_1d(qx)] is a new array, nothing else is
    written. *)
Definition multinomial_encode (h : gmap nat (list Q)) (o : multinomial)
    (qx : nat) (use_adjescent_when_absent : bool)
  : py (fval * gmap nat (list Q)) :=
  q <- read h qx ;;
  c <- MultinomialMdl.encode (m_fit o) (Arr1 q) use_adjescent_when_absent ;;
  Ok (c, snd (new_array h q)).

(** A [GKdeMdl] instance: [self._x = x] keeps the caller's reference;
    [g_fit] holds what the constructor computed from the contents the array
    had then. *)
Record gkde : Type := {
  g_x : nat;
  g_fit : GKdeMdl.t
}.

Section Provider.

Variable spstats_gaussian_kde : list (list Q) -> bw_method -> py gaussian_kde.

Definition gkde_init (h : gmap nat (list Q)) (x : nat)
    (kde_bw_method : bw_method) : py (gkde * gmap nat (list Q)) :=
  a <- read h x ;;
  g <- GKdeMdl.init spstats_gaussian_kde (Arr1 a) kde_bw_method ;;
  Ok ({| g_x := x; g_fit := g |}, h).

(** A [ZeroIGKdeMdl] instance: [_x] is the caller's reference,
    [_x_nonzero] a new array, which the inner [GKdeMdl] refers to. *)
Record zeroigkde : Type := {
  z_x : nat;
  z_x_nonzero : nat;
  z_kde_mdl_obj : gkde;
  z_fit : ZeroIGKdeMdl.t
}.

Definition zeroigkde_init (h : gmap nat (list Q)) (x : nat)
    (kde_bw_method : bw_method) : py (zeroigkde * gmap nat (list Q)) :=
  a <- read h x ;;
  z <- ZeroIGKdeMdl.init spstats_gaussian_kde (Arr1 a) kde_bw_method ;;
  let '(l, h') := new_array h (ZeroIGKdeMdl.nonzero a) in
  r <- gkde_init h' l kde_bw_method ;;
  let '(g, h'') := r in
  Ok ({| z_x := x; z_x_nonzero := l; z_kde_mdl_obj := g; z_fit := z |}, h'').

End Provider.

(** [GKdeMdl.x]: [self._x.copy()]. *)
Definition gkde_x (h : gmap nat (list Q)) (o : gkde)
  : py (nat * gmap nat (list Q)) :=
  a <- read h (g_x o) ;;
  Ok (new_array h a).

(** [GKdeMdl.bandwidth] reads [self._x] when it is asked. *)
Definition gkde_bandwidth (h : gmap nat (list Q)) (o : gkde)
  : py (option fval) :=
  match GKdeMdl._bw_factor (g_fit o) with
  | None => Ok None
  | Some f =>
      a <- read h (g_x o) ;;
      Ok (Some (fmul (Fin f) (np_std a 1)))
  end.

Definition gkde_mdl (o : gkde) : fval := GKdeMdl._mdl (g_fit o).

(** [ZeroIGKdeMdl.x] and [ZeroIGKdeMdl.x_nonzero]. *)
Definition zeroigkde_x (h : gmap nat (list Q)) (o : zeroigkde)
  : py (nat * gmap nat (list Q)) :=
  a <- read h (z_x o) ;;
  Ok (new_array h a).

Definition zeroigkde_x_nonzero (h : gmap nat (list Q)) (o : zeroigkde)
  : py (nat * gmap nat (list Q)) :=
  a <- read h (z_x_nonzero o) ;;
  Ok (new_array h a).

End Ref.

(** * Properties *)

(** ** Reference notions the statements are phrased with *)

(** How often [v] occurs in [x]. *)
Definition countQ (v : Q) (x : list Q) : nat :=
  length (List.filter (Qeq_bool v) x).

(** [v] occurs in [x]. *)
Definition InQ (v : Q) (x : list Q) : Prop := Exists (Qeq v) x.

Definition Rsum (l : list R) : R := fold_right Rplus 0%R l.

Definition nat_sum (l : list nat) : nat := fold_right Nat.add 0%nat l.

(** Count stored for [v] in a table of [np.unique], [0] when absent. *)
Fixpoint tlookup (t : list (Q * nat)) (v : Q) : nat :=
  match t with
  | [] => 0
  | (u, c) :: t' => if Qeq_bool u v then c else tlookup t' v
  end.

(** The values of a table of [np.unique]. *)
Definition keys (t : list (Q * nat)) : list Q := map fst t.

(** The cost [init] stores, as a function of the table of [np.unique]. *)
Definition table_mdl (t : list (Q * nat)) (n : nat) : fval :=
  MultinomialMdl.init_mdl (keys t) (map (fun c => ratio c n) (map snd t))
    (map snd t) n.

(** [max(|q|)], the largest magnitude in a query. *)
Definition max_abs (q : list Q) : Q :=
  fold_right (fun v acc => Qmax (Qabs v) acc) 0%Q q.

(** The least entry of a non-empty list of probabilities. *)
Definition Qlist_min (l : list Q) : Q :=
  match l with
  | [] => 0%Q
  | p :: l' => fold_left Qmin l' p
  end.

(** [c_v / n], the empirical probability of [v] in the sample [x]. *)
Definition prob (x : list Q) (v : Q) : Q := ratio (countQ v x) (length x).

(** The object [MultinomialMdl.init] builds from a 1-D sample; that it
    does is [MultinomialMdl_init_Arr1]. *)
Definition fitted (x : list Q) : MultinomialMdl.t :=
  MultinomialMdl.Build x (length x) (length (keys (uniq_table x)))
    (keys (uniq_table x)) (map snd (uniq_table x))
    (map (fun c => ratio c (length x)) (map snd (uniq_table x)))
    (combine (keys (uniq_table x))
       (map (fun c => ratio c (length x)) (map snd (uniq_table x))))
    (table_mdl (uniq_table x) (length x)).

(** The uniform fallback [log(max|q| * 2)] of a query. *)
Definition uniform_fallback (q : list Q) : fval :=
  np_log (Q2R (max_abs q * 2)).

(** The uniform fallback as float64 gives it: [max|q| * 2] is [inf] from
    [max|q| = 2 ^ 1023] on, and [log(inf)] is [inf]. *)
Definition float_fallback (q : list Q) : fval :=
  if Qle_bool (inject_Z (2 ^ 1023)) (max_abs q) then PInf
  else uniform_fallback q.

(** Cost of one query value without the adjacency option: [-log(c_v/n)]
    when the value occurs in the fitted sample, the uniform fallback
    otherwise. *)
Definition value_cost (x q : list Q) (v : Q) : fval :=
  if (countQ v x =? 0)%nat then float_fallback q
  else Fin (- ln (INR (countQ v x) / INR (length x))).

(** Order of float64 values, an infinity beyond every finite value. *)
Definition f64_lt (a b : f64) : Prop :=
  match a, b with
  | F64 x, F64 y => (x < y)%Q
  | F64inf true, F64inf true => False
  | F64inf true, _ => True
  | F64 _, F64inf false => True
  | _, _ => False
  end.

(** The distance [|u - v|] of two float64 values as float64 computes
    it. *)
Definition float_dist (u v : Q) : f64 := f64_abs (f64_sub u v).





(** What the fallback of [GKdeMdl] hands to [MultinomialMdl]:
    [(x * 100).astype(int)]. *)
Definition scaled_ints (x : list Q) : list Q :=
  np_astype_int (map (fun v => f64_mul v 100) x).

(** The mean and the standard deviation with [ddof=1] of a sample, as
    real numbers. *)
Definition sample_mean (x : list Q) : R :=
  (Rsum (map Q2R x) / INR (length x))%R.

Definition sample_std (x : list Q) : R :=
  sqrt (Rsum (map (fun v => ((Q2R v - sample_mean x) * (Q2R v - sample_mean x))%R) x)
        / (INR (length x) - 1)).

(** The float64 values nearest to 0.35 and to 0.34. *)
Definition f64_0_35 : Q := 3152519739159347 # 9007199254740992.
Definition f64_0_34 : Q := 6124895493223875 # 18014398509481984.

(** The probability a query value is charged with under the adjacency
    option: its own when it occurs in the fitted sample, the one the
    adjacency rule picks otherwise. *)
Definition charged_prob (x : list Q) (v : Q) : Q :=
  if (countQ v x =? 0)%nat then
    match MultinomialMdl.adjacent_p (fitted x) v with
    | Ok p => p
    | Raise _ => 0%Q
    end
  else prob x v.

(** A stand-in density provider to instantiate the statements with: it
    refuses a sample without two distinct values, as the real fit does on
    zero variance, and otherwise answers a flat density [1/2] with factor
    [1]. *)
Definition constant_sample (pts : list (list Q)) : bool :=
  match pts with
  | (v :: vs) :: _ => forallb (Qeq_bool v) vs
  | _ => true
  end.

Definition flat_kde (pts : list (list Q)) (bw : bw_method) : py gaussian_kde :=
  if constant_sample pts then Raise LinAlgError
  else Ok {| factor := 1;
             evaluate := fun ps => map (fun _ => (1 / 2)%R) (concat ps) |}.


(** A provider answering the density [4] everywhere, as a narrow bandwidth
    does on points that lie close together. *)
Definition peaked_kde (pts : list (list Q)) (bw : bw_method) : py gaussian_kde :=
  Ok {| factor := 1;
        evaluate := fun ps => map (fun _ => 4%R) (concat ps) |}.

(** ** Arithmetic of [fval] *)

Lemma np_log_pos (r : R) : (0 < r)%R -> np_log r = Fin (ln r).
Proof.
  intros H. unfold np_log. destruct (Rlt_dec 0 r); [reflexivity | contradiction].
Qed.

Lemma np_log_zero : np_log 0 = NInf.
Proof.
  unfold np_log. destruct (Rlt_dec 0 0) as [H | _]; [lra |].
  destruct (Req_dec_T 0 0) as [_ | H]; [reflexivity | lra].
Qed.

Lemma np_sum_Fin (l : list R) : np_sum (map Fin l) = Fin (Rsum l).
Proof.
  induction l as [| r l IH]; [reflexivity |].
  change (np_sum (map Fin (r :: l))) with (fadd (Fin r) (np_sum (map Fin l))).
  rewrite IH. reflexivity.
Qed.

Lemma Rsum_nonneg (l : list R) : Forall (fun r => (0 <= r)%R) l -> (0 <= Rsum l)%R.
Proof.
  induction 1 as [| r l Hr _ IH]; simpl; lra.
Qed.

Lemma ln_le_0 (p : R) : (0 < p <= 1)%R -> (ln p <= 0)%R.
Proof.
  intros [Hp [Hlt | ->]]; [| rewrite ln_1; lra].
  left. rewrite <- ln_1. apply ln_increasing; assumption.
Qed.

Lemma ln_ge_0 (p : R) : (1 <= p)%R -> (0 <= ln p)%R.
Proof.
  intros [Hlt | <-]; [| rewrite ln_1; lra].
  left. rewrite <- ln_1. apply ln_increasing; lra.
Qed.

(** ** [Q] comparisons *)

Lemma Qeq_bool_sym (a b : Q) : Qeq_bool a b = Qeq_bool b a.
Proof.
  destruct (Qeq_bool a b) eqn:E; symmetry.
  - apply Qeq_bool_iff. symmetry. apply Qeq_bool_iff; exact E.
  - apply not_true_is_false. intros H. apply Qeq_bool_iff in H.
    symmetry in H. apply Qeq_bool_iff in H. congruence.
Qed.

Lemma Qeq_bool_trans_l (a b c : Q) : (a == b)%Q -> Qeq_bool a c = Qeq_bool b c.
Proof.
  intros H. destruct (Qeq_bool b c) eqn:E.
  - apply Qeq_bool_iff. apply Qeq_bool_iff in E. rewrite H. exact E.
  - apply not_true_is_false. intros H'. apply Qeq_bool_iff in H'.
    rewrite H in H'. apply Qeq_bool_iff in H'. congruence.
Qed.

Lemma Qeq_bool_false_lt (a b : Q) : (a < b)%Q -> Qeq_bool a b = false.
Proof.
  intros H. apply not_true_is_false. intros E. apply Qeq_bool_iff in E.
  rewrite E in H. exact (Qlt_irrefl _ H).
Qed.

Lemma Qeq_bool_false_gt (a b : Q) : (b < a)%Q -> Qeq_bool a b = false.
Proof.
  intros H. rewrite Qeq_bool_sym. apply Qeq_bool_false_lt; exact H.
Qed.

Lemma Qcompare_cases (a b : Q) :
  ((a ?= b)%Q = Lt /\ (a < b)%Q) \/ ((a ?= b)%Q = Eq /\ (a == b)%Q) \/
  ((a ?= b)%Q = Gt /\ (b < a)%Q).
Proof.
  destruct (a ?= b)%Q eqn:E.
  - right; left. split; [reflexivity | apply Qeq_alt; exact E].
  - left. split; [reflexivity | apply Qlt_alt; exact E].
  - right; right. split; [reflexivity | apply Qgt_alt in E; exact E].
Qed.

(** ** [np.unique] *)

Lemma tlookup_below (t : list (Q * nat)) (v : Q) :
  Forall (Qlt v) (keys t) -> tlookup t v = 0%nat.
Proof.
  induction t as [| [u c] t IH]; simpl; intros H; [reflexivity |].
  inversion H as [| ? ? Hu Ht]; subst.
  rewrite (Qeq_bool_false_gt u v Hu). apply IH; exact Ht.
Qed.

Lemma Forall_Qlt_weaken (a b : Q) (l : list Q) :
  (a < b)%Q -> Forall (Qlt b) l -> Forall (Qlt a) l.
Proof.
  intros Hab H. induction H as [| c l Hc _ IH]; constructor; [| exact IH].
  eapply Qlt_trans; eassumption.
Qed.

Lemma uniq_insert_keys_above (w u : Q) (t : list (Q * nat)) :
  (u < w)%Q -> Forall (Qlt u) (keys t) -> Forall (Qlt u) (keys (uniq_insert w t)).
Proof.
  intros Huw. induction t as [| [k c] t IH]; simpl; intros H.
  - constructor; [exact Huw | constructor].
  - inversion H as [| ? ? Hk Ht]; subst.
    destruct (Qcompare_cases w k) as [[-> _] | [[-> _] | [-> _]]]; simpl.
    + constructor; [exact Huw |]. constructor; assumption.
    + constructor; assumption.
    + constructor; [exact Hk | apply IH; exact Ht].
Qed.

Lemma uniq_insert_sorted (w : Q) (t : list (Q * nat)) :
  StronglySorted Qlt (keys t) -> StronglySorted Qlt (keys (uniq_insert w t)).
Proof.
  induction t as [| [k c] t IH]; simpl; intros H.
  - constructor; constructor.
  - inversion H as [| ? ? Hs Hall]; subst.
    destruct (Qcompare_cases w k) as [[-> Hlt] | [[-> Heq] | [-> Hgt]]]; simpl.
    + constructor; [exact H |].
      constructor; [exact Hlt | eapply Forall_Qlt_weaken; eassumption].
    + constructor; assumption.
    + constructor; [apply IH; exact Hs |].
      apply uniq_insert_keys_above; assumption.
Qed.

Lemma uniq_table_sorted (x : list Q) : StronglySorted Qlt (keys (uniq_table x)).
Proof.
  induction x as [| v x IH]; simpl; [constructor |].
  apply uniq_insert_sorted; exact IH.
Qed.

Lemma tlookup_insert (w v : Q) (t : list (Q * nat)) :
  StronglySorted Qlt (keys t) ->
  tlookup (uniq_insert w t) v =
  if Qeq_bool w v then S (tlookup t v) else tlookup t v.
Proof.
  induction t as [| [k c] t IH]; simpl; intros H.
  - destruct (Qeq_bool w v); reflexivity.
  - inversion H as [| ? ? Hs Hall]; subst.
    destruct (Qcompare_cases w k) as [[-> Hlt] | [[-> Heq] | [-> Hgt]]]; simpl.
    + destruct (Qeq_bool w v) eqn:E; [| reflexivity].
      apply Qeq_bool_iff in E.
      assert (Hvk : (v < k)%Q) by (rewrite <- E; exact Hlt).
      rewrite (Qeq_bool_false_gt k v Hvk).
      rewrite tlookup_below; [reflexivity |].
      eapply Forall_Qlt_weaken; eassumption.
    + rewrite (Qeq_bool_trans_l w k v Heq).
      destruct (Qeq_bool k v); reflexivity.
    + destruct (Qeq_bool k v) eqn:E.
      * apply Qeq_bool_iff in E.
        assert (Hvw : (v < w)%Q) by (rewrite <- E; exact Hgt).
        rewrite (Qeq_bool_false_gt w v Hvw). reflexivity.
      * apply IH; exact Hs.
Qed.

Lemma tlookup_uniq_table (x : list Q) (v : Q) :
  tlookup (uniq_table x) v = countQ v x.
Proof.
  induction x as [| w x IH]; simpl; [reflexivity |].
  rewrite tlookup_insert by apply uniq_table_sorted.
  rewrite IH. unfold countQ. simpl. rewrite (Qeq_bool_sym v w).
  destruct (Qeq_bool w v); reflexivity.
Qed.

Lemma uniq_insert_counts_pos (w : Q) (t : list (Q * nat)) :
  Forall (fun uc => (0 < snd uc)%nat) t ->
  Forall (fun uc => (0 < snd uc)%nat) (uniq_insert w t).
Proof.
  induction t as [| [k c] t IH]; simpl; intros H.
  - constructor; [simpl; lia | constructor].
  - inversion H as [| ? ? Hc Ht]; subst.
    destruct (w ?= k)%Q.
    + constructor; [simpl; lia | exact Ht].
    + constructor; [simpl; lia | exact H].
    + constructor; [exact Hc | apply IH; exact Ht].
Qed.

Lemma uniq_table_counts_pos (x : list Q) :
  Forall (fun uc => (0 < snd uc)%nat) (uniq_table x).
Proof.
  induction x as [| v x IH]; simpl; [constructor |].
  apply uniq_insert_counts_pos; exact IH.
Qed.

Lemma uniq_insert_total (w : Q) (t : list (Q * nat)) :
  nat_sum (map snd (uniq_insert w t)) = S (nat_sum (map snd t)).
Proof.
  induction t as [| [k c] t IH]; simpl; [reflexivity |].
  destruct (w ?= k)%Q; simpl; [reflexivity | reflexivity |].
  rewrite IH. lia.
Qed.

Lemma uniq_table_total (x : list Q) :
  nat_sum (map snd (uniq_table x)) = length x.
Proof.
  induction x as [| v x IH]; simpl; [reflexivity |].
  rewrite uniq_insert_total, IH. reflexivity.
Qed.

Lemma tlookup_In (t : list (Q * nat)) (u : Q) (c : nat) :
  StronglySorted Qlt (keys t) -> In (u, c) t -> tlookup t u = c.
Proof.
  induction t as [| [k d] t IH]; simpl; intros Hs Hin; [contradiction |].
  inversion Hs as [| ? ? Hs' Hall]; subst.
  destruct Hin as [E | Hin].
  - inversion E; subst. rewrite (proj2 (Qeq_bool_iff u u)) by reflexivity.
    reflexivity.
  - assert (Hku : (k < u)%Q).
    { rewrite List.Forall_forall in Hall. apply Hall.
      change u with (fst (u, c)). apply in_map; exact Hin. }
    rewrite (Qeq_bool_false_lt k u Hku). apply IH; assumption.
Qed.

Lemma tlookup_pos_iff (t : list (Q * nat)) (v : Q) :
  Forall (fun uc => (0 < snd uc)%nat) t ->
  (0 < tlookup t v)%nat <-> InQ v (keys t).
Proof.
  unfold InQ. induction t as [| [k c] t IH]; simpl; intros H.
  - split; [lia | intros E; inversion E].
  - inversion H as [| ? ? Hc Ht]; subst. simpl in Hc.
    destruct (Qeq_bool k v) eqn:E.
    + split; [| intros _; exact Hc].
      intros _. constructor. symmetry. apply Qeq_bool_iff; exact E.
    + rewrite (IH Ht). split; intros Hex.
      * apply Exists_cons_tl; exact Hex.
      * inversion Hex as [? ? Hv | ? ? Hv]; subst; [| exact Hv].
        symmetry in Hv. apply Qeq_bool_iff in Hv. congruence.
Qed.

Lemma countQ_pos_iff (x : list Q) (v : Q) :
  (0 < countQ v x)%nat <-> InQ v x.
Proof.
  unfold countQ, InQ. induction x as [| w x IH]; simpl.
  - split; [lia | intros E; inversion E].
  - destruct (Qeq_bool v w) eqn:E; simpl.
    + split; [| lia]. intros _. constructor. apply Qeq_bool_iff; exact E.
    + rewrite IH. split; intros Hex.
      * apply Exists_cons_tl; exact Hex.
      * inversion Hex as [? ? Hv | ? ? Hv]; subst; [| exact Hv].
        apply Qeq_bool_iff in Hv. congruence.
Qed.

Lemma countQ_le_length (x : list Q) (v : Q) : (countQ v x <= length x)%nat.
Proof.
  unfold countQ. induction x as [| w x IH]; simpl; [lia |].
  destruct (Qeq_bool v w); simpl; lia.
Qed.

Lemma uniq_table_keys_iff (x : list Q) (v : Q) :
  InQ v (keys (uniq_table x)) <-> InQ v x.
Proof.
  rewrite <- tlookup_pos_iff by apply uniq_table_counts_pos.
  rewrite tlookup_uniq_table. apply countQ_pos_iff.
Qed.

Lemma uniq_table_count (x : list Q) (u : Q) (c : nat) :
  In (u, c) (uniq_table x) -> c = countQ u x.
Proof.
  intros Hin. rewrite <- tlookup_uniq_table. symmetry.
  apply tlookup_In; [apply uniq_table_sorted | exact Hin].
Qed.

(** ** Probabilities *)

Lemma ratio_add (a b n : nat) : (ratio (a + b) n == ratio a n + ratio b n)%Q.
Proof.
  unfold ratio. rewrite Nat2Z.inj_add, inject_Z_plus. unfold Qdiv. ring.
Qed.

Lemma ratio_self (n : nat) : (0 < n)%nat -> (ratio n n == 1)%Q.
Proof.
  intros Hn. unfold ratio. apply Qmult_inv_r.
  intros E. unfold Qeq in E. simpl in E. lia.
Qed.

Lemma ratio_pos (c n : nat) : (0 < c)%nat -> (0 < n)%nat -> (0 < ratio c n)%Q.
Proof.
  intros Hc Hn. unfold ratio. apply Qlt_shift_div_l.
  - unfold Qlt; simpl; lia.
  - rewrite Qmult_0_l. unfold Qlt; simpl; lia.
Qed.

Lemma ratio_le_1 (c n : nat) : (c <= n)%nat -> (0 < n)%nat -> (ratio c n <= 1)%Q.
Proof.
  intros Hc Hn. unfold ratio. apply Qle_shift_div_r.
  - unfold Qlt; simpl; lia.
  - rewrite Qmult_1_l. unfold Qle; simpl; lia.
Qed.

Lemma Q2R_pos (q : Q) : (0 < q)%Q -> (0 < Q2R q)%R.
Proof.
  intros H. apply Qlt_Rlt in H. rewrite RMicromega.Q2R_0 in H. exact H.
Qed.

Lemma Q2R_le_1 (q : Q) : (q <= 1)%Q -> (Q2R q <= 1)%R.
Proof.
  intros H. apply Qle_Rle in H. rewrite RMicromega.Q2R_1 in H. exact H.
Qed.

Lemma Qsum_ratio (cnts : list nat) (n : nat) :
  (Qsum (map (fun c => ratio c n) cnts) == ratio (nat_sum cnts) n)%Q.
Proof.
  induction cnts as [| c cnts IH]; simpl.
  - unfold ratio, Qdiv. simpl. ring.
  - rewrite ratio_add, IH. reflexivity.
Qed.

(** ** The fitted multinomial model *)

Lemma map_cast_f8 (x : list Q) : map (cast f8) x = x.
Proof.
  induction x as [| v x IH]; simpl; [reflexivity | rewrite IH; reflexivity].
Qed.

Lemma npfloat_1d_Arr1 (x : list Q) : npfloat_1d (Arr1 x) f8 = Ok x.
Proof. unfold npfloat_1d. simpl. rewrite map_cast_f8. reflexivity. Qed.

Lemma MultinomialMdl_init_Arr1 (x : list Q) :
  MultinomialMdl.init (Arr1 x) = Ok (fitted x).
Proof.
  unfold MultinomialMdl.init. rewrite npfloat_1d_Arr1. reflexivity.
Qed.

Lemma neg_log_times_table (t : list (Q * nat)) (n : nat) :
  (0 < n)%nat -> Forall (fun uc => (0 < snd uc)%nat) t ->
  MultinomialMdl.neg_log_times
    (map (fun c => ratio c n) (map snd t)) (map snd t) =
  map Fin (map (fun uc => (- ln (Q2R (ratio (snd uc) n)) * INR (snd uc))%R) t).
Proof.
  intros Hn. unfold MultinomialMdl.neg_log_times.
  induction 1 as [| [u c] t Hc _ IH]; simpl; [reflexivity |].
  simpl in Hc. rewrite IH.
  rewrite np_log_pos by (apply Q2R_pos, ratio_pos; assumption).
  reflexivity.
Qed.

Lemma map_keys_count {B} (x : list Q) (f : Q -> nat -> B) :
  map (fun uc => f (fst uc) (snd uc)) (uniq_table x) =
  map (fun u => f u (countQ u x)) (keys (uniq_table x)).
Proof.
  unfold keys. rewrite map_map. apply map_ext_in.
  intros [u c] Hin. simpl. rewrite (uniq_table_count x u c Hin). reflexivity.
Qed.

Lemma keys_nonempty (x : list Q) : x <> [] -> keys (uniq_table x) <> [].
Proof.
  intros Hx E. destruct x as [| v x]; [congruence |].
  assert (H : InQ v (keys (uniq_table (v :: x)))).
  { apply uniq_table_keys_iff. constructor. reflexivity. }
  rewrite E in H. inversion H.
Qed.

Lemma length_pos_of_nonempty {A} (x : list A) : x <> [] -> (0 < length x)%nat.
Proof. destruct x; [congruence | simpl; lia]. Qed.

Lemma table_mdl_many (x : list Q) :
  (1 < length (keys (uniq_table x)))%nat ->
  table_mdl (uniq_table x) (length x) =
  Fin (Rsum (map (fun u => (- ln (Q2R (ratio (countQ u x) (length x)))
                            * INR (countQ u x))%R)
                 (keys (uniq_table x)))).
Proof.
  intros H. unfold table_mdl, MultinomialMdl.init_mdl.
  rewrite (proj2 (Nat.ltb_lt _ _) H).
  assert (Hn : (0 < length x)%nat).
  { apply length_pos_of_nonempty. intros ->. simpl in H. lia. }
  rewrite neg_log_times_table by (exact Hn || apply uniq_table_counts_pos).
  rewrite np_sum_Fin.
  rewrite <- (map_keys_count x
    (fun _ c => (- ln (Q2R (ratio c (length x))) * INR c)%R)).
  reflexivity.
Qed.

Lemma table_mdl_one (x : list Q) :
  length (keys (uniq_table x)) = 1%nat ->
  table_mdl (uniq_table x) (length x) = Fin (ln (INR (length x))).
Proof.
  intros H. unfold table_mdl, MultinomialMdl.init_mdl. rewrite H. simpl.
  apply np_log_pos. apply lt_0_INR. apply length_pos_of_nonempty.
  intros ->. simpl in H. lia.
Qed.

Lemma Q2R_ratio (c n : nat) : (0 < n)%nat -> Q2R (ratio c n) = (INR c / INR n)%R.
Proof.
  intros Hn. unfold ratio. rewrite Q2R_div.
  - unfold Q2R. simpl. rewrite !INR_IZR_INZ. field.
    apply not_0_IZR. lia.
  - intros E. unfold Qeq in E. simpl in E. lia.
Qed.

(** C8: for a non-empty sample the fitted probabilities are the counts
    divided by [n], they sum to one, the counts sum to [n], and every
    probability is strictly positive, so that [-log p_i] is a finite real
    and the self-cost is finite. *)
Theorem multinomial_probabilities (x : list Q) :
  x <> [] ->
  exists m, MultinomialMdl.init (Arr1 x) = Ok m /\
    MultinomialMdl._uniq_val_ps m =
      map (fun u => ratio (countQ u x) (length x)) (MultinomialMdl._uniq_vals m) /\
    MultinomialMdl._uniq_val_cnts m =
      map (fun u => countQ u x) (MultinomialMdl._uniq_vals m) /\
    (Qsum (MultinomialMdl._uniq_val_ps m) == 1)%Q /\
    nat_sum (MultinomialMdl._uniq_val_cnts m) = length x /\
    Forall (fun p => (0 < p)%Q /\
                     fneg (np_log (Q2R p)) = Fin (- ln (Q2R p)))
           (MultinomialMdl._uniq_val_ps m) /\
    is_finite (MultinomialMdl.mdl m).
Proof.
  intros Hx. pose proof (length_pos_of_nonempty x Hx) as Hn.
  eexists. split; [apply MultinomialMdl_init_Arr1 |]. simpl.
  assert (Hcnt : map snd (uniq_table x) =
                 map (fun u => countQ u x) (keys (uniq_table x))).
  { unfold keys. rewrite map_map. apply map_ext_in.
    intros [u c] Hin. simpl. apply uniq_table_count; exact Hin. }
  repeat split.
  - rewrite Hcnt, map_map. reflexivity.
  - exact Hcnt.
  - rewrite Qsum_ratio, uniq_table_total. apply ratio_self; exact Hn.
  - apply uniq_table_total.
  - rewrite List.Forall_forall. intros p Hp.
    apply in_map_iff in Hp. destruct Hp as (c & <- & Hc).
    apply in_map_iff in Hc. destruct Hc as ([u c'] & <- & Hin). simpl.
    pose proof (uniq_table_counts_pos x) as Hpos.
    rewrite List.Forall_forall in Hpos. specialize (Hpos _ Hin). simpl in Hpos.
    split; [apply ratio_pos; assumption |].
    rewrite np_log_pos by (apply Q2R_pos, ratio_pos; assumption).
    reflexivity.
  - unfold MultinomialMdl.mdl. simpl.
    destruct (Nat.lt_trichotomy (length (keys (uniq_table x))) 1)
      as [Hlt | [Heq | Hgt]].
    + exfalso. apply (keys_nonempty x Hx).
      destruct (keys (uniq_table x)); [reflexivity | simpl in Hlt; lia].
    + rewrite table_mdl_one by exact Heq. exact I.
    + rewrite table_mdl_many by exact Hgt. exact I.
Qed.

Lemma multinomial_probabilities_witness :
  exists m, MultinomialMdl.init (Arr1 [1; 1; 2]%Q) = Ok m /\
    (Qsum (MultinomialMdl._uniq_val_ps m) == 1)%Q.
Proof.
  destruct (multinomial_probabilities [1; 1; 2]%Q) as (m & Hm & _ & _ & Hs & _).
  - discriminate.
  - exists m. split; [exact Hm | exact Hs].
Defined.

Lemma uniq_table_11222 :
  uniq_table [1; 1; 2; 2; 2]%Q = [(1%Q, 2%nat); (2%Q, 3%nat)].
Proof. reflexivity. Qed.

(** C1: the self-cost of [MultinomialMdl] is [0] for an empty sample,
    [log n] when the sample has exactly one distinct value, and the sum
    over the distinct values of [-log(c_i/n) * c_i] when it has more than
    one, [c_i] counting the occurrences of the value; the distinct values
    are the sample's values in increasing order.  For [[1,1,2,2,2]] this is
    [-(2 log 0.4 + 3 log 0.6)]. *)
Theorem multinomial_mdl_cases :
  (forall x : list Q,
     exists m, MultinomialMdl.init (Arr1 x) = Ok m /\
       let U := MultinomialMdl._uniq_vals m in
       let n := length x in
       StronglySorted Qlt U /\
       (forall v, InQ v U <-> InQ v x) /\
       (n = 0%nat -> MultinomialMdl.mdl m = Fin 0) /\
       (length U = 1%nat -> MultinomialMdl.mdl m = Fin (ln (INR n))) /\
       ((1 < length U)%nat ->
        MultinomialMdl.mdl m =
        Fin (Rsum (map (fun u => (- ln (INR (countQ u x) / INR n)
                                  * INR (countQ u x))%R) U))))
  /\
  (exists m, MultinomialMdl.init (Arr1 [1; 1; 2; 2; 2]%Q) = Ok m /\
     MultinomialMdl.mdl m = Fin (- (2 * ln (4 / 10) + 3 * ln (6 / 10)))).
Proof.
  split.
  - intros x. eexists. split; [apply MultinomialMdl_init_Arr1 |].
    unfold MultinomialMdl.mdl. simpl.
    split; [apply uniq_table_sorted |].
    split; [intros v; apply uniq_table_keys_iff |].
    split; [| split].
    + intros Hn. destruct x; [reflexivity | discriminate].
    + intros H1. apply table_mdl_one; exact H1.
    + intros Hm. rewrite table_mdl_many by exact Hm.
      f_equal. f_equal. apply map_ext. intros u.
      rewrite Q2R_ratio; [reflexivity |].
      apply length_pos_of_nonempty. intros ->. simpl in Hm. lia.
  - eexists. split; [apply MultinomialMdl_init_Arr1 |].
    change (table_mdl (uniq_table [1; 1; 2; 2; 2]%Q)
                      (length [1; 1; 2; 2; 2]%Q) =
            Fin (- (2 * ln (4 / 10) + 3 * ln (6 / 10)))).
    rewrite table_mdl_many by (rewrite uniq_table_11222; simpl; lia).
    rewrite uniq_table_11222. f_equal.
    change (Rsum _) with
      (- ln (Q2R (ratio 2 5)) * INR 2 + (- ln (Q2R (ratio 3 5)) * INR 3 + 0))%R.
    rewrite !Q2R_ratio by lia.
    replace (INR 2 / INR 5)%R with (4 / 10)%R by (simpl; field).
    replace (INR 3 / INR 5)%R with (6 / 10)%R by (simpl; field).
    simpl INR. lra.
Qed.

Lemma multinomial_mdl_cases_witness :
  exists m, MultinomialMdl.init (Arr1 [5; 5; 5]%Q) = Ok m /\
    MultinomialMdl.mdl m = Fin (ln (INR 3)).
Proof.
  destruct (proj1 multinomial_mdl_cases [5; 5; 5]%Q)
    as (m & Hm & _ & _ & _ & H1 & _).
  exists m. split; [exact Hm |].
  apply H1.
  rewrite MultinomialMdl_init_Arr1 in Hm. inversion Hm. reflexivity.
Defined.

(** ** GKdeMdl and ZeroIGKdeMdl *)

Lemma nonzero_length (x : list Q) :
  length (ZeroIGKdeMdl.nonzero x) = (length x - countQ 0 x)%nat.
Proof.
  unfold ZeroIGKdeMdl.nonzero, countQ.
  induction x as [| v x IH]; simpl; [reflexivity |].
  rewrite (Qeq_bool_sym 0 v). destruct (Qeq_bool v 0); simpl; [exact IH |].
  rewrite IH.
  pose proof (countQ_le_length x 0) as Hle. unfold countQ in Hle. lia.
Qed.

Lemma np_log_2 : np_log 2 = Fin (ln 2).
Proof. apply np_log_pos; lra. Qed.

Lemma np_log_3 : np_log 3 = Fin (ln 3).
Proof. apply np_log_pos; lra. Qed.

Lemma zero_indicator_mixed (n k : nat) :
  (0 < k < n)%nat ->
  ZeroIGKdeMdl._compute_zero_indicator_mdl n k =
  Fin (ln 3 - INR k * ln (INR k / INR n)
       - (INR n - INR k) * ln (1 - INR k / INR n)).
Proof.
  intros [Hk Hkn]. unfold ZeroIGKdeMdl._compute_zero_indicator_mdl.
  replace (n =? 0)%nat with false by (symmetry; apply Nat.eqb_neq; lia).
  replace (k =? n)%nat with false by (symmetry; apply Nat.eqb_neq; lia).
  replace (k =? 0)%nat with false by (symmetry; apply Nat.eqb_neq; lia).
  simpl orb. cbv iota.
  assert (Hn : (0 < n)%nat) by lia.
  assert (Hp : (0 < INR k / INR n < 1)%R).
  { assert (0 < INR k)%R by (apply lt_0_INR; exact Hk).
    assert (INR k < INR n)%R by (apply lt_INR; exact Hkn).
    split.
    - apply Rdiv_lt_0_compat; lra.
    - apply Rmult_lt_reg_r with (INR n); [lra |].
      unfold Rdiv. rewrite Rmult_assoc, Rinv_l by lra. lra. }
  assert (Hq : Q2R (1 - ratio k n) = (1 - INR k / INR n)%R).
  { rewrite Q2R_minus, RMicromega.Q2R_1, Q2R_ratio by exact Hn. reflexivity. }
  rewrite Hq, Q2R_ratio by exact Hn.
  rewrite np_log_3, !np_log_pos by lra.
  unfold fsub, of_int. simpl. f_equal.
  rewrite minus_INR by lia. ring.
Qed.

(** *** Sums of log-densities *)

Lemma log_densities_positive (ds : list R) :
  Forall (fun d => (0 < d)%R) ds ->
  np_sum (map np_log ds) = Fin (Rsum (map ln ds)).
Proof.
  induction 1 as [| d ds Hd _ IH]; [reflexivity |].
  change (np_sum (map np_log (d :: ds)))
    with (fadd (np_log d) (np_sum (map np_log ds))).
  rewrite IH, np_log_pos by exact Hd. reflexivity.
Qed.

Lemma log_densities_nonneg (ds : list R) :
  Forall (fun d => (0 <= d)%R) ds ->
  (exists s, np_sum (map np_log ds) = Fin s) \/
  np_sum (map np_log ds) = NInf.
Proof.
  induction 1 as [| d ds Hd _ IH]; [left; exists 0%R; reflexivity |].
  change (np_sum (map np_log (d :: ds)))
    with (fadd (np_log d) (np_sum (map np_log ds))).
  destruct (Rle_lt_or_eq_dec 0 d Hd) as [Hpos | <-].
  - rewrite np_log_pos by exact Hpos.
    destruct IH as [[s ->] | ->]; [left; eexists; reflexivity | right; reflexivity].
  - rewrite np_log_zero.
    destruct IH as [[s ->] | ->]; right; reflexivity.
Qed.

Lemma log_densities_vanishing (ds : list R) :
  Forall (fun d => (0 <= d)%R) ds -> Exists (fun d => d = 0%R) ds ->
  np_sum (map np_log ds) = NInf.
Proof.
  intros Hall Hex. induction Hex as [d ds -> | d ds Hex IH].
  - change (np_sum (map np_log (0%R :: ds)))
      with (fadd (np_log 0) (np_sum (map np_log ds))).
    rewrite np_log_zero.
    destruct (log_densities_nonneg ds) as [[s ->] | ->];
      [inversion Hall; assumption | reflexivity | reflexivity].
  - change (np_sum (map np_log (d :: ds)))
      with (fadd (np_log d) (np_sum (map np_log ds))).
    inversion Hall as [| ? ? Hd Hds]; subst.
    rewrite (IH Hds).
    destruct (Rle_lt_or_eq_dec 0 d Hd) as [Hpos | <-].
    + rewrite np_log_pos by exact Hpos. reflexivity.
    + rewrite np_log_zero. reflexivity.
Qed.

(** *** The standard deviation *)

Lemma Q2R_of_nat (n : nat) : Q2R (inject_Z (Z.of_nat n)) = INR n.
Proof. unfold Q2R. simpl. rewrite INR_IZR_INZ. field. Qed.

Lemma Q2R_Qsum (l : list Q) : Q2R (Qsum l) = Rsum (map Q2R l).
Proof.
  induction l as [| v l IH]; simpl.
  - apply RMicromega.Q2R_0.
  - rewrite Q2R_plus, IH. reflexivity.
Qed.

Lemma np_std_ddof1 (x : list Q) :
  (2 <= length x)%nat -> np_std x 1 = Fin (sample_std x).
Proof.
  intros Hn. unfold np_std, sample_std, sample_mean.
  replace (length x =? 0)%nat with false by (symmetry; apply Nat.eqb_neq; lia).
  replace (length x <=? 1)%nat with false by (symmetry; apply Nat.leb_gt; lia).
  assert (Hnz : ~ (inject_Z (Z.of_nat (length x)) == 0)%Q).
  { intros E. unfold Qeq in E. simpl in E. lia. }
  assert (Hmz : ~ (inject_Z (Z.of_nat (length x - 1)) == 0)%Q).
  { intros E. unfold Qeq in E. simpl in E. lia. }
  do 2 f_equal.
  rewrite Q2R_div by exact Hmz. rewrite Q2R_of_nat, minus_INR by lia.
  simpl INR. f_equal.
  rewrite Q2R_Qsum, map_map. f_equal. apply map_ext. intros v.
  rewrite Q2R_mult, Q2R_minus, Q2R_div by exact Hnz.
  rewrite Q2R_Qsum, Q2R_of_nat. reflexivity.
Qed.

Lemma np_std_single (x : list Q) : length x = 1%nat -> np_std x 1 = NaN.
Proof.
  destruct x as [| v [| w x]]; try discriminate. intros _.
  unfold np_std. cbn [length Nat.eqb Nat.leb].
  replace (Qeq_bool _ 0) with true; [reflexivity |].
  symmetry. apply Qeq_bool_iff. cbn [map Qsum fold_right].
  change (inject_Z (Z.of_nat 1)) with 1%Q. field.
Qed.

(** *** Conversion to int64 *)




(** The rounding on known float64 facts: [0.1 + 0.2], the nearest
    float64 to 0.35, ties to even at [2^53], the subnormal range and the
    overflow threshold. *)
Lemma f64_round_checks :
  f64_round ((3602879701896397 # 36028797018963968) +
             (3602879701896397 # 18014398509481984))
    = F64 (1351079888211149 # 4503599627370496) /\
  f64_round (35 # 100) = F64 f64_0_35 /\
  f64_round (34 # 100) = F64 f64_0_34 /\
  f64_round (inject_Z (2 ^ 53 + 1)) = F64 (inject_Z (2 ^ 53)) /\
  f64_round (inject_Z (2 ^ 53 + 3)) = F64 (inject_Z (2 ^ 53 + 4)) /\
  f64_round (1 # Z.to_pos (2 ^ 1075)) = F64 0 /\
  f64_round (3 # Z.to_pos (2 ^ 1075)) = F64 (1 # Z.to_pos (2 ^ 1073)) /\
  f64_round (inject_Z (2 ^ 1024 - 2 ^ 970 - 1))
    = F64 (inject_Z ((2 ^ 53 - 1) * 2 ^ 971)) /\
  f64_round (inject_Z (2 ^ 1024 - 2 ^ 970)) = F64inf false /\
  f64_round (- inject_Z (2 ^ 1024)) = F64inf true.
Proof. repeat split; vm_compute; reflexivity. Qed.


Lemma scaled_ints_length (x : list Q) : length (scaled_ints x) = length x.
Proof. unfold scaled_ints, np_astype_int. rewrite !length_map. reflexivity. Qed.



Section KdeProvider.

Variable spstats_gaussian_kde : list (list Q) -> bw_method -> py gaussian_kde.

Lemma gkde_init_empty (bw : bw_method) :
  GKdeMdl.init spstats_gaussian_kde (Arr1 []) bw =
  Ok (GKdeMdl.Build [] 0 bw (Fin 0) None None None).
Proof. reflexivity. Qed.

Lemma gkde_init_success (x : list Q) (bw : bw_method) (k : gaussian_kde) :
  x <> [] -> spstats_gaussian_kde [x] bw = Ok k ->
  GKdeMdl.init spstats_gaussian_kde (Arr1 x) bw =
  Ok (GKdeMdl.Build x (length x) bw
        (fadd (fneg (np_sum (map np_log (evaluate k [x])))) (np_log 2))
        (Some (factor k)) (Some k) (Some (map np_log (evaluate k [x])))).
Proof.
  intros Hx Hk. destruct x as [| v x]; [congruence |].
  set (xs := v :: x) in *.
  unfold GKdeMdl.init, GKdeMdl._kde_mdl.
  replace (length xs =? 0)%nat with false by reflexivity.
  unfold GKdeMdl.gaussian_kde_logdens.
  cbv beta iota delta [py_bind]. rewrite Hk. reflexivity.
Qed.

Lemma gkde_init_failure (x : list Q) (bw : bw_method) (e : exn) :
  spstats_gaussian_kde [x] bw = Raise e ->
  GKdeMdl.init spstats_gaussian_kde (Arr1 x) bw =
  Ok (GKdeMdl.Build x (length x) bw
        (table_mdl (uniq_table (scaled_ints x)) (length x))
        None None None).
Proof.
  intros Hk. destruct x as [| v x]; [reflexivity |].
  set (xs := v :: x) in *.
  unfold GKdeMdl.init, GKdeMdl._kde_mdl.
  replace (length xs =? 0)%nat with false by reflexivity.
  unfold GKdeMdl.gaussian_kde_logdens.
  cbv beta iota delta [py_bind]. rewrite Hk. cbv beta iota.
  fold (scaled_ints xs).
  rewrite MultinomialMdl_init_Arr1. unfold fitted, MultinomialMdl.mdl.
  cbn [MultinomialMdl._mdl]. rewrite scaled_ints_length. reflexivity.
Qed.

Lemma gkde_init_total (x : list Q) (bw : bw_method) :
  exists g, GKdeMdl.init spstats_gaussian_kde (Arr1 x) bw = Ok g.
Proof.
  destruct x as [| v x]; [eexists; apply gkde_init_empty |].
  destruct (spstats_gaussian_kde [v :: x] bw) as [k | e] eqn:E.
  - eexists. apply gkde_init_success; [discriminate | exact E].
  - eexists. apply gkde_init_failure with (e := e); exact E.
Qed.

(** C3: on an empty sample [GKdeMdl] costs [0] and has no bandwidth.
    When the density fit of a non-empty sample succeeds, the cost is the
    negated sum of the logarithms of the densities at the sample's own
    points plus [log 2]: a real number when every density is positive,
    [+inf] when a density vanishes.  The bandwidth is the fit's factor
    times the standard deviation of the sample with [ddof=1], which is
    [sqrt (sum (x_i - mean)^2 / (n - 1))] for [n >= 2] and [nan] for a
    single point. *)
Theorem gkde_mdl_fitted (bw : bw_method) :
  (exists g, GKdeMdl.init spstats_gaussian_kde (Arr1 []) bw = Ok g /\
     GKdeMdl.mdl g = Fin 0 /\ GKdeMdl.bandwidth g = None) /\
  (forall (x : list Q) (k : gaussian_kde),
     x <> [] -> spstats_gaussian_kde [x] bw = Ok k ->
     exists g, GKdeMdl.init spstats_gaussian_kde (Arr1 x) bw = Ok g /\
       GKdeMdl.kde g = Some k /\
       (Forall (fun d => (0 < d)%R) (evaluate k [x]) ->
        GKdeMdl.mdl g = Fin (- Rsum (map ln (evaluate k [x])) + ln 2)) /\
       (Forall (fun d => (0 <= d)%R) (evaluate k [x]) ->
        Exists (fun d => d = 0%R) (evaluate k [x]) ->
        GKdeMdl.mdl g = PInf) /\
       ((2 <= length x)%nat ->
        GKdeMdl.bandwidth g =
        Some (Fin (factor k *
                   sqrt (Rsum (map (fun v => ((Q2R v - sample_mean x) *
                                              (Q2R v - sample_mean x))%R) x)
                         / (INR (length x) - 1))))) /\
       (length x = 1%nat -> GKdeMdl.bandwidth g = Some NaN)).
Proof.
  split.
  - eexists. split; [apply gkde_init_empty |]. split; reflexivity.
  - intros x k Hx Hk. eexists.
    split; [apply gkde_init_success; eassumption |].
    unfold GKdeMdl.mdl, GKdeMdl.bandwidth, GKdeMdl.kde.
    cbn [GKdeMdl._mdl GKdeMdl._bw_factor GKdeMdl._kde GKdeMdl._x].
    split; [reflexivity |]. rewrite np_log_2.
    split; [| split; [| split]].
    + intros Hd. rewrite (log_densities_positive _ Hd). reflexivity.
    + intros Hd Hz. rewrite (log_densities_vanishing _ Hd Hz). reflexivity.
    + intros Hn. rewrite (np_std_ddof1 x Hn). reflexivity.
    + intros Hn. rewrite (np_std_single x Hn). reflexivity.
Qed.


(** C2: the zero-indicator cost of [ZeroIGKdeMdl] by cases on the number
    [k] of non-zero entries among [n]; the total cost is that plus the cost
    of the [GKdeMdl] fitted on the non-zero entries with the same bandwidth
    rule, and [bandwidth] and [kde] are those of that inner object. *)
Theorem zero_inflated_mdl (x : list Q) (bw : bw_method) :
  exists z g,
    ZeroIGKdeMdl.init spstats_gaussian_kde (Arr1 x) bw = Ok z /\
    GKdeMdl.init spstats_gaussian_kde (Arr1 (ZeroIGKdeMdl.nonzero x)) bw
      = Ok g /\
    let n := length x in
    let k := (length x - countQ 0 x)%nat in
    (n = 0%nat -> ZeroIGKdeMdl.zi_mdl z = Fin 0) /\
    (n <> 0%nat -> k = n \/ k = 0%nat ->
     ZeroIGKdeMdl.zi_mdl z = Fin (ln 3)) /\
    ((0 < k < n)%nat ->
     ZeroIGKdeMdl.zi_mdl z =
     Fin (ln 3 - INR k * ln (INR k / INR n)
          - (INR n - INR k) * ln (1 - INR k / INR n))) /\
    ZeroIGKdeMdl.mdl z = fadd (ZeroIGKdeMdl.zi_mdl z) (GKdeMdl.mdl g) /\
    ZeroIGKdeMdl.bandwidth z = GKdeMdl.bandwidth g /\
    ZeroIGKdeMdl.kde z = GKdeMdl.kde g.
Proof.
  destruct (gkde_init_total (ZeroIGKdeMdl.nonzero x) bw) as [g Hg].
  eexists. exists g.
  split; [unfold ZeroIGKdeMdl.init; rewrite Hg; reflexivity |].
  split; [exact Hg |].
  unfold ZeroIGKdeMdl.zi_mdl, ZeroIGKdeMdl.mdl, ZeroIGKdeMdl.bandwidth,
    ZeroIGKdeMdl.kde. simpl.
  rewrite nonzero_length.
  split; [| split; [| split; [| repeat split]]].
  - intros Hn. unfold ZeroIGKdeMdl._compute_zero_indicator_mdl.
    rewrite Hn. reflexivity.
  - intros Hn Hk. unfold ZeroIGKdeMdl._compute_zero_indicator_mdl.
    replace (length x =? 0)%nat with false
      by (symmetry; apply Nat.eqb_neq; exact Hn).
    replace ((length x - countQ 0 x =? length x)
             || (length x - countQ 0 x =? 0))%nat with true.
    + apply np_log_3.
    + symmetry. apply orb_true_iff.
      destruct Hk as [Hk | Hk]; [left | right]; apply Nat.eqb_eq; exact Hk.
  - apply zero_indicator_mixed.
Qed.

End KdeProvider.

(** ** The query loop of [MultinomialMdl.encode] *)

Lemma fadd_0_l (a : fval) : fadd (Fin 0) a = a.
Proof. destruct a; simpl; [f_equal; ring | reflexivity ..]. Qed.

Lemma fadd_assoc (a b c : fval) : fadd (fadd a b) c = fadd a (fadd b c).
Proof.
  destruct a, b, c; simpl; try reflexivity. f_equal. ring.
Qed.

Lemma encode_loop_sum (m : MultinomialMdl.t) (unif : fval) (adj : bool)
    (cost : Q -> fval) (items : list (Q * nat)) (acc : fval) :
  (forall u c, In (u, c) items -> MultinomialMdl.uval_mdl m unif adj u = Ok (cost u)) ->
  MultinomialMdl.encode_loop m unif adj items acc =
  Ok (fadd acc (np_sum (map (fun uc => fmul (cost (fst uc)) (of_int (snd uc)))
                            items))).
Proof.
  revert acc. induction items as [| [u c] items IH]; intros acc Hc.
  - simpl. destruct acc; simpl; try reflexivity. do 2 f_equal. ring.
  - cbn [MultinomialMdl.encode_loop]. rewrite (Hc u c) by (left; reflexivity).
    cbn [py_bind]. rewrite IH by (intros u' c' Hin; apply (Hc u' c'); right; exact Hin).
    change (np_sum (map ?f ((u, c) :: items)))
      with (fadd (f (u, c)) (np_sum (map f items))).
    cbn [fst snd]. rewrite fadd_assoc. reflexivity.
Qed.

Lemma combine_keys_counts (t : list (Q * nat)) :
  combine (keys t) (map snd t) = t.
Proof.
  induction t as [| [u c] t IH]; simpl; [reflexivity | rewrite IH; reflexivity].
Qed.

Lemma lut_get_table (t : list (Q * nat)) (n : nat) (v : Q) :
  Forall (fun uc => (0 < snd uc)%nat) t ->
  lut_get (combine (keys t) (map (fun c => ratio c n) (map snd t))) v =
  if (tlookup t v =? 0)%nat then None else Some (ratio (tlookup t v) n).
Proof.
  induction 1 as [| [u c] t Hc _ IH]; simpl; [reflexivity |].
  simpl in Hc. destruct (Qeq_bool u v); [| exact IH].
  replace (c =? 0)%nat with false by (symmetry; apply Nat.eqb_neq; lia).
  reflexivity.
Qed.

Lemma lut_get_fitted (x : list Q) (v : Q) :
  lut_get (combine (keys (uniq_table x))
             (map (fun c => ratio c (length x)) (map snd (uniq_table x)))) v =
  if (countQ v x =? 0)%nat then None else Some (ratio (countQ v x) (length x)).
Proof.
  rewrite lut_get_table by apply uniq_table_counts_pos.
  rewrite tlookup_uniq_table. reflexivity.
Qed.

(** ** The uniform fallback *)

Lemma Qmax_scale (a b : Q) : (Qmax (a * 2) (b * 2) == Qmax a b * 2)%Q.
Proof.
  destruct (Q.max_spec a b) as [[Hlt E] | [Hle E]]; rewrite E.
  - apply Q.max_r. apply Qmult_le_compat_r; [| discriminate].
    apply Qlt_le_weak; exact Hlt.
  - apply Q.max_l. apply Qmult_le_compat_r; [exact Hle | discriminate].
Qed.

Lemma fold_left_Qmax (l : list Q) (a : Q) :
  (0 <= a)%Q ->
  (fold_left Qmax l a == Qmax a (fold_right Qmax 0 l))%Q.
Proof.
  revert a. induction l as [| b l IH]; intros a Ha; simpl.
  - symmetry. apply Q.max_l. exact Ha.
  - rewrite IH.
    + rewrite Q.max_assoc. reflexivity.
    + eapply Qle_trans; [exact Ha | apply Q.le_max_l].
Qed.

Lemma max_abs_scaled (q : list Q) :
  (fold_right Qmax 0 (map (fun v => Qabs v * 2) q) == max_abs q * 2)%Q.
Proof.
  induction q as [| v q IH]; simpl; [reflexivity |].
  rewrite IH. apply Qmax_scale.
Qed.

Lemma f64_max_finite (a b : Q) : f64_max (F64 a) (F64 b) = F64 (Qmax a b).
Proof.
  unfold f64_max, Qmax, GenericMinMax.gmax. cbn [f64_compare].
  destruct (a ?= b)%Q; reflexivity.
Qed.

Lemma fold_left_f64_max_finite (l : list Q) (a : Q) :
  fold_left f64_max (map F64 l) (F64 a) = F64 (fold_left Qmax l a).
Proof.
  revert a. induction l as [| b l IH]; intros a; simpl; [reflexivity |].
  rewrite f64_max_finite. apply IH.
Qed.

Lemma f64_max_inf_l (b : f64) : f64_max (F64inf false) b = F64inf false.
Proof. destruct b as [y | []]; reflexivity. Qed.

Lemma f64_max_inf_r (a : f64) : f64_max a (F64inf false) = F64inf false.
Proof. destruct a as [y | []]; reflexivity. Qed.

Lemma fold_left_f64_max_inf (l : list f64) :
  fold_left f64_max l (F64inf false) = F64inf false.
Proof.
  induction l as [| b l IH]; simpl; [reflexivity |].
  rewrite f64_max_inf_l. exact IH.
Qed.

Lemma fold_left_f64_max_reaches (l : list f64) (a : f64) :
  In (F64inf false) l -> fold_left f64_max l a = F64inf false.
Proof.
  revert a. induction l as [| b l IH]; intros a Hin; simpl; [inversion Hin |].
  destruct Hin as [-> | Hin].
  - rewrite f64_max_inf_r. apply fold_left_f64_max_inf.
  - apply IH; exact Hin.
Qed.

Lemma f64_twice_abs (v : Q) :
  f64_twice (Qabs v) =
  if Qle_bool (inject_Z (2 ^ 1023)) (Qabs v) then F64inf false
  else F64 (Qabs v * 2).
Proof.
  unfold f64_twice.
  assert (Ea : Qabs (Qabs v) = Qabs v).
  { destruct v as [n d]. unfold Qabs. rewrite Z.abs_idemp. reflexivity. }
  rewrite Ea. change (Qpow2 1023) with (inject_Z (2 ^ 1023)).
  assert (E0 : Qle_bool 0 (Qabs v) = true)
    by (apply Qle_bool_iff, Qabs_nonneg).
  rewrite E0. reflexivity.
Qed.

Lemma max_abs_reaches (q : list Q) (c : Q) :
  (0 < c)%Q ->
  Qle_bool c (max_abs q) = true ->
  Exists (fun v => Qle_bool c (Qabs v) = true) q.
Proof.
  intros Hc. induction q as [| v q IH]; simpl; intros H.
  - apply Qle_bool_iff in H. lra.
  - apply Qle_bool_iff in H. apply Q.max_le_iff in H. destruct H as [H | H].
    + constructor. apply Qle_bool_iff; exact H.
    + apply Exists_cons_tl. apply IH. apply Qle_bool_iff; exact H.
Qed.

Lemma max_abs_bounds (q : list Q) (c : Q) :
  Qle_bool c (max_abs q) = false ->
  Forall (fun v => Qle_bool c (Qabs v) = false) q.
Proof.
  induction q as [| v q IH]; simpl; intros H; constructor.
  - destruct (Qle_bool c (Qabs v)) eqn:E; [| reflexivity].
    rewrite <- H. symmetry. apply Qle_bool_iff. apply Qle_bool_iff in E.
    apply Q.max_le_iff. left; exact E.
  - apply IH. destruct (Qle_bool c (max_abs q)) eqn:E; [| reflexivity].
    rewrite <- H. symmetry. apply Qle_bool_iff. apply Qle_bool_iff in E.
    apply Q.max_le_iff. right; exact E.
Qed.

Lemma np_max_doubled (q : list Q) :
  q <> [] ->
  exists mx, np_max (map (fun v => f64_twice (Qabs v)) q) = Ok mx /\
             f64_log mx = float_fallback q.
Proof.
  intros Hq. unfold float_fallback.
  destruct (Qle_bool (inject_Z (2 ^ 1023)) (max_abs q)) eqn:E.
  - exists (F64inf false). split; [| reflexivity].
    apply max_abs_reaches in E; [| reflexivity].
    assert (Hin : In (F64inf false) (map (fun v => f64_twice (Qabs v)) q)).
    { apply List.Exists_exists in E. destruct E as (v & Hv & Ev).
      apply in_map_iff. exists v. split; [| exact Hv].
      rewrite f64_twice_abs, Ev. reflexivity. }
    destruct q as [| v q]; [congruence |]. simpl in Hin |- *.
    destruct Hin as [-> | Hin].
    + rewrite fold_left_f64_max_inf. reflexivity.
    + rewrite (fold_left_f64_max_reaches _ _ Hin). reflexivity.
  - apply max_abs_bounds in E.
    assert (Em : map (fun v => f64_twice (Qabs v)) q =
                 map F64 (map (fun v => (Qabs v * 2)%Q) q)).
    { rewrite map_map. apply map_ext_in. intros v Hv.
      rewrite List.Forall_forall in E. rewrite f64_twice_abs, (E v Hv).
      reflexivity. }
    rewrite Em. destruct q as [| v q]; [congruence |].
    eexists. split.
    + simpl. rewrite fold_left_f64_max_finite. reflexivity.
    + unfold uniform_fallback. cbn [f64_log]. f_equal. apply Qeq_eqR.
      rewrite fold_left_Qmax.
      * rewrite max_abs_scaled. simpl. apply Qmax_scale.
      * apply Qmult_le_0_compat; [apply Qabs_nonneg | discriminate].
Qed.

Lemma float_fallback_in_range (q : list Q) :
  (max_abs q < inject_Z (2 ^ 1023))%Q ->
  float_fallback q = uniform_fallback q.
Proof.
  intros H. unfold float_fallback.
  destruct (Qle_bool (inject_Z (2 ^ 1023)) (max_abs q)) eqn:E; [| reflexivity].
  apply Qle_bool_iff in E. lra.
Qed.

Lemma encode_unfold (m : MultinomialMdl.t) (q : list Q) (adj : bool) :
  q <> [] ->
  MultinomialMdl.encode m (Arr1 q) adj =
  if (MultinomialMdl._n m =? 0)%nat
  then Ok (fmul (of_int (length q)) (float_fallback q))
  else MultinomialMdl.encode_loop m (float_fallback q) adj
         (uniq_table q) (Fin 0).
Proof.
  intros Hq. unfold MultinomialMdl.encode. rewrite npfloat_1d_Arr1.
  destruct (np_max_doubled q Hq) as (mx & Hmx & Emx).
  cbn [py_bind].
  replace (length q =? 0)%nat with false.
  - rewrite Hmx. cbn [py_bind]. rewrite Emx.
    unfold np_unique. rewrite combine_keys_counts. reflexivity.
  - symmetry. apply Nat.eqb_neq. destruct q; [congruence | discriminate].
Qed.

Lemma neg_log_prob (x : list Q) (v : Q) :
  countQ v x <> 0%nat ->
  fneg (np_log (Q2R (ratio (countQ v x) (length x)))) =
  Fin (- ln (INR (countQ v x) / INR (length x))).
Proof.
  intros Hc.
  assert (Hn : (0 < length x)%nat)
    by (pose proof (countQ_le_length x v); lia).
  rewrite np_log_pos by (apply Q2R_pos, ratio_pos; lia).
  rewrite Q2R_ratio by exact Hn. reflexivity.
Qed.

Lemma encode_uniform_value (x q : list Q) :
  x <> [] -> q <> [] ->
  MultinomialMdl.encode (fitted x) (Arr1 q) false =
  Ok (np_sum (map (fun v => fmul (value_cost x q v) (of_int (countQ v q)))
                  (keys (uniq_table q)))).
Proof.
  intros Hx Hq. rewrite encode_unfold by exact Hq.
  change (MultinomialMdl._n (fitted x)) with (length x).
  replace (length x =? 0)%nat with false
    by (symmetry; apply Nat.eqb_neq; destruct x; [congruence | discriminate]).
  rewrite (encode_loop_sum _ _ _ (value_cost x q)).
  - rewrite fadd_0_l.
    rewrite (map_keys_count q (fun u c => fmul (value_cost x q u) (of_int c))).
    reflexivity.
  - intros u c _. unfold MultinomialMdl.uval_mdl, fitted.
    cbn [MultinomialMdl._uniq_val_p_lut]. rewrite lut_get_fitted.
    unfold value_cost. destruct (countQ u x =? 0)%nat eqn:E; [reflexivity |].
    rewrite neg_log_prob by (apply Nat.eqb_neq; exact E). reflexivity.
Qed.

Lemma encode_unfitted_value (q : list Q) (adj : bool) :
  q <> [] ->
  MultinomialMdl.encode (fitted []) (Arr1 q) adj =
  Ok (fmul (of_int (length q)) (float_fallback q)).
Proof. intros Hq. rewrite encode_unfold by exact Hq. reflexivity. Qed.

(** C5: [encode] without the adjacency option returns [0] on an empty
    query; [q.size * log(max|q| * 2)] when the model was fitted on an empty
    sample; otherwise the sum over the distinct query values of the cost of
    the value times its multiplicity, the cost being [-log(c_v/n)] when the
    value occurs in the fitted sample and [log(max|q| * 2)] when it does
    not.  The product [max|q| * 2] is a float64: from [max|q| = 2 ^ 1023]
    on it is [inf], and so is its logarithm. *)
Theorem multinomial_encode_uniform (x q : list Q) :
  exists m, MultinomialMdl.init (Arr1 x) = Ok m /\
    (q = [] -> MultinomialMdl.encode m (Arr1 q) false = Ok (Fin 0)) /\
    (q <> [] ->
     let unif :=
       if Qle_bool (inject_Z (2 ^ 1023)) (max_abs q) then PInf
       else np_log (Q2R (max_abs q * 2)) in
     let cost := fun v =>
       if (countQ v x =? 0)%nat then unif
       else Fin (- ln (INR (countQ v x) / INR (length x))) in
     (x = [] ->
      MultinomialMdl.encode m (Arr1 q) false =
      Ok (fmul (of_int (length q)) unif)) /\
     (x <> [] ->
      exists U, StronglySorted Qlt U /\ (forall v, InQ v U <-> InQ v q) /\
        MultinomialMdl.encode m (Arr1 q) false =
        Ok (np_sum (map (fun v => fmul (cost v) (of_int (countQ v q))) U)))).
Proof.
  eexists. split; [apply MultinomialMdl_init_Arr1 |]. split.
  - intros ->. reflexivity.
  - intros Hq unif cost. split.
    + intros ->. apply encode_unfitted_value; exact Hq.
    + intros Hx. exists (keys (uniq_table q)).
      split; [apply uniq_table_sorted |].
      split; [intros v; apply uniq_table_keys_iff |].
      apply encode_uniform_value; assumption.
Qed.

Lemma multinomial_encode_uniform_witness :
  (exists m U,
     MultinomialMdl.init (Arr1 [1; 1; 2]%Q) = Ok m /\
     StronglySorted Qlt U /\
     (forall v, InQ v U <-> InQ v [1; 3; 3]%Q) /\
     MultinomialMdl.encode m (Arr1 [1; 3; 3]%Q) false =
     Ok (np_sum
           (map (fun v =>
                   fmul (if (countQ v [1; 1; 2]%Q =? 0)%nat
                         then np_log (Q2R (max_abs [1; 3; 3]%Q * 2))
                         else Fin (- ln (INR (countQ v [1; 1; 2]%Q) / INR 3)))
                        (of_int (countQ v [1; 3; 3]%Q))) U))) /\
  (exists m,
     MultinomialMdl.init (Arr1 []) = Ok m /\
     MultinomialMdl.encode m (Arr1 [3; 3]%Q) false =
     Ok (fmul (of_int 2) (np_log (Q2R (max_abs [3; 3]%Q * 2)))) /\
     MultinomialMdl.encode m (Arr1 [inject_Z (2 ^ 1023)]) false =
     Ok (fmul (of_int 1) PInf)).
Proof.
  split.
  - destruct (multinomial_encode_uniform [1; 1; 2]%Q [1; 3; 3]%Q)
      as (m & Hm & _ & H).
    destruct (H ltac:(discriminate)) as [_ H1].
    destruct (H1 ltac:(discriminate)) as (U & Hs & HU & He).
    exists m, U. split; [exact Hm |]. split; [exact Hs |].
    split; [exact HU |]. exact He.
  - destruct (multinomial_encode_uniform [] [3; 3]%Q) as (m & Hm & _ & H).
    destruct (H ltac:(discriminate)) as [H0 _].
    destruct (multinomial_encode_uniform [] [inject_Z (2 ^ 1023)])
      as (m' & Hm' & _ & H').
    destruct (H' ltac:(discriminate)) as [H0' _].
    assert (Em : m' = m) by congruence. subst m'.
    exists m. split; [exact Hm |].
    split; [exact (H0 eq_refl) | exact (H0' eq_refl)].
Defined.

(** ** Indexing and [np.searchsorted] *)

Lemma getitem_nth {A} (a : list A) (i : nat) (d : A) :
  (i < length a)%nat -> getitem a (Z.of_nat i) = Ok (nth i a d).
Proof.
  intros Hi. unfold getitem. cbv zeta.
  assert (E1 : (Z.of_nat i <? 0)%Z = false) by (apply Z.ltb_ge; lia).
  assert (E2 : (Z.of_nat (length a) <=? Z.of_nat i)%Z = false)
    by (apply Z.leb_gt; lia).
  rewrite E1. cbv iota. rewrite E1, E2. cbn [orb]. rewrite Nat2Z.id.
  rewrite (nth_error_nth' a d Hi). reflexivity.
Qed.

Lemma getitem_pred {A} (a : list A) (i : nat) (d : A) :
  (0 < i <= length a)%nat ->
  getitem a (Z.of_nat i - 1) = Ok (nth (i - 1) a d).
Proof.
  intros Hi. replace (Z.of_nat i - 1)%Z with (Z.of_nat (i - 1)) by lia.
  apply getitem_nth. lia.
Qed.

Lemma getitem_last {A} (a : list A) (d : A) :
  a <> [] -> getitem a (-1) = Ok (nth (length a - 1) a d).
Proof.
  intros Ha. pose proof (length_pos_of_nonempty a Ha) as Hlen.
  unfold getitem. cbv zeta.
  assert (E0 : (-1 <? 0)%Z = true) by reflexivity.
  assert (E1 : (-1 + Z.of_nat (length a) <? 0)%Z = false)
    by (apply Z.ltb_ge; lia).
  assert (E2 : (Z.of_nat (length a) <=? -1 + Z.of_nat (length a))%Z = false)
    by (apply Z.leb_gt; lia).
  rewrite E0. cbv iota. rewrite E1, E2. cbn [orb].
  replace (Z.to_nat (-1 + Z.of_nat (length a))) with (length a - 1)%nat by lia.
  rewrite (nth_error_nth' a d); [reflexivity | lia].
Qed.

Lemma searchsorted_le (a : list Q) (v : Q) :
  (np_searchsorted a v <= length a)%nat.
Proof.
  induction a as [| u a IH]; simpl; [lia |].
  destruct (u ?= v)%Q; lia.
Qed.

Lemma searchsorted_before (a : list Q) (v : Q) (j : nat) :
  (j < np_searchsorted a v)%nat -> (nth j a 0 < v)%Q.
Proof.
  revert j. induction a as [| u a IH]; simpl; intros j Hj; [lia |].
  destruct (Qcompare_cases u v) as [[E Hlt] | [[E _] | [E _]]];
    rewrite E in Hj; [| lia | lia].
  destruct j as [| j]; [exact Hlt | apply IH; lia].
Qed.

Lemma searchsorted_at (a : list Q) (v : Q) :
  (np_searchsorted a v < length a)%nat ->
  (v <= nth (np_searchsorted a v) a 0)%Q.
Proof.
  induction a as [| u a IH]; simpl; intros Hi; [lia |].
  destruct (Qcompare_cases u v) as [[E Hlt] | [[E He] | [E Hgt]]]; rewrite E in *.
  - apply IH. lia.
  - rewrite He. apply Qle_refl.
  - apply Qlt_le_weak; exact Hgt.
Qed.

Lemma sorted_nth_lt (a : list Q) (j k : nat) :
  StronglySorted Qlt a -> (j < k < length a)%nat ->
  (nth j a 0 < nth k a 0)%Q.
Proof.
  intros Hs. revert j k. induction Hs as [| u a Hs IH Hall]; simpl; intros j k H;
    [lia |].
  destruct k as [| k]; [lia |]. destruct j as [| j].
  - rewrite List.Forall_forall in Hall. apply Hall. apply nth_In. lia.
  - apply IH. lia.
Qed.

Lemma sorted_nth_le (a : list Q) (j k : nat) :
  StronglySorted Qlt a -> (j <= k < length a)%nat ->
  (nth j a 0 <= nth k a 0)%Q.
Proof.
  intros Hs H. destruct (Nat.eq_dec j k) as [-> | Hne]; [apply Qle_refl |].
  apply Qlt_le_weak. apply sorted_nth_lt; [exact Hs | lia].
Qed.

Lemma InQ_nth (a : list Q) (v : Q) :
  InQ v a -> exists j, (j < length a)%nat /\ (nth j a 0 == v)%Q.
Proof.
  unfold InQ. induction 1 as [u a E | u a _ (j & Hj & E)].
  - exists 0%nat. simpl. split; [lia | symmetry; exact E].
  - exists (S j). simpl. split; [lia | exact E].
Qed.

Lemma nth_InQ (a : list Q) (j : nat) :
  (j < length a)%nat -> InQ (nth j a 0%Q) a.
Proof.
  unfold InQ. revert j. induction a as [| u a IH]; simpl; intros j Hj; [lia |].
  destruct j as [| j]; [constructor; reflexivity |].
  apply Exists_cons_tl. apply IH. lia.
Qed.

Lemma countQ_proper (x : list Q) (a b : Q) : (a == b)%Q -> countQ a x = countQ b x.
Proof.
  intros E. unfold countQ. induction x as [| w x IH]; simpl; [reflexivity |].
  rewrite (Qeq_bool_trans_l a b w E). destruct (Qeq_bool b w); simpl; congruence.
Qed.

Lemma prob_proper (x : list Q) (a b : Q) : (a == b)%Q -> prob x a = prob x b.
Proof. intros E. unfold prob. rewrite (countQ_proper x a b E). reflexivity. Qed.

Lemma fitted_ps (x : list Q) :
  map (fun c => ratio c (length x)) (map snd (uniq_table x)) =
  map (prob x) (keys (uniq_table x)).
Proof.
  unfold keys, prob. rewrite !map_map. apply map_ext_in.
  intros [u c] Hin. simpl. rewrite (uniq_table_count x u c Hin). reflexivity.
Qed.

Lemma prob_pos (x : list Q) (v : Q) : InQ v x -> (0 < prob x v)%Q.
Proof.
  intros Hin. apply countQ_pos_iff in Hin. unfold prob.
  pose proof (countQ_le_length x v). apply ratio_pos; lia.
Qed.

Lemma prob_le_1 (x : list Q) (v : Q) : InQ v x -> (prob x v <= 1)%Q.
Proof.
  intros Hin. apply countQ_pos_iff in Hin. unfold prob.
  pose proof (countQ_le_length x v). apply ratio_le_1; lia.
Qed.

(** ** The adjacency rule *)

Lemma py_max_cases (a b : Q) :
  (py_max a b = a \/ py_max a b = b) /\ (a <= py_max a b)%Q /\ (b <= py_max a b)%Q.
Proof.
  unfold py_max.
  destruct (Qcompare_cases a b) as [[-> H] | [[-> H] | [-> H]]].
  - split; [right; reflexivity |].
    split; [apply Qlt_le_weak; exact H | apply Qle_refl].
  - split; [left; reflexivity |].
    split; [apply Qle_refl | rewrite H; apply Qle_refl].
  - split; [left; reflexivity |].
    split; [apply Qle_refl | apply Qlt_le_weak; exact H].
Qed.

Lemma f64_round_proper (a b : Q) : (a == b)%Q -> f64_round a = f64_round b.
Proof. intros E. unfold f64_round. rewrite (Qred_complete a b E). reflexivity. Qed.

Lemma float_dist_proper (a b v : Q) :
  (a == b)%Q -> float_dist a v = float_dist b v.
Proof.
  intros E. unfold float_dist, f64_sub. f_equal. apply f64_round_proper.
  rewrite E. reflexivity.
Qed.

Lemma float_dist_proper_r (u a b : Q) :
  (a == b)%Q -> float_dist u a = float_dist u b.
Proof.
  intros E. unfold float_dist, f64_sub. f_equal. apply f64_round_proper.
  rewrite E. reflexivity.
Qed.

Lemma f64_compare_cases (a b : f64) :
  (f64_compare a b = Lt /\ f64_lt a b /\ ~ f64_lt b a) \/
  (f64_compare a b = Eq /\ ~ f64_lt a b /\ ~ f64_lt b a) \/
  (f64_compare a b = Gt /\ f64_lt b a /\ ~ f64_lt a b).
Proof.
  destruct a as [x | []], b as [y | []]; cbn [f64_compare f64_lt];
    try (left; repeat split; tauto);
    try (right; left; repeat split; tauto);
    try (right; right; repeat split; tauto).
  destruct (Qcompare_cases x y) as [[-> H] | [[-> H] | [-> H]]].
  - left. repeat split; [exact H | lra].
  - right; left. repeat split; lra.
  - right; right. repeat split; [exact H | lra].
Qed.

Lemma adjacent_p_fitted (x : list Q) (v : Q) :
  x <> [] ->
  let U := keys (uniq_table x) in
  let i := np_searchsorted U v in
  let L := nth (i - 1) U 0%Q in
  let R := nth i U 0%Q in
  MultinomialMdl.adjacent_p (fitted x) v =
  Ok (if (i =? 0)%nat then prob x (nth 0 U 0%Q)
      else if (length U <=? i)%nat then prob x (nth (length U - 1) U 0%Q)
      else match f64_compare (float_dist L v) (float_dist R v) with
           | Lt => prob x L
           | Gt => prob x R
           | Eq => py_max (prob x L) (prob x R)
           end).
Proof.
  intros Hx U i L R.
  assert (HU : U <> []) by (apply keys_nonempty; exact Hx).
  pose proof (length_pos_of_nonempty U HU) as HlenU.
  pose proof (searchsorted_le U v) as Hi. fold i in Hi.
  unfold MultinomialMdl.adjacent_p, fitted.
  cbn [MultinomialMdl._uniq_vals MultinomialMdl._uniq_val_ps
       MultinomialMdl._n_uniq].
  rewrite fitted_ps. fold U. fold i.
  assert (Hnth : forall j, nth j (map (prob x) U) (prob x 0) = prob x (nth j U 0%Q))
    by (intros j; apply map_nth).
  destruct (Nat.eqb_spec i 0) as [E0 | Hne].
  - rewrite E0. simpl Z.leb. cbv iota.
    change 0%Z with (Z.of_nat 0).
    rewrite (getitem_nth _ 0 (prob x 0)) by (rewrite length_map; exact HlenU).
    rewrite Hnth. reflexivity.
  - replace (Z.of_nat i <=? 0)%Z with false by (symmetry; apply Z.leb_gt; lia).
    destruct (Nat.leb_spec (length U) i) as [Hge | Hlt].
    + replace (Z.of_nat (length U) <=? Z.of_nat i)%Z with true
        by (symmetry; apply Z.leb_le; lia).
      rewrite (getitem_last _ (prob x 0))
        by (intros E; apply HU; destruct U; [reflexivity | discriminate]).
      rewrite length_map, Hnth. reflexivity.
    + replace (Z.of_nat (length U) <=? Z.of_nat i)%Z with false
        by (symmetry; apply Z.leb_gt; lia).
      rewrite (getitem_pred U i 0%Q) by lia.
      rewrite (getitem_nth U i 0%Q) by lia.
      cbn [py_bind]. fold L. fold R.
      rewrite (getitem_pred _ i (prob x 0)) by (rewrite length_map; lia).
      rewrite (getitem_nth _ i (prob x 0)) by (rewrite length_map; lia).
      rewrite !Hnth. fold L. fold R. unfold float_dist.
      destruct (f64_compare (f64_abs (f64_sub L v)) (f64_abs (f64_sub R v)));
        reflexivity.
Qed.

(** Whatever the adjacency rule returns is the probability of a fitted
    value. *)
Lemma adjacent_p_is_fitted (x : list Q) (v : Q) :
  x <> [] ->
  exists u, InQ u x /\ MultinomialMdl.adjacent_p (fitted x) v = Ok (prob x u).
Proof.
  intros Hx. rewrite (adjacent_p_fitted x v Hx).
  set (U := keys (uniq_table x)). set (i := np_searchsorted U v).
  assert (HU : U <> []) by (apply keys_nonempty; exact Hx).
  pose proof (length_pos_of_nonempty U HU) as HlenU.
  assert (Hin : forall j, (j < length U)%nat -> InQ (nth j U 0%Q) x).
  { intros j Hj. apply uniq_table_keys_iff. apply nth_InQ; exact Hj. }
  destruct (Nat.eqb_spec i 0) as [E0 | Hne].
  - exists (nth 0 U 0%Q). split; [apply Hin; lia | reflexivity].
  - destruct (Nat.leb_spec (length U) i) as [Hge | Hlt].
    + exists (nth (length U - 1) U 0%Q). split; [apply Hin; lia | reflexivity].
    + destruct (f64_compare (float_dist (nth (i - 1) U 0%Q) v)
                            (float_dist (nth i U 0%Q) v)).
      * destruct (py_max_cases (prob x (nth (i - 1) U 0%Q)) (prob x (nth i U 0%Q)))
          as [[E | E] _]; rewrite E.
        -- exists (nth (i - 1) U 0%Q). split; [apply Hin; lia | reflexivity].
        -- exists (nth i U 0%Q). split; [apply Hin; lia | reflexivity].
      * exists (nth (i - 1) U 0%Q). split; [apply Hin; lia | reflexivity].
      * exists (nth i U 0%Q). split; [apply Hin; lia | reflexivity].
Qed.

Lemma fitted_neighbours (x : list Q) (v l r : Q) :
  InQ l x -> InQ r x -> (l < v < r)%Q ->
  (forall u, InQ u x -> (u <= l)%Q \/ (r <= u)%Q) ->
  let U := keys (uniq_table x) in
  let i := np_searchsorted U v in
  (0 < i < length U)%nat /\
  (nth (i - 1) U 0 == l)%Q /\ (nth i U 0 == r)%Q.
Proof.
  intros Hl Hr [Hlv Hvr] Hgap U i.
  pose proof (uniq_table_sorted x) as Hs. fold U in Hs.
  apply uniq_table_keys_iff in Hl, Hr. fold U in Hl, Hr.
  destruct (InQ_nth U l Hl) as (jl & Hjl & El).
  destruct (InQ_nth U r Hr) as (jr & Hjr & Er).
  assert (Hin : forall j, (j < length U)%nat -> InQ (nth j U 0%Q) x).
  { intros j Hj. apply uniq_table_keys_iff. apply nth_InQ; exact Hj. }
  assert (Hjl_lt : (jl < i)%nat).
  { destruct (Nat.lt_ge_cases jl i) as [H | H]; [exact H | exfalso].
    assert (Hi : (i < length U)%nat) by lia.
    pose proof (searchsorted_at U v Hi) as H1. fold i in H1.
    pose proof (sorted_nth_le U i jl Hs ltac:(lia)) as H2. lra. }
  assert (Hjr_ge : (i <= jr)%nat).
  { destruct (Nat.lt_ge_cases jr i) as [H | H]; [exfalso | exact H].
    pose proof (searchsorted_before U v jr H) as H1. lra. }
  assert (Hi : (0 < i < length U)%nat) by lia.
  split; [exact Hi |].
  pose proof (searchsorted_before U v (i - 1) ltac:(lia)) as HL.
  pose proof (searchsorted_at U v ltac:(lia)) as HR. fold i in HL, HR.
  pose proof (sorted_nth_le U jl (i - 1) Hs ltac:(lia)) as HlL.
  pose proof (sorted_nth_le U i jr Hs ltac:(lia)) as HRr.
  split; apply Qle_antisym.
  - destruct (Hgap _ (Hin (i - 1)%nat ltac:(lia))) as [H | H]; lra.
  - lra.
  - lra.
  - destruct (Hgap _ (Hin i ltac:(lia))) as [H | H]; lra.
Qed.

(** C6, as the code has it: a query value absent from a model fitted on a
    non-empty sample is charged [-log p], [p] being the probability of the
    smallest fitted value when the query value is below every fitted value,
    the probability of the largest fitted value when it is above every
    fitted value, and otherwise the probability of the nearer of the two
    fitted values next to it, the two distances being the float64
    differences the code computes; when these are equal, [p] is the higher
    of the two neighbours' probabilities.  The uniform fallback plays no
    part.  Fitted on [[1, 1, 4]], the value 2 takes the probability of 1
    and the value 3 that of 4; fitted on [[2^-60, 2, 2]], the value 1 is
    nearer to [2^-60] but both float64 distances are 1, and it takes the
    higher probability, that of 2. *)
Theorem multinomial_encode_adjacent :
  (forall (x : list Q) (v : Q) (unif : fval),
   x <> [] -> ~ InQ v x ->
   exists m p,
    MultinomialMdl.init (Arr1 x) = Ok m /\
    MultinomialMdl.adjacent_p m v = Ok p /\
    MultinomialMdl.uval_mdl m unif true v = Ok (Fin (- ln (Q2R p))) /\
    ((forall u, InQ u x -> (v < u)%Q) ->
     exists u0, InQ u0 x /\ (forall u, InQ u x -> (u0 <= u)%Q) /\
                p = prob x u0) /\
    ((forall u, InQ u x -> (u < v)%Q) ->
     exists u1, InQ u1 x /\ (forall u, InQ u x -> (u <= u1)%Q) /\
                p = prob x u1) /\
    (forall l r, InQ l x -> InQ r x -> (l < v < r)%Q ->
       (forall u, InQ u x -> (u <= l)%Q \/ (r <= u)%Q) ->
       (f64_lt (float_dist l v) (float_dist r v) -> p = prob x l) /\
       (f64_lt (float_dist r v) (float_dist l v) -> p = prob x r) /\
       (~ f64_lt (float_dist l v) (float_dist r v) ->
        ~ f64_lt (float_dist r v) (float_dist l v) ->
        (p = prob x l \/ p = prob x r) /\
        (prob x l <= p)%Q /\ (prob x r <= p)%Q))) /\
  (exists m p2 p3,
     MultinomialMdl.init (Arr1 [1; 1; 4]%Q) = Ok m /\
     MultinomialMdl.adjacent_p m 2 = Ok p2 /\ (p2 == 2 # 3)%Q /\
     MultinomialMdl.adjacent_p m 3 = Ok p3 /\ (p3 == 1 # 3)%Q) /\
  (exists m p,
     MultinomialMdl.init (Arr1 [1 # 1152921504606846976; 2; 2]%Q) = Ok m /\
     (Qabs ((1 # 1152921504606846976) - 1) < Qabs (2 - 1))%Q /\
     float_dist (1 # 1152921504606846976) 1 = F64 1 /\
     float_dist 2 1 = F64 1 /\
     MultinomialMdl.adjacent_p m 1 = Ok p /\ (p == 2 # 3)%Q).
Proof.
  split; [| split].
  2: { exists (fitted [1; 1; 4]%Q). eexists. eexists.
       split; [apply MultinomialMdl_init_Arr1 |].
       split; [lazy; reflexivity |]. split; [reflexivity |].
       split; [lazy; reflexivity | reflexivity]. }
  2: { exists (fitted [1 # 1152921504606846976; 2; 2]%Q). eexists.
       split; [apply MultinomialMdl_init_Arr1 |].
       split; [reflexivity |].
       split; [vm_compute; reflexivity |].
       split; [vm_compute; reflexivity |].
       split; [lazy; reflexivity | reflexivity]. }
  intros x v unif Hx Hv.
  pose proof (adjacent_p_fitted x v Hx) as Hadj. cbv zeta in Hadj.
  set (U := keys (uniq_table x)) in *. set (i := np_searchsorted U v) in *.
  set (p := if (i =? 0)%nat then _ else _) in Hadj.
  assert (HU : U <> []) by (apply keys_nonempty; exact Hx).
  pose proof (length_pos_of_nonempty U HU) as HlenU.
  pose proof (uniq_table_sorted x) as Hs. fold U in Hs.
  assert (Hin : forall j, (j < length U)%nat -> InQ (nth j U 0%Q) x).
  { intros j Hj. apply uniq_table_keys_iff. apply nth_InQ; exact Hj. }
  assert (Hnth : forall u, InQ u x ->
            exists j, (j < length U)%nat /\ (nth j U 0 == u)%Q).
  { intros u Hu. apply InQ_nth. apply uniq_table_keys_iff; exact Hu. }
  exists (fitted x), p.
  split; [apply MultinomialMdl_init_Arr1 |].
  split; [exact Hadj |].
  split; [| split; [| split]].
  - unfold MultinomialMdl.uval_mdl.
    change (MultinomialMdl._uniq_val_p_lut (fitted x))
      with (combine (keys (uniq_table x))
              (map (fun c => ratio c (length x)) (map snd (uniq_table x)))).
    rewrite lut_get_fitted.
    replace (countQ v x =? 0)%nat with true.
    + rewrite Hadj. cbn [py_bind].
      destruct (adjacent_p_is_fitted x v Hx) as (u & Hu & E).
      rewrite Hadj in E. injection E as E.
      rewrite np_log_pos; [reflexivity |].
      rewrite E. apply Q2R_pos, prob_pos; exact Hu.
    + symmetry. apply Nat.eqb_eq.
      destruct (countQ v x) eqn:E; [reflexivity |].
      exfalso. apply Hv. apply countQ_pos_iff. lia.
  - intros Hbelow.
    assert (E0 : i = 0%nat).
    { destruct i as [| i'] eqn:Ei; [reflexivity | exfalso].
      pose proof (searchsorted_before U v 0) as H1.
      fold i in H1. rewrite Ei in H1. specialize (H1 ltac:(lia)).
      pose proof (Hbelow _ (Hin 0%nat HlenU)). lra. }
    exists (nth 0 U 0%Q). split; [apply Hin; exact HlenU |]. split.
    + intros u Hu. destruct (Hnth u Hu) as (j & Hj & E).
      pose proof (sorted_nth_le U 0 j Hs ltac:(lia)). lra.
    + unfold p. rewrite E0. reflexivity.
  - intros Habove.
    assert (Ei : i = length U).
    { pose proof (searchsorted_le U v) as Hle. fold i in Hle.
      destruct (Nat.eq_dec i (length U)) as [E | Hne]; [exact E | exfalso].
      pose proof (searchsorted_at U v ltac:(fold i; lia)) as H1. fold i in H1.
      pose proof (Habove _ (Hin i ltac:(lia))). lra. }
    exists (nth (length U - 1) U 0%Q).
    split; [apply Hin; lia |]. split.
    + intros u Hu. destruct (Hnth u Hu) as (j & Hj & E).
      pose proof (sorted_nth_le U j (length U - 1) Hs ltac:(lia)). lra.
    + unfold p. rewrite Ei.
      replace (length U =? 0)%nat with false
        by (symmetry; apply Nat.eqb_neq; lia).
      rewrite Nat.leb_refl. reflexivity.
  - intros l r Hl Hr Hlvr Hgap.
    destruct (fitted_neighbours x v l r Hl Hr Hlvr Hgap) as (Hi & EL & ER).
    fold U in Hi, EL, ER. fold i in Hi, EL, ER.
    assert (Hp : p = match f64_compare (float_dist l v) (float_dist r v) with
                     | Lt => prob x l
                     | Gt => prob x r
                     | Eq => py_max (prob x l) (prob x r)
                     end).
    { unfold p.
      replace (i =? 0)%nat with false by (symmetry; apply Nat.eqb_neq; lia).
      replace (length U <=? i)%nat with false
        by (symmetry; apply Nat.leb_gt; lia).
      rewrite (prob_proper x _ _ EL), (prob_proper x _ _ ER).
      rewrite (float_dist_proper _ _ v EL), (float_dist_proper _ _ v ER).
      reflexivity. }
    destruct (f64_compare_cases (float_dist l v) (float_dist r v))
      as [(E & H1 & H2) | [(E & H1 & H2) | (E & H1 & H2)]]; rewrite E in Hp.
    + split; [intros _; exact Hp |].
      split; [intros H'; contradiction | intros H'; contradiction].
    + split; [intros H'; contradiction |].
      split; [intros H'; contradiction |]. intros _ _.
      rewrite Hp. destruct (py_max_cases (prob x l) (prob x r)) as (G1 & G2 & G3).
      split; [exact G1 | split; assumption].
    + split; [intros H'; contradiction |].
      split; [intros _; exact Hp |]. intros _ H'; contradiction.
Qed.

Lemma multinomial_encode_adjacent_witness :
  exists m p,
    MultinomialMdl.init (Arr1 [1 # 1152921504606846976; 2; 2]%Q) = Ok m /\
    MultinomialMdl.adjacent_p m 1 = Ok p /\
    (prob [1 # 1152921504606846976; 2; 2]%Q (1 # 1152921504606846976) <= p)%Q /\
    (prob [1 # 1152921504606846976; 2; 2]%Q 2 <= p)%Q.
Proof.
  set (x := [1 # 1152921504606846976; 2; 2]%Q).
  assert (Hx : x <> []) by discriminate.
  assert (Hv : ~ InQ 1 x).
  { intros H. repeat (inversion H as [? ? E | ? ? H']; subst;
      [unfold Qeq in E; simpl in E; lia | clear H; rename H' into H]).
    inversion H. }
  destruct (proj1 multinomial_encode_adjacent x 1%Q (Fin 0) Hx Hv)
    as (m & p & Hm & Hp & _ & _ & _ & Hmid).
  exists m, p. split; [exact Hm |]. split; [exact Hp |].
  assert (Hd : float_dist (1 # 1152921504606846976) 1 = float_dist 2 1)
    by (vm_compute; reflexivity).
  apply (Hmid (1 # 1152921504606846976)%Q 2%Q).
  - constructor. reflexivity.
  - apply Exists_cons_tl. constructor. reflexivity.
  - split; reflexivity.
  - intros u H. repeat (inversion H as [? ? E | ? ? H']; subst;
      [| clear H; rename H' into H]).
    + left. rewrite E. apply Qle_refl.
    + right. rewrite E. apply Qle_refl.
    + right. rewrite E. apply Qle_refl.
    + inversion H.
  - rewrite Hd. intros H. vm_compute in H. discriminate.
  - rewrite Hd. intros H. vm_compute in H. discriminate.
Defined.

(** C6 as worded fails: fitted on [[1,1,2]] the probabilities are [2/3] for
    the value 1 and [1/3] for the value 2.  The query value 0 is absent and
    below every fitted value; it is given the probability [2/3] of the
    smallest fitted value, which is not the smallest fitted probability
    [1/3], and its cost [-log(2/3)] is not [-log(1/3)]. *)
Lemma multinomial_adjacent_not_smallest_probability :
  exists m p,
    MultinomialMdl.init (Arr1 [1; 1; 2]%Q) = Ok m /\
    lut_get (MultinomialMdl._uniq_val_p_lut m) 0 = None /\
    Forall (Qlt 0) (MultinomialMdl._uniq_vals m) /\
    MultinomialMdl.adjacent_p m 0 = Ok p /\
    (p == 2 # 3)%Q /\
    (Qlist_min (MultinomialMdl._uniq_val_ps m) == 1 # 3)%Q /\
    ~ (p == Qlist_min (MultinomialMdl._uniq_val_ps m))%Q /\
    forall unif,
      MultinomialMdl.uval_mdl m unif true 0 <>
      Ok (Fin (- ln (Q2R (Qlist_min (MultinomialMdl._uniq_val_ps m))))).
Proof.
  exists (fitted [1; 1; 2]%Q), (2 # 3)%Q.
  split; [apply MultinomialMdl_init_Arr1 |].
  split; [reflexivity |].
  split; [repeat constructor |].
  split; [reflexivity |].
  split; [reflexivity |].
  split; [reflexivity |].
  split; [intros H; vm_compute in H; discriminate |].
  intros unif.
  assert (E : MultinomialMdl.uval_mdl (fitted [1; 1; 2]%Q) unif true 0 =
              Ok (fneg (np_log (Q2R (2 # 3))))) by reflexivity.
  rewrite E.
  change (Qlist_min (MultinomialMdl._uniq_val_ps (fitted [1; 1; 2]%Q)))
    with (1 # 3)%Q.
  assert (H23 : Q2R (2 # 3) = (2 / 3)%R) by (unfold Q2R; simpl; lra).
  assert (H13 : Q2R (1 # 3) = (1 / 3)%R) by (unfold Q2R; simpl; lra).
  rewrite H23, H13, np_log_pos by lra. simpl fneg.
  intros H. injection H as H.
  assert (Hlt : (ln (1 / 3) < ln (2 / 3))%R) by (apply ln_increasing; lra).
  lra.
Qed.

(** ** Encoding with the adjacency option *)

Lemma charged_prob_fitted (x : list Q) (v : Q) :
  x <> [] -> exists u, InQ u x /\ charged_prob x v = prob x u.
Proof.
  intros Hx. unfold charged_prob. destruct (countQ v x =? 0)%nat eqn:E.
  - destruct (adjacent_p_is_fitted x v Hx) as (u & Hu & ->).
    exists u. split; [exact Hu | reflexivity].
  - apply Nat.eqb_neq in E. exists v.
    split; [apply countQ_pos_iff; lia | reflexivity].
Qed.

Lemma charged_prob_range (x : list Q) (v : Q) :
  x <> [] -> (0 < charged_prob x v <= 1)%Q.
Proof.
  intros Hx. destruct (charged_prob_fitted x v Hx) as (u & Hu & ->).
  split; [apply prob_pos | apply prob_le_1]; exact Hu.
Qed.

Lemma charged_prob_In (x : list Q) (v : Q) :
  x <> [] -> In (charged_prob x v) (MultinomialMdl._uniq_val_ps (fitted x)).
Proof.
  intros Hx. destruct (charged_prob_fitted x v Hx) as (u & Hu & ->).
  unfold fitted. cbn [MultinomialMdl._uniq_val_ps]. rewrite fitted_ps.
  apply uniq_table_keys_iff in Hu.
  destruct (InQ_nth _ _ Hu) as (j & Hj & E).
  rewrite <- (prob_proper x _ _ E). apply in_map. apply nth_In; exact Hj.
Qed.

Lemma uval_mdl_charged (x : list Q) (unif : fval) (v : Q) :
  x <> [] ->
  MultinomialMdl.uval_mdl (fitted x) unif true v =
  Ok (Fin (- ln (Q2R (charged_prob x v)))).
Proof.
  intros Hx. pose proof (charged_prob_range x v Hx) as [Hpos _].
  revert Hpos. unfold MultinomialMdl.uval_mdl, charged_prob.
  change (MultinomialMdl._uniq_val_p_lut (fitted x))
    with (combine (keys (uniq_table x))
            (map (fun c => ratio c (length x)) (map snd (uniq_table x)))).
  rewrite lut_get_fitted.
  destruct (countQ v x =? 0)%nat.
  - destruct (adjacent_p_is_fitted x v Hx) as (u & Hu & ->).
    intros Hpos. cbn [py_bind]. rewrite np_log_pos by (apply Q2R_pos; exact Hpos).
    reflexivity.
  - intros Hpos. fold (prob x v).
    rewrite np_log_pos by (apply Q2R_pos; exact Hpos). reflexivity.
Qed.

Lemma encode_adjacent_value (x q : list Q) :
  x <> [] -> q <> [] ->
  MultinomialMdl.encode (fitted x) (Arr1 q) true =
  Ok (Fin (Rsum (map (fun v => (- ln (Q2R (charged_prob x v))
                                * INR (countQ v q))%R)
                     (keys (uniq_table q))))).
Proof.
  intros Hx Hq. rewrite encode_unfold by exact Hq.
  change (MultinomialMdl._n (fitted x)) with (length x).
  replace (length x =? 0)%nat with false
    by (symmetry; apply Nat.eqb_neq; destruct x; [congruence | discriminate]).
  rewrite (encode_loop_sum _ _ _
             (fun v => Fin (- ln (Q2R (charged_prob x v)))))
    by (intros u c _; apply uval_mdl_charged; exact Hx).
  rewrite fadd_0_l.
  rewrite (map_keys_count q
             (fun u c => fmul (Fin (- ln (Q2R (charged_prob x u)))) (of_int c))).
  rewrite <- np_sum_Fin, map_map. reflexivity.
Qed.

Lemma neg_ln_prob_nonneg (p : Q) (c : nat) :
  (0 < p <= 1)%Q -> (0 <= - ln (Q2R p) * INR c)%R.
Proof.
  intros [Hpos Hle].
  pose proof (ln_le_0 (Q2R p) (conj (Q2R_pos p Hpos) (Q2R_le_1 p Hle))).
  pose proof (pos_INR c). nra.
Qed.

Lemma max_abs_all_zero (q : list Q) :
  (forall v, InQ v q -> (v == 0)%Q) -> (max_abs q == 0)%Q.
Proof.
  unfold InQ. induction q as [| w q IH]; simpl; intros H; [reflexivity |].
  rewrite IH by (intros v Hv; apply H; apply Exists_cons_tl; exact Hv).
  rewrite (H w) by (constructor; reflexivity). reflexivity.
Qed.

(** C10: with the adjacency option, a model fitted on a non-empty sample
    charges every value of a non-empty query [-log p] for a fitted
    probability [p]; the result is a finite non-negative sum of such terms
    times the multiplicities.  For an all-zero query the uniform fallback
    evaluates to [-inf], and the result is finite all the same. *)
Theorem adjacency_encode_finite (x q : list Q) :
  x <> [] -> q <> [] ->
  exists m U (pv : Q -> Q),
    MultinomialMdl.init (Arr1 x) = Ok m /\
    StronglySorted Qlt U /\ (forall v, InQ v U <-> InQ v q) /\
    (forall v, In (pv v) (MultinomialMdl._uniq_val_ps m) /\ (0 < pv v <= 1)%Q) /\
    let r := Rsum (map (fun v => (- ln (Q2R (pv v)) * INR (countQ v q))%R) U) in
    MultinomialMdl.encode m (Arr1 q) true = Ok (Fin r) /\
    (0 <= r)%R /\
    ((forall v, InQ v q -> (v == 0)%Q) -> uniform_fallback q = NInf).
Proof.
  intros Hx Hq.
  exists (fitted x), (keys (uniq_table q)), (charged_prob x).
  split; [apply MultinomialMdl_init_Arr1 |].
  split; [apply uniq_table_sorted |].
  split; [intros v; apply uniq_table_keys_iff |].
  split; [intros v; split;
          [apply charged_prob_In | apply charged_prob_range]; exact Hx |].
  cbv zeta. split; [apply encode_adjacent_value; assumption |]. split.
  - apply Rsum_nonneg. rewrite List.Forall_forall. intros t Ht.
    apply in_map_iff in Ht. destruct Ht as (v & <- & _).
    apply neg_ln_prob_nonneg. apply charged_prob_range; exact Hx.
  - intros Hz. unfold uniform_fallback.
    assert (E : (max_abs q * 2 == 0)%Q)
      by (rewrite (max_abs_all_zero q Hz); reflexivity).
    rewrite (Qeq_eqR _ _ E), RMicromega.Q2R_0. apply np_log_zero.
Qed.

Lemma adjacency_encode_finite_witness :
  exists m r,
    MultinomialMdl.init (Arr1 [1; 1; 2]%Q) = Ok m /\
    MultinomialMdl.encode m (Arr1 [0; 0]%Q) true = Ok (Fin r) /\
    (0 <= r)%R /\ uniform_fallback [0; 0]%Q = NInf.
Proof.
  destruct (adjacency_encode_finite [1; 1; 2]%Q [0; 0]%Q)
    as (m & U & pv & Hm & _ & _ & _ & He & Hr & Hz); try discriminate.
  exists m. eexists. split; [exact Hm |]. split; [exact He |].
  split; [exact Hr |]. apply Hz.
  intros v H. repeat (inversion H as [? ? E | ? ? H']; subst;
    [exact E | clear H; rename H' into H]).
  inversion H.
Defined.

(** ** Sign of the costs *)

Lemma fnonneg_fadd (a b : fval) : fnonneg a -> fnonneg b -> fnonneg (fadd a b).
Proof.
  destruct a, b; simpl; try tauto. intros; lra.
Qed.

Lemma np_sum_nonneg (l : list fval) : Forall fnonneg l -> fnonneg (np_sum l).
Proof.
  induction 1 as [| a l Ha _ IH]; [simpl; lra |].
  change (np_sum (a :: l)) with (fadd a (np_sum l)).
  apply fnonneg_fadd; assumption.
Qed.

Lemma fnonneg_fmul_count (c : fval) (n : nat) :
  fnonneg c -> (0 < n)%nat -> fnonneg (fmul c (of_int n)).
Proof.
  intros Hc Hn. apply lt_0_INR in Hn.
  destruct c as [r | | |]; unfold of_int; cbn [fmul fnonneg] in *;
    try contradiction.
  - apply Rmult_le_pos; lra.
  - unfold fsign_mul. destruct (Rlt_dec 0 (INR n)); [exact I | contradiction].
Qed.

Lemma fnonneg_count_fmul (c : fval) (n : nat) :
  fnonneg c -> (0 < n)%nat -> fnonneg (fmul (of_int n) c).
Proof.
  intros Hc Hn. apply lt_0_INR in Hn.
  destruct c as [r | | |]; unfold of_int; cbn [fmul fnonneg] in *;
    try contradiction.
  - apply Rmult_le_pos; lra.
  - unfold fsign_mul. destruct (Rlt_dec 0 (INR n)); [exact I | contradiction].
Qed.

Lemma table_mdl_nonneg (x : list Q) :
  fnonneg (table_mdl (uniq_table x) (length x)).
Proof.
  destruct (Nat.lt_trichotomy (length (keys (uniq_table x))) 1)
    as [Hlt | [Heq | Hgt]].
  - unfold table_mdl, MultinomialMdl.init_mdl.
    destruct (keys (uniq_table x)); [simpl; lra | simpl in Hlt; lia].
  - rewrite table_mdl_one by exact Heq. simpl. apply ln_ge_0.
    assert (Hn : (1 <= length x)%nat).
    { destruct x; [simpl in Heq; lia | simpl; lia]. }
    apply le_INR in Hn. simpl in Hn. exact Hn.
  - rewrite table_mdl_many by exact Hgt. simpl.
    assert (Hx : x <> []) by (intros ->; simpl in Hgt; lia).
    apply Rsum_nonneg. rewrite List.Forall_forall. intros t Ht.
    apply in_map_iff in Ht. destruct Ht as (u & <- & Hu).
    apply neg_ln_prob_nonneg. fold (prob x u).
    assert (Hin : InQ u x).
    { apply uniq_table_keys_iff. unfold InQ. apply List.Exists_exists.
      exists u. split; [exact Hu | reflexivity]. }
    split; [apply prob_pos | apply prob_le_1]; exact Hin.
Qed.

Lemma uniform_fallback_nonneg (q : list Q) :
  (1 # 2 <= max_abs q)%Q ->
  exists r, uniform_fallback q = Fin r /\ (0 <= r)%R.
Proof.
  intros H. unfold uniform_fallback.
  assert (H1 : (1 <= Q2R (max_abs q * 2))%R).
  { rewrite <- RMicromega.Q2R_1. apply Qle_Rle. lra. }
  exists (ln (Q2R (max_abs q * 2))).
  split; [apply np_log_pos; lra | apply ln_ge_0; exact H1].
Qed.

Lemma float_fallback_nonneg (q : list Q) :
  (1 # 2 <= max_abs q)%Q -> fnonneg (float_fallback q).
Proof.
  intros H. unfold float_fallback.
  destruct (Qle_bool (inject_Z (2 ^ 1023)) (max_abs q)); [exact I |].
  destruct (uniform_fallback_nonneg q H) as (r & -> & Hr). exact Hr.
Qed.

Lemma value_cost_nonneg (x q : list Q) (v : Q) :
  (1 # 2 <= max_abs q)%Q -> fnonneg (value_cost x q v).
Proof.
  intros H. unfold value_cost. destruct (countQ v x =? 0)%nat eqn:E.
  - apply float_fallback_nonneg; exact H.
  - apply Nat.eqb_neq in E. cbn [fnonneg].
    pose proof (countQ_le_length x v) as Hle.
    rewrite <- Q2R_ratio by lia.
    pose proof (neg_ln_prob_nonneg (ratio (countQ v x) (length x)) 1) as Hn.
    simpl INR in Hn. rewrite Rmult_1_r in Hn. apply Hn.
    split; [apply ratio_pos | apply ratio_le_1]; lia.
Qed.

Lemma encode_empty_query (m : MultinomialMdl.t) (adj : bool) :
  MultinomialMdl.encode m (Arr1 []) adj = Ok (Fin 0).
Proof. reflexivity. Qed.

Lemma encode_nonneg (x q : list Q) (adj : bool) :
  exists c, MultinomialMdl.encode (fitted x) (Arr1 q) adj = Ok c /\
    (q = [] \/ (1 # 2 <= max_abs q)%Q \/ (adj = true /\ x <> []) ->
     fnonneg c).
Proof.
  destruct q as [| w q'].
  { exists (Fin 0). split; [apply encode_empty_query | intros _; simpl; lra]. }
  set (q := w :: q'). assert (Hq : q <> []) by discriminate.
  destruct x as [| y x'].
  { eexists. split; [apply encode_unfitted_value; exact Hq |].
    intros [H | [H | [_ H]]]; [congruence | | congruence].
    apply fnonneg_count_fmul;
      [apply float_fallback_nonneg; exact H | simpl; lia]. }
  set (x := y :: x'). assert (Hx : x <> []) by discriminate.
  destruct adj.
  - eexists. split; [apply encode_adjacent_value; assumption |].
    intros _. cbn [fnonneg]. apply Rsum_nonneg. rewrite List.Forall_forall.
    intros t Ht. apply in_map_iff in Ht. destruct Ht as (v & <- & _).
    apply neg_ln_prob_nonneg. apply charged_prob_range; exact Hx.
  - eexists. split; [apply encode_uniform_value; assumption |].
    intros [H | [H | [H _]]]; [congruence | | discriminate].
    apply np_sum_nonneg. rewrite List.Forall_forall. intros t Ht.
    apply in_map_iff in Ht. destruct Ht as (v & <- & Hv).
    apply fnonneg_fmul_count; [apply value_cost_nonneg; exact H |].
    apply countQ_pos_iff, uniq_table_keys_iff.
    unfold InQ. apply List.Exists_exists.
    exists v. split; [exact Hv | reflexivity].
Qed.

Lemma log_densities_sum (ds : list R) :
  Forall (fun d => (0 < d <= 1)%R) ds ->
  exists s, np_sum (map np_log ds) = Fin s /\ (s <= 0)%R.
Proof.
  induction 1 as [| d ds Hd _ (s & E & Hs)].
  - exists 0%R. split; [reflexivity | lra].
  - exists (ln d + s)%R.
    change (np_sum (map np_log (d :: ds)))
      with (fadd (np_log d) (np_sum (map np_log ds))).
    rewrite E, np_log_pos by lra. split; [reflexivity |].
    pose proof (ln_le_0 d Hd). lra.
Qed.

Lemma zero_indicator_nonneg (n k : nat) :
  (k <= n)%nat -> fnonneg (ZeroIGKdeMdl._compute_zero_indicator_mdl n k).
Proof.
  intros Hkn.
  assert (H3 : (0 <= ln 3)%R) by (apply ln_ge_0; lra).
  destruct (Nat.eq_dec n 0) as [-> | Hn].
  { simpl. lra. }
  destruct (Nat.eq_dec k n) as [-> | Hne].
  { unfold ZeroIGKdeMdl._compute_zero_indicator_mdl.
    replace (n =? 0)%nat with false by (symmetry; apply Nat.eqb_neq; exact Hn).
    rewrite Nat.eqb_refl. simpl orb. cbv iota. rewrite np_log_3. exact H3. }
  destruct (Nat.eq_dec k 0) as [-> | Hk0].
  { unfold ZeroIGKdeMdl._compute_zero_indicator_mdl.
    replace (n =? 0)%nat with false by (symmetry; apply Nat.eqb_neq; exact Hn).
    replace (0 =? n)%nat with false by (symmetry; apply Nat.eqb_neq; lia).
    simpl orb. cbv iota. rewrite np_log_3. exact H3. }
  rewrite zero_indicator_mixed by lia. simpl.
  assert (Hk : (0 < INR k)%R) by (apply lt_0_INR; lia).
  assert (Hlt : (INR k < INR n)%R) by (apply lt_INR; lia).
  assert (Hp : (0 < INR k / INR n < 1)%R).
  { split.
    - apply Rdiv_lt_0_compat; lra.
    - apply Rmult_lt_reg_r with (INR n); [lra |].
      unfold Rdiv. rewrite Rmult_assoc, Rinv_l by lra. lra. }
  pose proof (ln_le_0 (INR k / INR n) ltac:(lra)).
  pose proof (ln_le_0 (1 - INR k / INR n) ltac:(lra)).
  nra.
Qed.

Section CostSigns.

Variable spstats_gaussian_kde : list (list Q) -> bw_method -> py gaussian_kde.

Lemma gkde_mdl_nonneg (x : list Q) (bw : bw_method) :
  exists g, GKdeMdl.init spstats_gaussian_kde (Arr1 x) bw = Ok g /\
    (GKdeMdl.kde g = None -> fnonneg (GKdeMdl.mdl g)) /\
    (forall k, GKdeMdl.kde g = Some k ->
       Forall (fun d => (0 < d <= 1)%R) (evaluate k [x]) ->
       fnonneg (GKdeMdl.mdl g)).
Proof.
  destruct x as [| v x'].
  { eexists. split; [apply gkde_init_empty |].
    split; [intros _; simpl; lra | intros k Hk; discriminate]. }
  set (x := v :: x').
  destruct (spstats_gaussian_kde [x] bw) as [k0 | e] eqn:E.
  - eexists. split; [apply gkde_init_success; [discriminate | exact E] |].
    unfold GKdeMdl.kde, GKdeMdl.mdl. cbn [GKdeMdl._kde GKdeMdl._mdl].
    split; [discriminate |]. intros k Hk Hd. injection Hk as <-.
    destruct (log_densities_sum _ Hd) as (s & -> & Hs).
    rewrite np_log_2. cbn [fneg fadd fnonneg].
    pose proof (ln_ge_0 2 ltac:(lra)). lra.
  - eexists. split; [apply gkde_init_failure with (e := e); exact E |].
    unfold GKdeMdl.kde, GKdeMdl.mdl. cbn [GKdeMdl._kde GKdeMdl._mdl].
    split; [intros _ | discriminate].
    rewrite <- (scaled_ints_length x). apply table_mdl_nonneg.
Qed.

(** C7, as far as the code guarantees it: the self-cost of
    [MultinomialMdl] and the zero-indicator cost are never negative;
    [encode] is non-negative on an empty query, on a query whose largest
    magnitude is at least [1/2], and under the adjacency option for a model
    fitted on a non-empty sample; the cost of [GKdeMdl] is non-negative
    when no density was fitted and when every fitted density at the
    sample's points is at most [1]; the cost of [ZeroIGKdeMdl] is
    non-negative whenever that of its inner [GKdeMdl] is. *)
Theorem costs_nonneg_by_design :
  (forall x : list Q,
     exists m, MultinomialMdl.init (Arr1 x) = Ok m /\
       fnonneg (MultinomialMdl.mdl m) /\
       forall (q : list Q) (adj : bool),
         exists c, MultinomialMdl.encode m (Arr1 q) adj = Ok c /\
           (q = [] \/ (1 # 2 <= max_abs q)%Q \/ (adj = true /\ x <> []) ->
            fnonneg c)) /\
  (forall (x : list Q) (bw : bw_method),
     exists g, GKdeMdl.init spstats_gaussian_kde (Arr1 x) bw = Ok g /\
       (GKdeMdl.kde g = None -> fnonneg (GKdeMdl.mdl g)) /\
       (forall k, GKdeMdl.kde g = Some k ->
          Forall (fun d => (0 < d <= 1)%R) (evaluate k [x]) ->
          fnonneg (GKdeMdl.mdl g))) /\
  (forall (x : list Q) (bw : bw_method),
     exists z, ZeroIGKdeMdl.init spstats_gaussian_kde (Arr1 x) bw = Ok z /\
       fnonneg (ZeroIGKdeMdl.zi_mdl z) /\
       (fnonneg (ZeroIGKdeMdl.kde_mdl z) -> fnonneg (ZeroIGKdeMdl.mdl z))).
Proof.
  split; [| split].
  - intros x. exists (fitted x).
    split; [apply MultinomialMdl_init_Arr1 |].
    split; [apply table_mdl_nonneg |].
    intros q adj. apply encode_nonneg.
  - apply gkde_mdl_nonneg.
  - intros x bw.
    destruct (gkde_init_total spstats_gaussian_kde (ZeroIGKdeMdl.nonzero x) bw)
      as [g Hg].
    eexists. split; [unfold ZeroIGKdeMdl.init; rewrite Hg; reflexivity |].
    unfold ZeroIGKdeMdl.zi_mdl, ZeroIGKdeMdl.kde_mdl, ZeroIGKdeMdl.mdl.
    cbn [ZeroIGKdeMdl._zi_mdl ZeroIGKdeMdl._kde_mdl ZeroIGKdeMdl._mdl].
    assert (Hz : fnonneg (ZeroIGKdeMdl._compute_zero_indicator_mdl (length x)
                            (length (ZeroIGKdeMdl.nonzero x)))).
    { apply zero_indicator_nonneg. rewrite nonzero_length. lia. }
    split; [exact Hz |]. intros Hk. apply fnonneg_fadd; assumption.
Qed.

End CostSigns.

Lemma costs_nonneg_by_design_witness :
  exists m c,
    MultinomialMdl.init (Arr1 [1]%Q) = Ok m /\
    MultinomialMdl.encode m (Arr1 [3]%Q) false = Ok c /\ fnonneg c.
Proof.
  destruct (proj1 (costs_nonneg_by_design flat_kde) [1]%Q) as (m & Hm & _ & He).
  destruct (He [3]%Q false) as (c & Hc & Hn).
  exists m, c. split; [exact Hm |]. split; [exact Hc |].
  apply Hn. right; left. vm_compute. discriminate.
Defined.

(** C7 as worded fails for [encode]: a model fitted on [[1]] encodes the
    query [[1/4]], absent from the fit, at the uniform fallback
    [log(1/4 * 2) = log(1/2)], which is negative. *)
Lemma multinomial_encode_negative :
  exists m c,
    MultinomialMdl.init (Arr1 [1]%Q) = Ok m /\
    MultinomialMdl.encode m (Arr1 [1 # 4]%Q) false = Ok c /\
    c = Fin (ln (1 / 2)) /\ ~ fnonneg c.
Proof.
  exists (fitted [1]%Q), (Fin (ln (1 / 2))).
  split; [apply MultinomialMdl_init_Arr1 |].
  assert (Hlt : (ln (1 / 2) < 0)%R).
  { rewrite <- ln_1. apply ln_increasing; lra. }
  split; [| split; [reflexivity | simpl; lra]].
  rewrite encode_uniform_value by discriminate.
  change (keys (uniq_table [1 # 4]%Q)) with [(1 # 4)%Q].
  change (np_sum (map ?f [(1 # 4)%Q])) with (fadd (f (1 # 4)%Q) (Fin 0)).
  change (countQ (1 # 4) [1 # 4]%Q) with 1%nat.
  unfold value_cost. change (countQ (1 # 4) [1]%Q =? 0)%nat with true.
  cbv iota.
  rewrite float_fallback_in_range by (vm_compute; reflexivity).
  unfold uniform_fallback.
  assert (E : Q2R (max_abs [1 # 4]%Q * 2) = (1 / 2)%R).
  { change (max_abs [1 # 4]%Q * 2)%Q with ((Qmax (Qabs (1 # 4)) 0) * 2)%Q.
    assert (Em : (Qmax (Qabs (1 # 4)) 0 * 2 == 1 # 2)%Q) by reflexivity.
    rewrite (Qeq_eqR _ _ Em). unfold Q2R. simpl. lra. }
  rewrite E, np_log_pos by lra.
  unfold of_int. cbn [fmul fadd].
  change (countQ (1 # 4) [1 # 4]%Q) with 1%nat. cbn [INR].
  apply f_equal, f_equal. lra.
Qed.

(** With densities above 1 at the sample's points the cost of a successful
    fit is negative: two points of density [4] cost [-2 log 4 + log 2]. *)
Lemma gkde_mdl_negative_on_peaked_fit :
  exists g,
    GKdeMdl.init peaked_kde (Arr1 [0; 1 # 100]%Q) silverman = Ok g /\
    GKdeMdl.mdl g = Fin (- (ln 4 + (ln 4 + 0)) + ln 2) /\
    ~ fnonneg (GKdeMdl.mdl g).
Proof.
  pose (k := {| factor := 1;
                evaluate := fun ps => map (fun _ => 4%R) (concat ps) |}).
  eexists. split.
  { exact (gkde_init_success peaked_kde [0; 1 # 100]%Q silverman k
             ltac:(discriminate) eq_refl). }
  unfold GKdeMdl.mdl. cbn [GKdeMdl._mdl].
  change (evaluate k [[0; 1 # 100]%Q]) with [4%R; 4%R].
  change (np_sum (map np_log [4%R; 4%R]))
    with (fadd (np_log 4) (fadd (np_log 4) (Fin 0))).
  rewrite np_log_2, (np_log_pos 4) by lra. cbn [fadd fneg fnonneg].
  split; [reflexivity |].
  assert (H : (ln 2 < ln 4)%R) by (apply ln_increasing; lra).
  assert (H2 : (0 < ln 2)%R) by (rewrite <- ln_1; apply ln_increasing; lra).
  lra.
Qed.

(** ** Witnesses for the density encoders *)

Lemma gkde_mdl_fitted_witness :
  exists g,
    GKdeMdl.init flat_kde (Arr1 [1; 2; 3]%Q) silverman = Ok g /\
    GKdeMdl.mdl g =
      Fin (- Rsum (map ln [(1 / 2)%R; (1 / 2)%R; (1 / 2)%R]) + ln 2) /\
    GKdeMdl.bandwidth g = Some (Fin (1 * sample_std [1; 2; 3]%Q)).
Proof.
  destruct (proj2 (gkde_mdl_fitted flat_kde silverman) [1; 2; 3]%Q _
              ltac:(discriminate) eq_refl) as (g & Hg & _ & Hm & _ & Hb & _).
  exists g. split; [exact Hg |]. split.
  - apply Hm. repeat constructor; lra.
  - apply Hb. simpl. lia.
Defined.


Lemma zero_inflated_mdl_witness :
  exists z,
    ZeroIGKdeMdl.init flat_kde (Arr1 [0; 0; 1; 2; 3]%Q) silverman = Ok z /\
    ZeroIGKdeMdl.zi_mdl z =
    Fin (ln 3 - INR 3 * ln (INR 3 / INR 5)
         - (INR 5 - INR 3) * ln (1 - INR 3 / INR 5)).
Proof.
  destruct (zero_inflated_mdl flat_kde [0; 0; 1; 2; 3]%Q silverman)
    as (z & g & Hz & _ & _ & _ & Hmix & _).
  exists z. split; [exact Hz |]. apply Hmix. simpl. lia.
Defined.

(** ** Sharing of the sample array *)

Lemma new_array_spec (h : gmap nat (list Q)) (a : list Q) :
  let '(l, h') := Ref.new_array h a in
  h !! l = None /\ h' !! l = Some a /\
  forall l', l' <> l -> h' !! l' = h !! l'.
Proof.
  unfold Ref.new_array. set (l := fresh (dom h)).
  assert (Hl : h !! l = None).
  { apply not_elem_of_dom. apply is_fresh. }
  split; [exact Hl |]. split; [apply lookup_insert_eq |].
  intros l' Hne. apply lookup_insert_ne. congruence.
Qed.

Lemma read_Ok (h : gmap nat (list Q)) (l : nat) (a : list Q) :
  Ref.read h l = Ok a <-> h !! l = Some a.
Proof.
  unfold Ref.read. destruct (h !! l); split; intros H; congruence.
Qed.

(** X16: the array an accessor returns is a copy: writing into it leaves the
    stored sample as it was. *)
Lemma gkde_x_returns_copy (h h' h'' : gmap nat (list Q)) (o : Ref.gkde)
    (l i : nat) (v : Q) :
  Ref.gkde_x h o = Ok (l, h') ->
  Ref.setitem h' l i v = Ok h'' ->
  l <> Ref.g_x o /\ h'' !! Ref.g_x o = h !! Ref.g_x o.
Proof.
  unfold Ref.gkde_x. intros Hx Hset.
  destruct (Ref.read h (Ref.g_x o)) as [a |] eqn:Hr; [| discriminate].
  apply read_Ok in Hr. cbn [py_bind] in Hx.
  pose proof (new_array_spec h a) as Hnew.
  destruct (Ref.new_array h a) as [l0 h0]. injection Hx as -> ->.
  destruct Hnew as (Hl & _ & Hother).
  assert (Hne : l <> Ref.g_x o) by (intros ->; congruence).
  split; [exact Hne |].
  unfold Ref.setitem in Hset. destruct (h' !! l) as [b |]; [| discriminate].
  destruct (i <? length b)%nat; [| discriminate].
  injection Hset as <-. rewrite lookup_insert_ne by exact Hne.
  apply Hother. congruence.
Qed.

(** X17: [MultinomialMdl] keeps its own array: writing into the caller's input
    afterwards leaves the stored sample as it was. *)
Lemma multinomial_sample_private (h h1 h2 : gmap nat (list Q))
    (o : Ref.multinomial) (x i : nat) (v : Q) :
  Ref.multinomial_init h x = Ok (o, h1) ->
  Ref.setitem h1 x i v = Ok h2 ->
  Ref.m_x o <> x /\ h2 !! Ref.m_x o = h1 !! Ref.m_x o /\
  h1 !! Ref.m_x o = h !! x.
Proof.
  unfold Ref.multinomial_init. intros Hinit Hset.
  destruct (Ref.read h x) as [a |] eqn:Hr; [| discriminate].
  apply read_Ok in Hr. cbn [py_bind] in Hinit.
  rewrite MultinomialMdl_init_Arr1 in Hinit. cbn [py_bind] in Hinit.
  change (MultinomialMdl._x (fitted a)) with a in Hinit.
  pose proof (new_array_spec h a) as Hnew.
  destruct (Ref.new_array h a) as [l h'] eqn:En.
  injection Hinit as <- <-. cbn [Ref.m_x].
  destruct Hnew as (Hl & Hla & Hother).
  assert (Hne : l <> x) by (intros ->; congruence).
  split; [exact Hne |].
  unfold Ref.setitem in Hset. destruct (h' !! x) as [b |]; [| discriminate].
  destruct (i <? length b)%nat; [| discriminate].
  injection Hset as <-.
  split; [apply lookup_insert_ne; congruence | congruence].
Qed.

(** X18: [encode] writes to no array that existed before the call. *)
Lemma multinomial_encode_frame (h h' : gmap nat (list Q))
    (o : Ref.multinomial) (qx : nat) (adj : bool) (c : fval) :
  Ref.multinomial_encode h o qx adj = Ok (c, h') ->
  forall l, is_Some (h !! l) -> h' !! l = h !! l.
Proof.
  unfold Ref.multinomial_encode. intros He l [b Hb].
  destruct (Ref.read h qx) as [q |]; [| discriminate].
  cbn [py_bind] in He.
  destruct (MultinomialMdl.encode (Ref.m_fit o) (Arr1 q) adj); [| discriminate].
  cbn [py_bind] in He.
  pose proof (new_array_spec h q) as Hnew.
  destruct (Ref.new_array h q) as [l0 h0]. destruct Hnew as (Hl0 & _ & Hother).
  cbn [snd] in He. injection He as _ <-.
  apply Hother. congruence.
Qed.

Lemma np_std_123 : np_std [1; 2; 3]%Q 1 = Fin 1.
Proof.
  unfold np_std. cbn [length Nat.eqb Nat.leb Nat.sub].
  set (q := (_ / _)%Q).
  assert (E : (q == 1)%Q) by reflexivity.
  rewrite (Qeq_eqR _ _ E), RMicromega.Q2R_1, sqrt_1. reflexivity.
Qed.

Lemma np_std_523 : np_std [5; 2; 3]%Q 1 = Fin (sqrt (7 / 3)).
Proof.
  unfold np_std. cbn [length Nat.eqb Nat.leb Nat.sub].
  set (q := (_ / _)%Q).
  assert (E : (q == 7 # 3)%Q) by reflexivity.
  rewrite (Qeq_eqR _ _ E). apply f_equal, f_equal. unfold Q2R. simpl. lra.
Qed.

(** C9 at the failing input: a [GKdeMdl] built from the caller's array
    [[1,2,3]] stores the caller's reference.  After the caller writes 5
    into the first entry of its own array, the [x] accessor returns
    [[5,2,3]] and [bandwidth] has changed, while [mdl] is still the cost of
    [[1,2,3]]. *)
Theorem gkde_sample_follows_caller_array :
  let h0 : gmap nat (list Q) := {[ 0%nat := [1; 2; 3]%Q ]} in
  exists o h1 h2 l h3,
    Ref.gkde_init flat_kde h0 0 silverman = Ok (o, h1) /\
    GKdeMdl.x (Ref.g_fit o) = [1; 2; 3]%Q /\
    Ref.gkde_bandwidth h1 o = Ok (Some (Fin (1 * 1))) /\
    Ref.setitem h1 0 0 5 = Ok h2 /\
    Ref.gkde_x h2 o = Ok (l, h3) /\
    h3 !! l = Some [5; 2; 3]%Q /\
    Ref.gkde_bandwidth h2 o = Ok (Some (Fin (1 * sqrt (7 / 3)))) /\
    Ref.gkde_bandwidth h2 o <> Ref.gkde_bandwidth h1 o.
Proof.
  intros h0.
  assert (H0 : h0 !! 0%nat = Some [1; 2; 3]%Q) by apply lookup_singleton_eq.
  pose (k := {| factor := 1;
                evaluate := fun ps => map (fun _ => (1 / 2)%R) (concat ps) |}).
  pose (g0 := GKdeMdl.Build [1; 2; 3]%Q 3 silverman
                (fadd (fneg (np_sum (map np_log (evaluate k [[1; 2; 3]%Q]))))
                      (np_log 2))
                (Some (factor k)) (Some k)
                (Some (map np_log (evaluate k [[1; 2; 3]%Q])))).
  assert (Hinit : GKdeMdl.init flat_kde (Arr1 [1; 2; 3]%Q) silverman = Ok g0).
  { exact (gkde_init_success flat_kde [1; 2; 3]%Q silverman k
             ltac:(discriminate) eq_refl). }
  set (h2 := <[0%nat := [5; 2; 3]%Q]> h0).
  assert (H2 : h2 !! 0%nat = Some [5; 2; 3]%Q) by apply lookup_insert_eq.
  pose (o := {| Ref.g_x := 0%nat; Ref.g_fit := g0 |}).
  exists o, h0, h2, (fresh (dom h2)), (<[fresh (dom h2) := [5; 2; 3]%Q]> h2).
  split.
  { unfold Ref.gkde_init, Ref.read. rewrite H0. cbn [py_bind].
    rewrite Hinit. reflexivity. }
  split; [reflexivity |].
  assert (Hb1 : Ref.gkde_bandwidth h0 o = Ok (Some (Fin (1 * 1)))).
  { unfold Ref.gkde_bandwidth, Ref.read.
    change (GKdeMdl._bw_factor (Ref.g_fit o)) with (Some 1%R).
    change (Ref.g_x o) with 0%nat.
    rewrite H0. cbn [py_bind]. rewrite np_std_123. reflexivity. }
  assert (Hb2 : Ref.gkde_bandwidth h2 o = Ok (Some (Fin (1 * sqrt (7 / 3))))).
  { unfold Ref.gkde_bandwidth, Ref.read.
    change (GKdeMdl._bw_factor (Ref.g_fit o)) with (Some 1%R).
    change (Ref.g_x o) with 0%nat.
    rewrite H2. cbn [py_bind]. rewrite np_std_523. reflexivity. }
  split; [exact Hb1 |].
  split.
  { unfold Ref.setitem. rewrite H0. reflexivity. }
  split.
  { unfold Ref.gkde_x, Ref.read. change (Ref.g_x o) with 0%nat.
    rewrite H2. reflexivity. }
  split; [apply lookup_insert_eq |].
  split; [exact Hb2 |].
  rewrite Hb1, Hb2. intros E. injection E as E.
  assert (Hs : (1 < sqrt (7 / 3))%R).
  { rewrite <- sqrt_1 at 1. apply sqrt_lt_1_alt. lra. }
  lra.
Qed.

(** * Further properties of the module *)

(** ** Shape errors *)

Lemma encode_returns (x q : list Q) (adj : bool) :
  exists c, MultinomialMdl.encode (fitted x) (Arr1 q) adj = Ok c.
Proof.
  destruct (encode_nonneg x q adj) as (c & Hc & _). exists c. exact Hc.
Qed.

(** X3: [MultinomialMdl.encode] on a fitted model raises only for a query that
    is not 1-D, and then a [ValueError]: on every 1-D query, with or
    without the adjacency option, it returns a value, so none of the
    indexing in the adjacency branch goes out of bounds. *)
Theorem encode_raises_only_on_shape (x : list Q) (qx : ndarray) (adj : bool) :
  exists m, MultinomialMdl.init (Arr1 x) = Ok m /\
    match qx with
    | Arr1 q => exists c, MultinomialMdl.encode m qx adj = Ok c
    | _ => MultinomialMdl.encode m qx adj = Raise ValueError
    end.
Proof.
  exists (fitted x). split; [apply MultinomialMdl_init_Arr1 |].
  destruct qx as [v | q | rows]; [reflexivity | apply encode_returns | reflexivity].
Qed.

(** X2: the three constructors raise only for an input that is not 1-D, and
    then a [ValueError]; on a 1-D input each returns an object, whatever
    the density provider does. *)
Theorem constructors_raise_only_on_shape
    (spstats_gaussian_kde : list (list Q) -> bw_method -> py gaussian_kde)
    (x : ndarray) (bw : bw_method) :
  match x with
  | Arr1 v =>
      (exists m, MultinomialMdl.init x = Ok m) /\
      (exists g, GKdeMdl.init spstats_gaussian_kde x bw = Ok g) /\
      (exists z, ZeroIGKdeMdl.init spstats_gaussian_kde x bw = Ok z)
  | _ =>
      MultinomialMdl.init x = Raise ValueError /\
      GKdeMdl.init spstats_gaussian_kde x bw = Raise ValueError /\
      ZeroIGKdeMdl.init spstats_gaussian_kde x bw = Raise ValueError
  end.
Proof.
  destruct x as [v | a | rows]; [repeat split | | repeat split].
  split; [eexists; apply MultinomialMdl_init_Arr1 |].
  split; [apply gkde_init_total |].
  destruct (gkde_init_total spstats_gaussian_kde (ZeroIGKdeMdl.nonzero a) bw)
    as [g Hg].
  eexists. unfold ZeroIGKdeMdl.init. rewrite Hg. reflexivity.
Qed.

(** ** Grouping by distinct value is a sum over the entries *)

Lemma table_sum_insert (g : Q -> R) (w : Q) (t : list (Q * nat)) :
  (forall a b, (a == b)%Q -> g a = g b) ->
  Rsum (map (fun uc => (g (fst uc) * INR (snd uc))%R) (uniq_insert w t)) =
  (g w + Rsum (map (fun uc => (g (fst uc) * INR (snd uc))%R) t))%R.
Proof.
  intros Hg. induction t as [| [u c] t IH]; simpl.
  - lra.
  - destruct (Qcompare_cases w u) as [[-> _] | [[-> E] | [-> _]]]; simpl.
    + lra.
    + rewrite (Hg w u E). destruct c; simpl; lra.
    + rewrite IH. lra.
Qed.

Lemma table_sum_entries (g : Q -> R) (x : list Q) :
  (forall a b, (a == b)%Q -> g a = g b) ->
  Rsum (map (fun uc => (g (fst uc) * INR (snd uc))%R) (uniq_table x)) =
  Rsum (map g x).
Proof.
  intros Hg. induction x as [| v x IH]; simpl; [reflexivity |].
  rewrite table_sum_insert by exact Hg. rewrite IH. reflexivity.
Qed.

Lemma keys_sum_entries (g : Q -> R) (x : list Q) :
  (forall a b, (a == b)%Q -> g a = g b) ->
  Rsum (map (fun u => (g u * INR (countQ u x))%R) (keys (uniq_table x))) =
  Rsum (map g x).
Proof.
  intros Hg. rewrite <- (map_keys_count x (fun u c => (g u * INR c)%R)).
  apply table_sum_entries; exact Hg.
Qed.

Lemma Rsum_app (l1 l2 : list R) : Rsum (l1 ++ l2) = (Rsum l1 + Rsum l2)%R.
Proof.
  induction l1 as [| r l1 IH]; simpl; [lra | rewrite IH; lra].
Qed.

Lemma searchsorted_proper (a : list Q) (v w : Q) :
  (v == w)%Q -> np_searchsorted a v = np_searchsorted a w.
Proof.
  intros E. induction a as [| u a IH]; simpl; [reflexivity |].
  rewrite (Qcompare_comp u u (Qeq_refl u) v w E), IH. reflexivity.
Qed.

Lemma charged_prob_proper (x : list Q) (v w : Q) :
  (v == w)%Q -> charged_prob x v = charged_prob x w.
Proof.
  intros E. unfold charged_prob. rewrite (countQ_proper x v w E).
  destruct (countQ w x =? 0)%nat; [| apply prob_proper; exact E].
  destruct x as [| y x']; [reflexivity |].
  rewrite !adjacent_p_fitted by discriminate. cbv zeta.
  rewrite (searchsorted_proper _ v w E).
  set (U := keys (uniq_table (y :: x'))). set (i := np_searchsorted U w).
  rewrite (float_dist_proper_r (nth (i - 1) U 0%Q) v w E).
  rewrite (float_dist_proper_r (nth i U 0%Q) v w E). reflexivity.
Qed.

Lemma encode_adjacent_entries (x q : list Q) :
  x <> [] ->
  MultinomialMdl.encode (fitted x) (Arr1 q) true =
  Ok (Fin (Rsum (map (fun v => (- ln (Q2R (charged_prob x v)))%R) q))).
Proof.
  intros Hx. destruct q as [| w q'].
  { rewrite encode_empty_query. reflexivity. }
  rewrite encode_adjacent_value by (exact Hx || discriminate).
  rewrite (keys_sum_entries (fun v => (- ln (Q2R (charged_prob x v)))%R)).
  - reflexivity.
  - intros a b E. rewrite (charged_prob_proper x a b E). reflexivity.
Qed.

(** X6: with the adjacency option and a model fitted on a non-empty sample,
    [encode] is additive: the cost of two queries put end to end is the sum
    of their costs, so the cost of a query is the sum of the costs of its
    entries. *)
Theorem encode_adjacent_additive (x q1 q2 : list Q) :
  x <> [] ->
  exists m c1 c2,
    MultinomialMdl.init (Arr1 x) = Ok m /\
    MultinomialMdl.encode m (Arr1 q1) true = Ok (Fin c1) /\
    MultinomialMdl.encode m (Arr1 q2) true = Ok (Fin c2) /\
    MultinomialMdl.encode m (Arr1 (q1 ++ q2)) true = Ok (Fin (c1 + c2)).
Proof.
  intros Hx. exists (fitted x). do 2 eexists.
  split; [apply MultinomialMdl_init_Arr1 |].
  split; [apply encode_adjacent_entries; exact Hx |].
  split; [apply encode_adjacent_entries; exact Hx |].
  rewrite encode_adjacent_entries by exact Hx.
  rewrite map_app, Rsum_app. reflexivity.
Qed.

Lemma encode_adjacent_additive_witness :
  exists m c1 c2,
    MultinomialMdl.init (Arr1 [1; 1; 2]%Q) = Ok m /\
    MultinomialMdl.encode m (Arr1 [0; 1]%Q) true = Ok (Fin c1) /\
    MultinomialMdl.encode m (Arr1 [3]%Q) true = Ok (Fin c2) /\
    MultinomialMdl.encode m (Arr1 [0; 1; 3]%Q) true = Ok (Fin (c1 + c2)).
Proof.
  apply (encode_adjacent_additive [1; 1; 2]%Q [0; 1]%Q [3]%Q). discriminate.
Defined.

(** ** Queries made of fitted values *)

Lemma np_sum_Fin_in {A} (f : A -> fval) (g : A -> R) (l : list A) :
  (forall a, In a l -> f a = Fin (g a)) ->
  np_sum (map f l) = Fin (Rsum (map g l)).
Proof.
  intros H. rewrite <- np_sum_Fin, map_map. f_equal.
  apply map_ext_in. exact H.
Qed.

Lemma In_InQ (v : Q) (l : list Q) : In v l -> InQ v l.
Proof.
  intros H. unfold InQ. apply List.Exists_exists. exists v.
  split; [exact H | reflexivity].
Qed.

Lemma encode_uniform_present (x q : list Q) :
  x <> [] -> q <> [] -> (forall v, InQ v q -> InQ v x) ->
  MultinomialMdl.encode (fitted x) (Arr1 q) false =
  Ok (Fin (Rsum (map (fun v => (- ln (Q2R (prob x v)) * INR (countQ v q))%R)
                     (keys (uniq_table q))))).
Proof.
  intros Hx Hq Hin. rewrite encode_uniform_value by assumption.
  f_equal. apply np_sum_Fin_in. intros v Hv.
  assert (Hvx : InQ v x) by (apply Hin, uniq_table_keys_iff, In_InQ; exact Hv).
  apply countQ_pos_iff in Hvx. unfold value_cost.
  replace (countQ v x =? 0)%nat with false by (symmetry; apply Nat.eqb_neq; lia).
  unfold prob. rewrite Q2R_ratio; [reflexivity |].
  pose proof (countQ_le_length x v). lia.
Qed.

Lemma encode_adjacent_present (x q : list Q) :
  x <> [] -> q <> [] -> (forall v, InQ v q -> InQ v x) ->
  MultinomialMdl.encode (fitted x) (Arr1 q) true =
  Ok (Fin (Rsum (map (fun v => (- ln (Q2R (prob x v)) * INR (countQ v q))%R)
                     (keys (uniq_table q))))).
Proof.
  intros Hx Hq Hin. rewrite encode_adjacent_value by assumption.
  do 3 f_equal. apply map_ext_in. intros v Hv.
  assert (Hvx : InQ v x) by (apply Hin, uniq_table_keys_iff, In_InQ; exact Hv).
  apply countQ_pos_iff in Hvx. unfold charged_prob.
  replace (countQ v x =? 0)%nat with false by (symmetry; apply Nat.eqb_neq; lia).
  reflexivity.
Qed.

(** X5: the adjacency option only matters for values the model has not seen:
    on a query all of whose values occur in the fitted sample, [encode]
    returns the same cost with and without it. *)
Theorem encode_option_irrelevant_when_present (x q : list Q) :
  (forall v, InQ v q -> InQ v x) ->
  exists m c,
    MultinomialMdl.init (Arr1 x) = Ok m /\
    MultinomialMdl.encode m (Arr1 q) true = Ok c /\
    MultinomialMdl.encode m (Arr1 q) false = Ok c.
Proof.
  intros Hin. exists (fitted x).
  destruct q as [| w q'].
  { exists (Fin 0). split; [apply MultinomialMdl_init_Arr1 |].
    split; apply encode_empty_query. }
  assert (Hx : x <> []).
  { intros ->. specialize (Hin w (Exists_cons_hd _ _ _ (Qeq_refl w))).
    inversion Hin. }
  eexists. split; [apply MultinomialMdl_init_Arr1 |].
  split; [apply encode_adjacent_present | apply encode_uniform_present];
    (exact Hx || discriminate || exact Hin).
Qed.

Lemma encode_option_irrelevant_when_present_witness :
  exists m c,
    MultinomialMdl.init (Arr1 [1; 1; 2]%Q) = Ok m /\
    MultinomialMdl.encode m (Arr1 [2; 1]%Q) true = Ok c /\
    MultinomialMdl.encode m (Arr1 [2; 1]%Q) false = Ok c.
Proof.
  apply (encode_option_irrelevant_when_present [1; 1; 2]%Q [2; 1]%Q).
  intros v H. inversion H as [? ? E | ? ? H1]; subst.
  - apply Exists_cons_tl, Exists_cons_tl. constructor. exact E.
  - inversion H1 as [? ? E | ? ? H2]; subst; [| inversion H2].
    constructor. exact E.
Defined.

Lemma single_key_count (x : list Q) :
  length (keys (uniq_table x)) = 1%nat ->
  exists u, keys (uniq_table x) = [u] /\ countQ u x = length x.
Proof.
  intros H. pose proof (uniq_table_total x) as Ht.
  destruct (uniq_table x) as [| [u c] [| p t]] eqn:E; simpl in H; try lia.
  exists u. split; [reflexivity |].
  rewrite <- (uniq_table_count x u c) by (rewrite E; left; reflexivity).
  simpl in Ht. lia.
Qed.

(** X4: encoding the fitted sample with its own model, with or without the
    adjacency option, gives back [mdl] when the sample has more than one
    distinct value.  When it has exactly one, [encode] gives [0] although
    [mdl] is [log n]. *)
Theorem encode_own_sample (x : list Q) (adj : bool) :
  exists m, MultinomialMdl.init (Arr1 x) = Ok m /\
    ((1 < MultinomialMdl._n_uniq m)%nat ->
     MultinomialMdl.encode m (Arr1 x) adj = Ok (MultinomialMdl.mdl m)) /\
    (MultinomialMdl._n_uniq m = 1%nat ->
     MultinomialMdl.encode m (Arr1 x) adj = Ok (Fin 0) /\
     MultinomialMdl.mdl m = Fin (ln (INR (length x)))).
Proof.
  exists (fitted x). split; [apply MultinomialMdl_init_Arr1 |].
  change (MultinomialMdl._n_uniq (fitted x)) with (length (keys (uniq_table x))).
  change (MultinomialMdl.mdl (fitted x)) with (table_mdl (uniq_table x) (length x)).
  assert (Henc : x <> [] ->
    MultinomialMdl.encode (fitted x) (Arr1 x) adj =
    Ok (Fin (Rsum (map (fun v => (- ln (Q2R (prob x v)) * INR (countQ v x))%R)
                       (keys (uniq_table x)))))).
  { intros Hx. destruct adj;
      [apply encode_adjacent_present | apply encode_uniform_present];
      (exact Hx || tauto). }
  split.
  - intros Hm. assert (Hx : x <> []) by (intros ->; simpl in Hm; lia).
    rewrite (Henc Hx), table_mdl_many by exact Hm. reflexivity.
  - intros H1. assert (Hx : x <> []) by (intros ->; simpl in H1; lia).
    split; [| apply table_mdl_one; exact H1].
    rewrite (Henc Hx). destruct (single_key_count x H1) as (u & -> & Hc).
    unfold prob. simpl. rewrite Hc.
    rewrite Q2R_ratio by (apply length_pos_of_nonempty; exact Hx).
    assert (Hn : (0 < INR (length x))%R)
      by (apply lt_0_INR, length_pos_of_nonempty; exact Hx).
    replace (INR (length x) / INR (length x))%R with 1%R by (field; lra).
    rewrite ln_1. do 2 f_equal. lra.
Qed.

Lemma encode_own_sample_witness :
  exists m,
    MultinomialMdl.init (Arr1 [5; 5; 5]%Q) = Ok m /\
    MultinomialMdl.encode m (Arr1 [5; 5; 5]%Q) false = Ok (Fin 0) /\
    MultinomialMdl.mdl m = Fin (ln (INR 3)).
Proof.
  destruct (encode_own_sample [5; 5; 5]%Q false) as (m & Hm & _ & H1).
  exists m. split; [exact Hm |]. apply H1.
  rewrite MultinomialMdl_init_Arr1 in Hm. injection Hm as <-. reflexivity.
Defined.

(** ** The fitted model does not depend on the order of the sample *)

Lemma Forall_Qlt_proper (a b : Q) (l : list Q) :
  (a == b)%Q -> Forall (Qlt a) l -> Forall (Qlt b) l.
Proof.
  intros E H. induction H as [| c l Hc _ IH]; constructor; [| exact IH].
  rewrite <- E. exact Hc.
Qed.

Lemma sorted_table_ext (t t' : list (Q * nat)) :
  StronglySorted Qlt (keys t) -> StronglySorted Qlt (keys t') ->
  Forall (fun uc => (0 < snd uc)%nat) t ->
  Forall (fun uc => (0 < snd uc)%nat) t' ->
  (forall v, tlookup t v = tlookup t' v) ->
  map snd t = map snd t' /\ Forall2 Qeq (keys t) (keys t').
Proof.
  revert t'. induction t as [| [u c] t IH]; intros [| [u' c'] t'] Hs Hs' Hp Hp' Hl.
  - split; [reflexivity | constructor].
  - exfalso. specialize (Hl u'). simpl in Hl.
    rewrite (proj2 (Qeq_bool_iff u' u') (Qeq_refl u')) in Hl.
    inversion Hp' as [| ? ? Hc' _]; subst. simpl in Hc'. lia.
  - exfalso. specialize (Hl u). simpl in Hl.
    rewrite (proj2 (Qeq_bool_iff u u) (Qeq_refl u)) in Hl.
    inversion Hp as [| ? ? Hc _]; subst. simpl in Hc. lia.
  - simpl in Hs, Hs'.
    inversion Hs as [| ? ? Hs1 Hall]; subst.
    inversion Hs' as [| ? ? Hs1' Hall']; subst.
    inversion Hp as [| ? ? Hc Hp1]; subst.
    inversion Hp' as [| ? ? Hc' Hp1']; subst. simpl in Hc, Hc'.
    assert (Huu : (u == u')%Q).
    { destruct (Qcompare_cases u u') as [[_ H] | [[_ H] | [_ H]]]; [| exact H |];
        exfalso.
      - specialize (Hl u). simpl in Hl.
        rewrite (proj2 (Qeq_bool_iff u u) (Qeq_refl u)) in Hl.
        rewrite (Qeq_bool_false_gt u' u H) in Hl.
        rewrite tlookup_below in Hl
          by (eapply Forall_Qlt_weaken; [exact H | exact Hall']).
        lia.
      - specialize (Hl u'). simpl in Hl.
        rewrite (proj2 (Qeq_bool_iff u' u') (Qeq_refl u')) in Hl.
        rewrite (Qeq_bool_false_gt u u' H) in Hl.
        rewrite tlookup_below in Hl
          by (eapply Forall_Qlt_weaken; [exact H | exact Hall]).
        lia. }
    assert (Hcc : c = c').
    { specialize (Hl u). simpl in Hl.
      rewrite (proj2 (Qeq_bool_iff u u) (Qeq_refl u)) in Hl.
      rewrite (proj2 (Qeq_bool_iff u' u)) in Hl by (symmetry; exact Huu).
      exact Hl. }
    destruct (IH t' Hs1 Hs1' Hp1 Hp1') as [Hsnd Hkeys].
    { intros v. specialize (Hl v). simpl in Hl.
      rewrite <- (Qeq_bool_trans_l u u' v Huu) in Hl.
      destruct (Qeq_bool u v) eqn:E; [| exact Hl].
      apply Qeq_bool_iff in E.
      rewrite !tlookup_below; [reflexivity | |].
      - apply (Forall_Qlt_proper u' v); [rewrite <- Huu; exact E | exact Hall'].
      - apply (Forall_Qlt_proper u v); [exact E | exact Hall]. }
    simpl. split; [rewrite Hsnd, Hcc; reflexivity |].
    constructor; [exact Huu | exact Hkeys].
Qed.

Lemma countQ_permutation (x x' : list Q) (v : Q) :
  Permutation x x' -> countQ v x = countQ v x'.
Proof.
  unfold countQ. induction 1 as [| a l l' _ IH | a b l | l l' l'' _ IH1 _ IH2];
    simpl.
  - reflexivity.
  - destruct (Qeq_bool v a); simpl; congruence.
  - destruct (Qeq_bool v a), (Qeq_bool v b); reflexivity.
  - congruence.
Qed.

Lemma uniq_table_permutation (x x' : list Q) :
  Permutation x x' ->
  map snd (uniq_table x) = map snd (uniq_table x') /\
  Forall2 Qeq (keys (uniq_table x)) (keys (uniq_table x')).
Proof.
  intros Hperm. apply sorted_table_ext;
    try apply uniq_table_sorted; try apply uniq_table_counts_pos.
  intros v. rewrite !tlookup_uniq_table. apply countQ_permutation; exact Hperm.
Qed.

(** X7: the fitted multinomial model depends on the sample as a multiset:
    reordering the sample leaves the counts, the probabilities, the distinct
    values and [mdl] unchanged. *)
Theorem multinomial_mdl_order_independent (x x' : list Q) :
  Permutation x x' ->
  exists m m',
    MultinomialMdl.init (Arr1 x) = Ok m /\
    MultinomialMdl.init (Arr1 x') = Ok m' /\
    MultinomialMdl.mdl m = MultinomialMdl.mdl m' /\
    MultinomialMdl._uniq_val_cnts m = MultinomialMdl._uniq_val_cnts m' /\
    MultinomialMdl._uniq_val_ps m = MultinomialMdl._uniq_val_ps m' /\
    Forall2 Qeq (MultinomialMdl._uniq_vals m) (MultinomialMdl._uniq_vals m').
Proof.
  intros Hperm. exists (fitted x), (fitted x').
  split; [apply MultinomialMdl_init_Arr1 |].
  split; [apply MultinomialMdl_init_Arr1 |].
  destruct (uniq_table_permutation x x' Hperm) as [Hsnd Hkeys].
  pose proof (Permutation_length Hperm) as Hlen.
  unfold fitted, MultinomialMdl.mdl. simpl.
  rewrite Hsnd, Hlen.
  split; [| repeat split; exact Hkeys].
  unfold table_mdl, MultinomialMdl.init_mdl.
  pose proof Hkeys as Hl. apply Forall2_length in Hl.
  rewrite Hl, Hsnd. reflexivity.
Qed.

Lemma multinomial_mdl_order_independent_witness :
  exists m m',
    MultinomialMdl.init (Arr1 [1; 2; 1]%Q) = Ok m /\
    MultinomialMdl.init (Arr1 [2; 1; 1]%Q) = Ok m' /\
    MultinomialMdl.mdl m = MultinomialMdl.mdl m'.
Proof.
  destruct (multinomial_mdl_order_independent [1; 2; 1]%Q [2; 1; 1]%Q)
    as (m & m' & Hm & Hm' & Hmdl & _).
  - apply perm_swap.
  - exists m, m'. repeat split; assumption.
Defined.

(** ** A ceiling on the self-cost *)

Lemma Rsum_le (A : Type) (f g : A -> R) (l : list A) :
  (forall a, In a l -> (f a <= g a)%R) ->
  (Rsum (map f l) <= Rsum (map g l))%R.
Proof.
  induction l as [| a l IH]; simpl; intros H; [lra |].
  pose proof (H a (or_introl eq_refl)).
  assert (Rsum (map f l) <= Rsum (map g l))%R
    by (apply IH; intros b Hb; apply H; right; exact Hb).
  lra.
Qed.

Lemma Rsum_scaled_counts (t : list (Q * nat)) (k : R) :
  Rsum (map (fun uc => (INR (snd uc) * k)%R) t) =
  (INR (nat_sum (map snd t)) * k)%R.
Proof.
  induction t as [| [u c] t IH]; simpl; [lra |].
  rewrite IH, plus_INR. lra.
Qed.

Lemma neg_ln_ratio_le (c n : nat) :
  (0 < c <= n)%nat ->
  (- ln (Q2R (ratio c n)) * INR c <= INR c * ln (INR n))%R.
Proof.
  intros [Hc Hn]. rewrite Q2R_ratio by lia.
  assert (H1 : (1 <= INR c)%R) by (apply (le_INR 1); lia).
  assert (H2 : (1 <= INR n)%R) by (apply (le_INR 1); lia).
  unfold Rdiv. rewrite ln_mult by (try apply Rinv_0_lt_compat; lra).
  rewrite ln_Rinv by lra.
  pose proof (ln_ge_0 (INR c) H1). nra.
Qed.

(** X8: for a non-empty sample of size [n] the self-cost of [MultinomialMdl] is
    a real number between [0] and [n log n]. *)
Theorem multinomial_mdl_at_most_n_log_n (x : list Q) :
  x <> [] ->
  exists m r,
    MultinomialMdl.init (Arr1 x) = Ok m /\
    MultinomialMdl.mdl m = Fin r /\
    (0 <= r <= INR (length x) * ln (INR (length x)))%R.
Proof.
  intros Hx. pose proof (length_pos_of_nonempty x Hx) as Hn.
  assert (H1 : (1 <= INR (length x))%R) by (apply (le_INR 1); lia).
  pose proof (ln_ge_0 _ H1) as Hln.
  exists (fitted x).
  change (MultinomialMdl.mdl (fitted x)) with (table_mdl (uniq_table x) (length x)).
  pose proof (table_mdl_nonneg x) as Hnn.
  destruct (Nat.lt_trichotomy (length (keys (uniq_table x))) 1)
    as [Hlt | [Heq | Hgt]].
  - exfalso. apply (keys_nonempty x Hx).
    destruct (keys (uniq_table x)); [reflexivity | simpl in Hlt; lia].
  - eexists. split; [apply MultinomialMdl_init_Arr1 |].
    split; [apply table_mdl_one; exact Heq |]. nra.
  - assert (E : table_mdl (uniq_table x) (length x) =
      Fin (Rsum (map (fun uc => (- ln (Q2R (ratio (snd uc) (length x)))
                                 * INR (snd uc))%R) (uniq_table x)))).
    { unfold table_mdl, MultinomialMdl.init_mdl.
      rewrite (proj2 (Nat.ltb_lt _ _) Hgt).
      rewrite neg_log_times_table by (exact Hn || apply uniq_table_counts_pos).
      apply np_sum_Fin. }
    rewrite E in Hnn. simpl in Hnn.
    eexists. split; [apply MultinomialMdl_init_Arr1 |].
    split; [exact E |]. split; [exact Hnn |].
    apply Rle_trans with
      (Rsum (map (fun uc : Q * nat => (INR (snd uc) * ln (INR (length x)))%R)
                 (uniq_table x))).
    + apply Rsum_le. intros [u c] Hin. simpl. apply neg_ln_ratio_le.
      pose proof (uniq_table_counts_pos x) as Hpos.
      rewrite List.Forall_forall in Hpos. specialize (Hpos _ Hin). simpl in Hpos.
      rewrite (uniq_table_count x u c Hin) in *.
      pose proof (countQ_le_length x u). lia.
    + rewrite Rsum_scaled_counts, uniq_table_total. lra.
Qed.

Lemma multinomial_mdl_at_most_n_log_n_witness :
  exists m r,
    MultinomialMdl.init (Arr1 [1; 1; 2; 2; 2]%Q) = Ok m /\
    MultinomialMdl.mdl m = Fin r /\
    (0 <= r <= INR 5 * ln (INR 5))%R.
Proof.
  apply (multinomial_mdl_at_most_n_log_n [1; 1; 2; 2; 2]%Q). discriminate.
Defined.

(** ** Availability of the density model *)

Section DensityEncoders.

Variable spstats_gaussian_kde : list (list Q) -> bw_method -> py gaussian_kde.

(** X10: in every [GKdeMdl] the bandwidth is unavailable exactly when the density
    object is, and that is exactly when the sample is empty or the fit
    raised. *)
Theorem gkde_availability (x : list Q) (bw : bw_method) :
  exists g, GKdeMdl.init spstats_gaussian_kde (Arr1 x) bw = Ok g /\
    (GKdeMdl.bandwidth g = None <-> GKdeMdl.kde g = None) /\
    (GKdeMdl.kde g = None <->
     x = [] \/ exists e, spstats_gaussian_kde [x] bw = Raise e).
Proof.
  destruct x as [| v x'].
  { eexists. split; [apply gkde_init_empty |].
    split; [split; reflexivity |]. split; [left; reflexivity | reflexivity]. }
  set (x := v :: x').
  destruct (spstats_gaussian_kde [x] bw) as [k | e] eqn:E.
  - eexists. split; [apply gkde_init_success; [discriminate | exact E] |].
    unfold GKdeMdl.bandwidth, GKdeMdl.kde. simpl.
    split; [split; discriminate |].
    split; [discriminate |]. intros [H | [e H]]; discriminate.
  - eexists. split; [apply gkde_init_failure with (e := e); exact E |].
    unfold GKdeMdl.bandwidth, GKdeMdl.kde. simpl.
    split; [split; reflexivity |].
    split; [intros _; right; exists e; reflexivity | reflexivity].
Qed.

End DensityEncoders.

(** ** The fallback on a constant sample *)

Lemma uniq_table_constant (l : list Q) (v : Q) :
  l <> [] -> (forall u, In u l -> (u == v)%Q) ->
  exists w c, uniq_table l = [(w, c)] /\ (w == v)%Q.
Proof.
  induction l as [| a l IH]; intros Hl Hall; [congruence |].
  assert (Ha : (a == v)%Q) by (apply Hall; left; reflexivity).
  destruct l as [| b l'].
  - exists a, 1%nat. split; [reflexivity | exact Ha].
  - destruct IH as (w & c & E & Hw);
      [discriminate | intros u Hu; apply Hall; right; exact Hu |].
    change (uniq_table (a :: b :: l')) with (uniq_insert a (uniq_table (b :: l'))).
    rewrite E. simpl.
    assert (Haw : (a == w)%Q) by (rewrite Ha, Hw; reflexivity).
    rewrite (proj1 (Qeq_alt a w) Haw).
    exists w, (S c). split; [reflexivity | exact Hw].
Qed.

(** X11: when the fit raises on a sample whose [n > 0] entries are all equal, the
    cost of [GKdeMdl] is [log n]: the quantised sample has a single distinct
    value. *)
Theorem gkde_constant_sample_cost
    (spstats_gaussian_kde : list (list Q) -> bw_method -> py gaussian_kde)
    (x : list Q) (v : Q) (bw : bw_method) (e : exn) :
  x <> [] -> (forall u, In u x -> (u == v)%Q) ->
  spstats_gaussian_kde [x] bw = Raise e ->
  exists g, GKdeMdl.init spstats_gaussian_kde (Arr1 x) bw = Ok g /\
    GKdeMdl.mdl g = Fin (ln (INR (length x))).
Proof.
  intros Hx Hall Hk. eexists.
  split; [apply gkde_init_failure with (e := e); exact Hk |].
  unfold GKdeMdl.mdl. cbn [GKdeMdl._mdl].
  rewrite <- (scaled_ints_length x). apply table_mdl_one.
  destruct (uniq_table_constant (scaled_ints x)
              (inject_Z (astype_int (f64_mul v 100)))) as (w & c & E & _).
  - intros E. apply Hx. destruct x; [reflexivity | discriminate].
  - intros u Hu. unfold scaled_ints, np_astype_int in Hu. rewrite map_map in Hu.
    apply in_map_iff in Hu. destruct Hu as (a & <- & Ha).
    unfold f64_mul. rewrite (f64_round_proper (a * 100) (v * 100));
      [reflexivity |].
    rewrite (Hall a Ha). reflexivity.
  - rewrite E. reflexivity.
Qed.

Lemma gkde_constant_sample_cost_witness :
  exists g, GKdeMdl.init flat_kde (Arr1 [2; 4 # 2; 2]%Q) silverman = Ok g /\
    GKdeMdl.mdl g = Fin (ln (INR 3)).
Proof.
  apply (gkde_constant_sample_cost flat_kde [2; 4 # 2; 2]%Q 2 silverman
           LinAlgError).
  - discriminate.
  - intros u [<- | [<- | [<- | []]]]; reflexivity.
  - reflexivity.
Defined.

(** ** The zero / non-zero split *)

Lemma nonzero_all_zero (x : list Q) :
  (forall u, In u x -> (u == 0)%Q) -> ZeroIGKdeMdl.nonzero x = [].
Proof.
  unfold ZeroIGKdeMdl.nonzero. induction x as [| a x IH]; intros H;
    [reflexivity |].
  simpl. rewrite (proj2 (Qeq_bool_iff a 0)) by (apply H; left; reflexivity).
  simpl. apply IH. intros u Hu. apply H. right; exact Hu.
Qed.

Lemma nonzero_no_zero (x : list Q) :
  (forall u, In u x -> ~ (u == 0)%Q) -> ZeroIGKdeMdl.nonzero x = x.
Proof.
  unfold ZeroIGKdeMdl.nonzero. induction x as [| a x IH]; intros H;
    [reflexivity |].
  simpl. replace (Qeq_bool a 0) with false.
  - simpl. f_equal. apply IH. intros u Hu. apply H. right; exact Hu.
  - symmetry. apply not_true_is_false. intros E. apply Qeq_bool_iff in E.
    exact (H a (or_introl eq_refl) E).
Qed.

Lemma nonzero_entries (x : list Q) :
  Forall (fun v => ~ (v == 0)%Q) (ZeroIGKdeMdl.nonzero x).
Proof.
  unfold ZeroIGKdeMdl.nonzero. induction x as [| a x IH]; simpl; [constructor |].
  destruct (Qeq_bool a 0) eqn:E; simpl; [exact IH |].
  constructor; [| exact IH]. intros H. apply Qeq_bool_iff in H. congruence.
Qed.

Lemma nonzero_count (x : list Q) (v : Q) :
  ~ (v == 0)%Q -> countQ v (ZeroIGKdeMdl.nonzero x) = countQ v x.
Proof.
  intros Hv. unfold ZeroIGKdeMdl.nonzero, countQ.
  induction x as [| a x IH]; simpl; [reflexivity |].
  destruct (Qeq_bool a 0) eqn:E; simpl.
  - replace (Qeq_bool v a) with false; [exact IH |].
    symmetry. apply not_true_is_false. intros H.
    apply Qeq_bool_iff in H, E. apply Hv. rewrite H. exact E.
  - destruct (Qeq_bool v a); simpl; rewrite IH; reflexivity.
Qed.

Lemma ln_le_minus_1 (y : R) : (0 < y)%R -> (ln y <= y - 1)%R.
Proof.
  intros Hy. pose proof (exp_ineq1_le (ln y)) as H.
  rewrite exp_ln in H by exact Hy. lra.
Qed.

Lemma binary_entropy_le_ln_2 (p : R) :
  (0 < p < 1)%R -> (- p * ln p - (1 - p) * ln (1 - p) <= ln 2)%R.
Proof.
  intros [H0 H1].
  assert (Ha : (ln (/ 2 * / p) <= / 2 * / p - 1)%R).
  { apply ln_le_minus_1. apply Rmult_lt_0_compat; [lra |].
    apply Rinv_0_lt_compat; exact H0. }
  assert (Hb : (ln (/ 2 * / (1 - p)) <= / 2 * / (1 - p) - 1)%R).
  { apply ln_le_minus_1. apply Rmult_lt_0_compat; [lra |].
    apply Rinv_0_lt_compat; lra. }
  rewrite ln_mult, !ln_Rinv in Ha by (try apply Rinv_0_lt_compat; lra).
  rewrite ln_mult, !ln_Rinv in Hb by (try apply Rinv_0_lt_compat; lra).
  assert (Ha' : (p * (- ln 2 + - ln p) <= p * (/ 2 * / p - 1))%R)
    by (apply Rmult_le_compat_l; lra).
  assert (Hb' : ((1 - p) * (- ln 2 + - ln (1 - p))
                 <= (1 - p) * (/ 2 * / (1 - p) - 1))%R)
    by (apply Rmult_le_compat_l; lra).
  replace (p * (/ 2 * / p - 1))%R with (/ 2 - p)%R in Ha' by (field; lra).
  replace ((1 - p) * (/ 2 * / (1 - p) - 1))%R with (/ 2 - (1 - p))%R in Hb'
    by (field; lra).
  lra.
Qed.

Lemma zero_indicator_bounds (n k : nat) :
  (0 < n)%nat -> (k <= n)%nat ->
  exists r, ZeroIGKdeMdl._compute_zero_indicator_mdl n k = Fin r /\
            (ln 3 <= r <= ln 3 + INR n * ln 2)%R.
Proof.
  intros Hn Hkn.
  assert (H2 : (0 <= ln 2)%R) by (apply ln_ge_0; lra).
  assert (HnR : (0 < INR n)%R) by (apply lt_0_INR; exact Hn).
  destruct (Nat.eq_dec k n) as [-> | Hne].
  { exists (ln 3). unfold ZeroIGKdeMdl._compute_zero_indicator_mdl.
    replace (n =? 0)%nat with false by (symmetry; apply Nat.eqb_neq; lia).
    rewrite Nat.eqb_refl. simpl orb. cbv iota.
    split; [apply np_log_3 | nra]. }
  destruct (Nat.eq_dec k 0) as [-> | Hk0].
  { exists (ln 3). unfold ZeroIGKdeMdl._compute_zero_indicator_mdl.
    replace (n =? 0)%nat with false by (symmetry; apply Nat.eqb_neq; lia).
    replace (0 =? n)%nat with false by (symmetry; apply Nat.eqb_neq; lia).
    simpl orb. cbv iota. split; [apply np_log_3 | nra]. }
  eexists. split; [apply zero_indicator_mixed; lia |].
  assert (Hk : (0 < INR k)%R) by (apply lt_0_INR; lia).
  assert (Hlt : (INR k < INR n)%R) by (apply lt_INR; lia).
  set (p := (INR k / INR n)%R).
  assert (Hp : (0 < p < 1)%R).
  { unfold p. split.
    - apply Rdiv_lt_0_compat; lra.
    - apply Rmult_lt_reg_r with (INR n); [lra |].
      unfold Rdiv. rewrite Rmult_assoc, Rinv_l by lra. lra. }
  assert (Ek : INR k = (INR n * p)%R) by (unfold p; field; lra).
  pose proof (ln_le_0 p ltac:(lra)) as Hlp.
  pose proof (ln_le_0 (1 - p) ltac:(lra)) as Hlq.
  pose proof (binary_entropy_le_ln_2 p Hp) as Hent.
  rewrite Ek.
  replace (INR n - INR n * p)%R with (INR n * (1 - p))%R by ring.
  assert (Hm : (INR n * (- p * ln p - (1 - p) * ln (1 - p)) <= INR n * ln 2)%R)
    by (apply Rmult_le_compat_l; lra).
  split; nra.
Qed.

Lemma zero_indicator_degenerate (n k : nat) :
  n <> 0%nat -> k = n \/ k = 0%nat ->
  ZeroIGKdeMdl._compute_zero_indicator_mdl n k = np_log 3.
Proof.
  intros Hn Hk. unfold ZeroIGKdeMdl._compute_zero_indicator_mdl.
  replace (n =? 0)%nat with false by (symmetry; apply Nat.eqb_neq; exact Hn).
  replace ((k =? n) || (k =? 0))%nat with true; [reflexivity |].
  symmetry. apply orb_true_iff.
  destruct Hk as [Hk | Hk]; [left | right]; apply Nat.eqb_eq; exact Hk.
Qed.

Lemma zero_indicator_symmetric (n k : nat) :
  (k <= n)%nat ->
  ZeroIGKdeMdl._compute_zero_indicator_mdl n k =
  ZeroIGKdeMdl._compute_zero_indicator_mdl n (n - k).
Proof.
  intros Hkn.
  destruct (Nat.eq_dec n 0) as [-> | Hn]; [reflexivity |].
  destruct (Nat.eq_dec k n) as [-> | Hne].
  { rewrite !zero_indicator_degenerate by (exact Hn || lia). reflexivity. }
  destruct (Nat.eq_dec k 0) as [-> | Hk0].
  { rewrite !zero_indicator_degenerate by (exact Hn || lia). reflexivity. }
  rewrite !zero_indicator_mixed by lia.
  assert (HnR : (0 < INR n)%R) by (apply lt_0_INR; lia).
  rewrite minus_INR by lia.
  replace ((INR n - INR k) / INR n)%R with (1 - INR k / INR n)%R by (field; lra).
  replace (1 - (1 - INR k / INR n))%R with (INR k / INR n)%R by ring.
  f_equal. ring.
Qed.

Section ZeroInflated.

Variable spstats_gaussian_kde : list (list Q) -> bw_method -> py gaussian_kde.

Lemma zeroig_init_with (x : list Q) (bw : bw_method) (g : GKdeMdl.t) :
  GKdeMdl.init spstats_gaussian_kde (Arr1 (ZeroIGKdeMdl.nonzero x)) bw = Ok g ->
  ZeroIGKdeMdl.init spstats_gaussian_kde (Arr1 x) bw =
  Ok (ZeroIGKdeMdl.Build x (length x) (ZeroIGKdeMdl.nonzero x)
        (length (ZeroIGKdeMdl.nonzero x)) bw
        (ZeroIGKdeMdl._compute_zero_indicator_mdl (length x)
           (length (ZeroIGKdeMdl.nonzero x)))
        g (GKdeMdl.mdl g)
        (fadd (ZeroIGKdeMdl._compute_zero_indicator_mdl (length x)
                 (length (ZeroIGKdeMdl.nonzero x)))
              (GKdeMdl.mdl g))).
Proof. intros Hg. unfold ZeroIGKdeMdl.init. rewrite Hg. reflexivity. Qed.

(** X12: a non-empty sample of zeros only costs [log 3] in [ZeroIGKdeMdl],
    whatever the density provider: nothing is left to fit, so there is
    neither a density object nor a bandwidth. *)
Theorem zero_inflated_all_zero (x : list Q) (bw : bw_method) :
  x <> [] -> (forall u, In u x -> (u == 0)%Q) ->
  exists z, ZeroIGKdeMdl.init spstats_gaussian_kde (Arr1 x) bw = Ok z /\
    ZeroIGKdeMdl.x_nonzero z = [] /\
    ZeroIGKdeMdl.mdl z = Fin (ln 3) /\
    ZeroIGKdeMdl.kde z = None /\
    ZeroIGKdeMdl.bandwidth z = None.
Proof.
  intros Hx Hall. pose proof (nonzero_all_zero x Hall) as Hnz.
  eexists. split.
  { apply zeroig_init_with. rewrite Hnz. apply gkde_init_empty. }
  unfold ZeroIGKdeMdl.x_nonzero, ZeroIGKdeMdl.mdl, ZeroIGKdeMdl.kde,
    ZeroIGKdeMdl.bandwidth. simpl. rewrite Hnz.
  split; [reflexivity |]. split; [| split; reflexivity].
  unfold ZeroIGKdeMdl._compute_zero_indicator_mdl.
  replace (length x =? 0)%nat with false
    by (symmetry; apply Nat.eqb_neq; destruct x; [congruence | discriminate]).
  simpl (length [] =? 0)%nat. rewrite orb_true_r, np_log_3.
  unfold GKdeMdl.mdl. simpl. f_equal. lra.
Qed.

(** X13: on a non-empty sample without zeros [ZeroIGKdeMdl] is [GKdeMdl] on the
    same sample plus the constant [log 3]; the bandwidth is the same. *)
Theorem zero_inflated_no_zero (x : list Q) (bw : bw_method) :
  x <> [] -> (forall u, In u x -> ~ (u == 0)%Q) ->
  exists z g,
    ZeroIGKdeMdl.init spstats_gaussian_kde (Arr1 x) bw = Ok z /\
    GKdeMdl.init spstats_gaussian_kde (Arr1 x) bw = Ok g /\
    ZeroIGKdeMdl.x_nonzero z = x /\
    ZeroIGKdeMdl.mdl z = fadd (Fin (ln 3)) (GKdeMdl.mdl g) /\
    ZeroIGKdeMdl.bandwidth z = GKdeMdl.bandwidth g.
Proof.
  intros Hx Hall. pose proof (nonzero_no_zero x Hall) as Hnz.
  destruct (gkde_init_total spstats_gaussian_kde x bw) as [g Hg].
  eexists. exists g. split.
  { apply zeroig_init_with. rewrite Hnz. exact Hg. }
  split; [exact Hg |].
  unfold ZeroIGKdeMdl.x_nonzero, ZeroIGKdeMdl.mdl, ZeroIGKdeMdl.bandwidth.
  simpl. rewrite Hnz. split; [reflexivity |]. split; [| reflexivity].
  unfold ZeroIGKdeMdl._compute_zero_indicator_mdl.
  replace (length x =? 0)%nat with false
    by (symmetry; apply Nat.eqb_neq; destruct x; [congruence | discriminate]).
  rewrite Nat.eqb_refl. simpl orb. cbv iota. rewrite np_log_3. reflexivity.
Qed.

(** X14: the split [ZeroIGKdeMdl] keeps: [x_nonzero] holds no zero, every
    non-zero value occurs in it as often as in the sample, and
    [k + (number of zeros) = n]. *)
Theorem zero_inflated_partition (x : list Q) (bw : bw_method) :
  exists z, ZeroIGKdeMdl.init spstats_gaussian_kde (Arr1 x) bw = Ok z /\
    Forall (fun v => ~ (v == 0)%Q) (ZeroIGKdeMdl.x_nonzero z) /\
    (forall v, ~ (v == 0)%Q ->
       countQ v (ZeroIGKdeMdl.x_nonzero z) = countQ v x) /\
    (ZeroIGKdeMdl._k z + countQ 0 x = ZeroIGKdeMdl._n z)%nat /\
    ZeroIGKdeMdl._n z = length x.
Proof.
  destruct (gkde_init_total spstats_gaussian_kde (ZeroIGKdeMdl.nonzero x) bw)
    as [g Hg].
  eexists. split; [apply zeroig_init_with; exact Hg |].
  unfold ZeroIGKdeMdl.x_nonzero. simpl.
  split; [apply nonzero_entries |].
  split; [intros v Hv; apply nonzero_count; exact Hv |].
  split; [| reflexivity].
  rewrite nonzero_length. pose proof (countQ_le_length x 0). lia.
Qed.

(** X15: for a non-empty sample of size [n] the zero-indicator cost is a real
    number between [log 3] and [log 3 + n log 2], and it is the same for
    [k] non-zero entries as for [n - k]. *)
Theorem zero_indicator_cost_range (x : list Q) (bw : bw_method) :
  x <> [] ->
  exists z r,
    ZeroIGKdeMdl.init spstats_gaussian_kde (Arr1 x) bw = Ok z /\
    ZeroIGKdeMdl.zi_mdl z = Fin r /\
    (ln 3 <= r <= ln 3 + INR (length x) * ln 2)%R /\
    ZeroIGKdeMdl.zi_mdl z =
    ZeroIGKdeMdl._compute_zero_indicator_mdl (length x)
      (length x - ZeroIGKdeMdl._k z).
Proof.
  intros Hx. pose proof (length_pos_of_nonempty x Hx) as Hn.
  destruct (gkde_init_total spstats_gaussian_kde (ZeroIGKdeMdl.nonzero x) bw)
    as [g Hg].
  assert (Hk : (length (ZeroIGKdeMdl.nonzero x) <= length x)%nat)
    by (rewrite nonzero_length; lia).
  destruct (zero_indicator_bounds (length x) _ Hn Hk) as (r & Er & Hr).
  eexists. exists r. split; [apply zeroig_init_with; exact Hg |].
  unfold ZeroIGKdeMdl.zi_mdl. simpl.
  split; [exact Er |]. split; [exact Hr |].
  apply zero_indicator_symmetric; exact Hk.
Qed.

End ZeroInflated.

Lemma zero_inflated_all_zero_witness :
  exists z, ZeroIGKdeMdl.init flat_kde (Arr1 [0; 0]%Q) silverman = Ok z /\
    ZeroIGKdeMdl.mdl z = Fin (ln 3).
Proof.
  destruct (zero_inflated_all_zero flat_kde [0; 0]%Q silverman)
    as (z & Hz & _ & Hm & _).
  - discriminate.
  - intros u [<- | [<- | []]]; reflexivity.
  - exists z. split; assumption.
Defined.

Lemma zero_inflated_no_zero_witness :
  exists z g,
    ZeroIGKdeMdl.init flat_kde (Arr1 [1; 2; 3]%Q) silverman = Ok z /\
    GKdeMdl.init flat_kde (Arr1 [1; 2; 3]%Q) silverman = Ok g /\
    ZeroIGKdeMdl.mdl z = fadd (Fin (ln 3)) (GKdeMdl.mdl g).
Proof.
  destruct (zero_inflated_no_zero flat_kde [1; 2; 3]%Q silverman)
    as (z & g & Hz & Hg & _ & Hm & _).
  - discriminate.
  - intros u [<- | [<- | [<- | []]]]; discriminate.
  - exists z, g. repeat split; assumption.
Defined.

Lemma zero_indicator_cost_range_witness :
  exists z r,
    ZeroIGKdeMdl.init flat_kde (Arr1 [0; 0; 1; 2; 3]%Q) silverman = Ok z /\
    ZeroIGKdeMdl.zi_mdl z = Fin r /\
    (ln 3 <= r <= ln 3 + INR 5 * ln 2)%R.
Proof.
  destruct (zero_indicator_cost_range flat_kde [0; 0; 1; 2; 3]%Q silverman)
    as (z & r & Hz & Hr & Hb & _).
  - discriminate.
  - exists z, r. repeat split; (assumption || apply Hb).
Defined.

(** ** A ceiling on the adjacency cost *)

Lemma Rsum_const_le (A : Type) (f : A -> R) (k : R) (l : list A) :
  (forall a, In a l -> (0 <= f a <= k)%R) ->
  (0 <= Rsum (map f l) <= INR (length l) * k)%R.
Proof.
  induction l as [| a l IH]; intros H.
  - simpl. lra.
  - assert (Ha : (0 <= f a <= k)%R) by (apply H; left; reflexivity).
    assert (Hl : (0 <= Rsum (map f l) <= INR (length l) * k)%R)
      by (apply IH; intros b Hb; apply H; right; exact Hb).
    change (Rsum (map f (a :: l))) with (f a + Rsum (map f l))%R.
    change (length (a :: l)) with (S (length l)). rewrite S_INR. lra.
Qed.

(** X9: with the adjacency option, a model fitted on [n > 0] values charges each
    query entry at most [log n]: the cost of a query of size [s] lies
    between [0] and [s log n]. *)
Theorem encode_adjacent_at_most (x q : list Q) :
  x <> [] ->
  exists m r,
    MultinomialMdl.init (Arr1 x) = Ok m /\
    MultinomialMdl.encode m (Arr1 q) true = Ok (Fin r) /\
    (0 <= r <= INR (length q) * ln (INR (length x)))%R.
Proof.
  intros Hx. exists (fitted x). eexists.
  split; [apply MultinomialMdl_init_Arr1 |].
  split; [apply encode_adjacent_entries; exact Hx |].
  apply Rsum_const_le. intros v _.
  destruct (charged_prob_fitted x v Hx) as (u & Hu & ->).
  apply countQ_pos_iff in Hu. pose proof (countQ_le_length x u) as Hle.
  pose proof (neg_ln_prob_nonneg (prob x u) 1) as H0.
  pose proof (neg_ln_ratio_le (countQ u x) (length x) ltac:(lia)) as H1.
  fold (prob x u) in H1.
  assert (Hc : (1 <= INR (countQ u x))%R) by (apply (le_INR 1); lia).
  assert (Hn : (1 <= INR (length x))%R) by (apply (le_INR 1); lia).
  pose proof (ln_ge_0 _ Hn) as Hln.
  simpl INR in H0. rewrite Rmult_1_r in H0.
  assert (Hp : (0 <= - ln (Q2R (prob x u)))%R).
  { apply H0. split; [apply ratio_pos | apply ratio_le_1]; lia. }
  split; [exact Hp |].
  apply Rmult_le_reg_r with (INR (countQ u x)); [lra |].
  rewrite (Rmult_comm (ln (INR (length x)))). exact H1.
Qed.

Lemma encode_adjacent_at_most_witness :
  exists m r,
    MultinomialMdl.init (Arr1 [1; 1; 2]%Q) = Ok m /\
    MultinomialMdl.encode m (Arr1 [0; 7]%Q) true = Ok (Fin r) /\
    (0 <= r <= INR 2 * ln (INR 3))%R.
Proof.
  apply (encode_adjacent_at_most [1; 1; 2]%Q [0; 7]%Q). discriminate.
Defined.

(** ** What the caller can and cannot reach *)

(** X19: [ZeroIGKdeMdl] builds [_x_nonzero] as a new array: it holds the
    non-zero entries of the sample, the inner [GKdeMdl] refers to it, and a
    later write of the caller into its own array leaves it unchanged. *)
Theorem zeroigkde_nonzero_private
    (spstats_gaussian_kde : list (list Q) -> bw_method -> py gaussian_kde)
    (h h1 h2 : gmap nat (list Q)) (o : Ref.zeroigkde) (x i : nat) (v : Q)
    (a : list Q) (bw : bw_method) :
  h !! x = Some a ->
  Ref.zeroigkde_init spstats_gaussian_kde h x bw = Ok (o, h1) ->
  Ref.setitem h1 x i v = Ok h2 ->
  Ref.z_x o = x /\ Ref.z_x_nonzero o <> x /\
  Ref.g_x (Ref.z_kde_mdl_obj o) = Ref.z_x_nonzero o /\
  h1 !! Ref.z_x_nonzero o = Some (ZeroIGKdeMdl.nonzero a) /\
  h2 !! Ref.z_x_nonzero o = Some (ZeroIGKdeMdl.nonzero a).
Proof.
  intros Ha Hinit Hset. unfold Ref.zeroigkde_init, Ref.read in Hinit.
  rewrite Ha in Hinit. cbn [py_bind] in Hinit.
  destruct (ZeroIGKdeMdl.init spstats_gaussian_kde (Arr1 a) bw) as [z |];
    [| discriminate].
  cbn [py_bind] in Hinit.
  pose proof (new_array_spec h (ZeroIGKdeMdl.nonzero a)) as Hnew.
  destruct (Ref.new_array h (ZeroIGKdeMdl.nonzero a)) as [l h'].
  destruct Hnew as (Hl & Hla & Hother).
  unfold Ref.gkde_init, Ref.read in Hinit. rewrite Hla in Hinit.
  cbn [py_bind] in Hinit.
  destruct (GKdeMdl.init spstats_gaussian_kde
              (Arr1 (ZeroIGKdeMdl.nonzero a)) bw) as [g |]; [| discriminate].
  cbn [py_bind] in Hinit. injection Hinit as <- <-.
  cbn [Ref.z_x Ref.z_x_nonzero Ref.z_kde_mdl_obj Ref.g_x].
  assert (Hne : l <> x) by (intros ->; congruence).
  repeat split; try assumption.
  unfold Ref.setitem in Hset. destruct (h' !! x) as [b |]; [| discriminate].
  destruct (i <? length b)%nat; [| discriminate].
  injection Hset as <-. rewrite lookup_insert_ne by congruence. exact Hla.
Qed.

Lemma zeroigkde_nonzero_private_witness :
  let h : gmap nat (list Q) := {[ 0%nat := [0; 1; 2]%Q ]} in
  exists o h1 h2,
    Ref.zeroigkde_init flat_kde h 0 silverman = Ok (o, h1) /\
    Ref.setitem h1 0 1 0 = Ok h2 /\
    h2 !! 0%nat = Some [0; 0; 2]%Q /\
    h2 !! Ref.z_x_nonzero o = Some [1; 2]%Q.
Proof.
  intros h.
  destruct (Ref.zeroigkde_init flat_kde h 0 silverman) as [[o h1] |] eqn:E;
    [| discriminate].
  assert (E1 : h1 = <[1%nat := [1; 2]%Q]> h).
  { vm_compute in E. injection E as _ <-. reflexivity. }
  exists o, h1, (<[0%nat := [0; 0; 2]%Q]> h1).
  assert (Hset : Ref.setitem h1 0 1 0 = Ok (<[0%nat := [0; 0; 2]%Q]> h1))
    by (rewrite E1; reflexivity).
  split; [reflexivity |]. split; [exact Hset |].
  split; [apply lookup_insert_eq |].
  exact (proj2 (proj2 (proj2 (proj2
    (zeroigkde_nonzero_private flat_kde h h1 _ o 0 1 0 [0; 1; 2]%Q silverman
       eq_refl E Hset))))).
Defined.

Lemma gkde_x_returns_copy_witness :
  let h : gmap nat (list Q) := {[ 0%nat := [1; 2; 3]%Q ]} in
  let o := {| Ref.g_x := 0%nat;
              Ref.g_fit := GKdeMdl.Build [] 0 silverman (Fin 0) None None None |} in
  exists l h' h'',
    Ref.gkde_x h o = Ok (l, h') /\
    Ref.setitem h' l 0 9 = Ok h'' /\
    h'' !! l = Some [9; 2; 3]%Q /\
    h'' !! 0%nat = h !! 0%nat.
Proof.
  intros h o.
  exists 1%nat, (<[1%nat := [1; 2; 3]%Q]> h),
    (<[1%nat := [9; 2; 3]%Q]> (<[1%nat := [1; 2; 3]%Q]> h)).
  split; [reflexivity |]. split; [reflexivity |]. split; [reflexivity |].
  exact (proj2 (gkde_x_returns_copy h _ _ o 1 0 9 eq_refl eq_refl)).
Defined.

Lemma multinomial_sample_private_witness :
  let h : gmap nat (list Q) := {[ 0%nat := [1; 1; 2]%Q ]} in
  exists o h1 h2,
    Ref.multinomial_init h 0 = Ok (o, h1) /\
    Ref.setitem h1 0 0 7 = Ok h2 /\
    h2 !! 0%nat = Some [7; 1; 2]%Q /\
    h2 !! Ref.m_x o = h1 !! Ref.m_x o.
Proof.
  intros h.
  assert (E : Ref.multinomial_init h 0 =
              Ok ({| Ref.m_x := 1%nat; Ref.m_fit := fitted [1; 1; 2]%Q |},
                  <[1%nat := [1; 1; 2]%Q]> h)).
  { unfold Ref.multinomial_init.
    change (Ref.read h 0) with (Ok [1; 1; 2]%Q). cbn [py_bind].
    rewrite MultinomialMdl_init_Arr1. reflexivity. }
  eexists. exists (<[1%nat := [1; 1; 2]%Q]> h),
    (<[0%nat := [7; 1; 2]%Q]> (<[1%nat := [1; 1; 2]%Q]> h)).
  split; [exact E |]. split; [reflexivity |]. split; [reflexivity |].
  exact (proj1 (proj2
    (multinomial_sample_private h _ _ _ 0 0 7 E eq_refl))).
Defined.

Lemma multinomial_encode_frame_witness :
  let h : gmap nat (list Q) := {[ 0%nat := [1; 1; 2]%Q; 1%nat := [3; 3]%Q ]} in
  let o := {| Ref.m_x := 0%nat; Ref.m_fit := fitted [1; 1; 2]%Q |} in
  exists c h',
    Ref.multinomial_encode h o 1 true = Ok (c, h') /\
    h' !! 0%nat = h !! 0%nat /\ h' !! 1%nat = h !! 1%nat.
Proof.
  intros h o.
  destruct (encode_returns [1; 1; 2]%Q [3; 3]%Q true) as [c Hc].
  assert (E : Ref.multinomial_encode h o 1 true =
              Ok (c, snd (Ref.new_array h [3; 3]%Q))).
  { unfold Ref.multinomial_encode.
    change (Ref.read h 1) with (Ok [3; 3]%Q). cbn [py_bind].
    change (Ref.m_fit o) with (fitted [1; 1; 2]%Q). rewrite Hc. reflexivity. }
  exists c, (snd (Ref.new_array h [3; 3]%Q)).
  split; [exact E |].
  split; apply (multinomial_encode_frame h _ o 1 true c E); eexists; reflexivity.
Defined.

Lemma multinomial_init_spec (h h1 : gmap nat (list Q)) (o : Ref.multinomial)
    (x : nat) (a : list Q) :
  h !! x = Some a ->
  Ref.multinomial_init h x = Ok (o, h1) ->
  Ref.m_x o <> x /\ h1 !! Ref.m_x o = Some a /\ h1 !! x = Some a /\
  Ref.m_fit o = fitted a.
Proof.
  intros Ha Hinit. unfold Ref.multinomial_init, Ref.read in Hinit.
  rewrite Ha in Hinit. cbn [py_bind] in Hinit.
  rewrite MultinomialMdl_init_Arr1 in Hinit. cbn [py_bind] in Hinit.
  change (MultinomialMdl._x (fitted a)) with a in Hinit.
  pose proof (new_array_spec h a) as Hnew.
  destruct (Ref.new_array h a) as [l h']. destruct Hnew as (Hl & Hla & Hother).
  injection Hinit as <- <-. cbn [Ref.m_x Ref.m_fit].
  assert (Hne : l <> x) by (intros ->; congruence).
  repeat split; try assumption.
  rewrite Hother by congruence. exact Ha.
Qed.

(** X20: the [x] accessor of a [MultinomialMdl] hands back, in a new array,
    the sample the model was built from, also after the caller has written
    into the array it passed to the constructor. *)
Theorem multinomial_x_round_trip (h h1 h2 h3 : gmap nat (list Q))
    (o : Ref.multinomial) (x i l : nat) (v : Q) (a : list Q) :
  h !! x = Some a ->
  Ref.multinomial_init h x = Ok (o, h1) ->
  Ref.setitem h1 x i v = Ok h2 ->
  Ref.multinomial_x h2 o = Ok (l, h3) ->
  h3 !! l = Some a /\ l <> x /\ l <> Ref.m_x o /\
  MultinomialMdl.x (Ref.m_fit o) = a.
Proof.
  intros Ha Hinit Hset Hx.
  destruct (multinomial_init_spec h h1 o x a Ha Hinit) as (Hne & Hm & Hx1 & Hfit).
  unfold Ref.setitem in Hset. rewrite Hx1 in Hset.
  destruct (i <? length a)%nat; [| discriminate]. injection Hset as <-.
  unfold Ref.multinomial_x, Ref.read in Hx.
  rewrite lookup_insert_ne in Hx by congruence. rewrite Hm in Hx.
  cbn [py_bind] in Hx.
  pose proof (new_array_spec (<[x := <[i := v]> a]> h1) a) as Hnew.
  destruct (Ref.new_array (<[x := <[i := v]> a]> h1) a) as [l0 h0].
  destruct Hnew as (Hl & Hla & _). injection Hx as <- <-.
  split; [exact Hla |].
  split; [intros ->; rewrite lookup_insert_eq in Hl; discriminate |].
  split; [| rewrite Hfit; reflexivity].
  intros ->. rewrite lookup_insert_ne in Hl by congruence. congruence.
Qed.

Lemma multinomial_x_round_trip_witness :
  let h : gmap nat (list Q) := {[ 0%nat := [1; 1; 2]%Q ]} in
  exists o h1 h2 l h3,
    Ref.multinomial_init h 0 = Ok (o, h1) /\
    Ref.setitem h1 0 0 7 = Ok h2 /\
    Ref.multinomial_x h2 o = Ok (l, h3) /\
    h3 !! l = Some [1; 1; 2]%Q.
Proof.
  intros h.
  assert (E : Ref.multinomial_init h 0 =
              Ok ({| Ref.m_x := 1%nat; Ref.m_fit := fitted [1; 1; 2]%Q |},
                  <[1%nat := [1; 1; 2]%Q]> h)).
  { unfold Ref.multinomial_init.
    change (Ref.read h 0) with (Ok [1; 1; 2]%Q). cbn [py_bind].
    rewrite MultinomialMdl_init_Arr1. reflexivity. }
  eexists. exists (<[1%nat := [1; 1; 2]%Q]> h),
    (<[0%nat := [7; 1; 2]%Q]> (<[1%nat := [1; 1; 2]%Q]> h)), 2%nat.
  eexists. split; [exact E |]. split; [reflexivity |].
  assert (Ex : Ref.multinomial_x
                 (<[0%nat := [7; 1; 2]%Q]> (<[1%nat := [1; 1; 2]%Q]> h))
                 {| Ref.m_x := 1%nat; Ref.m_fit := fitted [1; 1; 2]%Q |} =
               Ok (2%nat, <[2%nat := [1; 1; 2]%Q]>
                            (<[0%nat := [7; 1; 2]%Q]>
                               (<[1%nat := [1; 1; 2]%Q]> h))))
    by reflexivity.
  split; [exact Ex |].
  exact (proj1 (multinomial_x_round_trip h _ _ _ _ 0 0 2 7 [1; 1; 2]%Q
                  eq_refl E eq_refl Ex)).
Defined.

(** ** The uniform fallback on an all-zero query *)

Lemma uniform_fallback_all_zero (q : list Q) :
  (forall v, In v q -> (v == 0)%Q) -> uniform_fallback q = NInf.
Proof.
  intros Hz. unfold uniform_fallback.
  assert (E : (max_abs q * 2 == 0)%Q).
  { rewrite (max_abs_all_zero q); [reflexivity |].
    intros v Hv. apply List.Exists_exists in Hv. destruct Hv as (w & Hw & ->).
    apply Hz; exact Hw. }
  rewrite (Qeq_eqR _ _ E), RMicromega.Q2R_0. apply np_log_zero.
Qed.

Lemma float_fallback_all_zero (q : list Q) :
  (forall v, In v q -> (v == 0)%Q) -> float_fallback q = NInf.
Proof.
  intros Hz. rewrite float_fallback_in_range.
  - apply uniform_fallback_all_zero; exact Hz.
  - rewrite (max_abs_all_zero q); [reflexivity |].
    intros v Hv. apply List.Exists_exists in Hv. destruct Hv as (w & Hw & ->).
    apply Hz; exact Hw.
Qed.

Lemma fmul_NInf_count (c : nat) : (0 < c)%nat -> fmul NInf (of_int c) = NInf.
Proof.
  intros Hc. unfold of_int, fmul, fsign_mul.
  destruct (Rlt_dec 0 (INR c)) as [_ | H]; [reflexivity |].
  exfalso. apply H. apply lt_0_INR; exact Hc.
Qed.

Lemma fmul_count_NInf (c : nat) : (0 < c)%nat -> fmul (of_int c) NInf = NInf.
Proof.
  intros Hc. unfold of_int, fmul, fsign_mul.
  destruct (Rlt_dec 0 (INR c)) as [_ | H]; [reflexivity |].
  exfalso. apply H. apply lt_0_INR; exact Hc.
Qed.

(** X21: where the uniform fallback is used, an all-zero query costs
    [-inf]: on a model fitted on an empty sample with either option, and
    without the adjacency option on any model whose sample holds no
    zero. *)
Theorem encode_all_zero_query (x q : list Q) (adj : bool) :
  q <> [] -> (forall v, In v q -> (v == 0)%Q) ->
  ~ InQ 0 x -> x = [] \/ adj = false ->
  exists m, MultinomialMdl.init (Arr1 x) = Ok m /\
    MultinomialMdl.encode m (Arr1 q) adj = Ok NInf.
Proof.
  intros Hq Hz H0 Hcase. exists (fitted x).
  split; [apply MultinomialMdl_init_Arr1 |].
  pose proof (length_pos_of_nonempty q Hq) as Hlen.
  destruct x as [| y x'].
  { rewrite encode_unfitted_value by exact Hq.
    rewrite float_fallback_all_zero by exact Hz.
    rewrite fmul_count_NInf by exact Hlen. reflexivity. }
  destruct Hcase as [Hx | ->]; [discriminate |].
  rewrite encode_uniform_value by (discriminate || exact Hq).
  destruct (uniq_table_constant q 0 Hq Hz) as (w & c & E & Hw).
  pose proof (uniq_table_counts_pos q) as Hpos. rewrite E in Hpos.
  inversion Hpos as [| ? ? Hc _]; subst. simpl in Hc.
  rewrite E. simpl keys. cbn [map].
  rewrite <- (uniq_table_count q w c) by (rewrite E; left; reflexivity).
  assert (Hcost : value_cost (y :: x') q w = NInf).
  { unfold value_cost.
    replace (countQ w (y :: x') =? 0)%nat with true.
    - apply float_fallback_all_zero; exact Hz.
    - symmetry. apply Nat.eqb_eq.
      destruct (countQ w (y :: x')) eqn:Ec; [reflexivity | exfalso].
      apply H0. apply countQ_pos_iff.
      rewrite <- (countQ_proper (y :: x') w 0 Hw). lia. }
  rewrite Hcost.
  change (np_sum [fmul NInf (of_int c)]) with (fadd (fmul NInf (of_int c)) (Fin 0)).
  rewrite fmul_NInf_count by exact Hc. reflexivity.
Qed.

Lemma encode_all_zero_query_witness :
  exists m, MultinomialMdl.init (Arr1 [1; 1; 2]%Q) = Ok m /\
    MultinomialMdl.encode m (Arr1 [0; 0]%Q) false = Ok NInf.
Proof.
  apply (encode_all_zero_query [1; 1; 2]%Q [0; 0]%Q false).
  - discriminate.
  - intros v [<- | [<- | []]]; reflexivity.
  - intros H. repeat (inversion H as [? ? E | ? ? H']; subst;
      [unfold Qeq in E; simpl in E; lia | clear H; rename H' into H]).
    inversion H.
  - right. reflexivity.
Defined.

Lemma zero_inflated_partition_witness :
  exists z,
    ZeroIGKdeMdl.init flat_kde (Arr1 [0; 1; 0; 1]%Q) silverman = Ok z /\
    countQ 1 (ZeroIGKdeMdl.x_nonzero z) = countQ 1 [0; 1; 0; 1]%Q.
Proof.
  destruct (zero_inflated_partition flat_kde [0; 1; 0; 1]%Q silverman)
    as (z & Hz & _ & Hc & _).
  exists z. split; [exact Hz |]. apply Hc.
  intros E. unfold Qeq in E. simpl in E. lia.
Defined.
